(** * sqlfluff reflow: ReflowSequence and the indent-deduction pass

    A shallow embedding of [src/sqlfluff/utils/reflow/sequence.py] and
    [src/sqlfluff/utils/reflow/reindent.py].  Python exceptions are values of
    an error monad, in-place mutation is explicit state passing, generators are
    loops over an explicit crawl state. *)

From Stdlib Require Import String Ascii ZArith Bool Arith List Lia.
From Stdlib Require Import Sorted.
Import ListNotations.

Set Implicit Arguments.

(** ** Exceptions and the error monad *)

Inductive exn : Type :=
| AssertionError
| NotImplementedError (msg : string)
| ValueError (msg : string)
| IndexError
| AttributeError
| UnboundLocalError (name : string)
| TypeError (msg : string)
| SQLFluffUserError.

Inductive result (A : Type) : Type :=
| Ok (a : A)
| Raise (e : exn).

Arguments Ok {A} a.
Arguments Raise {A} e.

Definition bind {A B : Type} (m : result A) (k : A -> result B) : result B :=
  match m with
  | Ok a => k a
  | Raise e => Raise e
  end.

Notation "x <- m ;; k" := (bind m (fun x => k))
  (at level 61, m at next level, right associativity).
Notation "' p <- m ;; k" := (bind m (fun x => match x with p => k end))
  (at level 61, p pattern, m at next level, right associativity).

Definition assert (b : bool) : result unit :=
  if b then Ok tt else Raise AssertionError.

Definition is_ok {A : Type} (r : result A) : bool :=
  match r with Ok _ => true | Raise _ => false end.

(** ** Python list primitives *)

Section PyList.
Context {A : Type}.

(** [l[i]] with Python's wrap-around for negative indices. *)
Definition py_get (l : list A) (i : Z) : result A :=
  let n := Z.of_nat (length l) in
  let j := if (i <? 0)%Z then (n + i)%Z else i in
  if ((0 <=? j) && (j <? n))%Z
  then match nth_error l (Z.to_nat j) with
       | Some a => Ok a
       | None => Raise IndexError
       end
  else Raise IndexError.

(** [l[i]] for an index that comes out of [enumerate]. *)
Definition py_nth (l : list A) (i : nat) : result A :=
  match nth_error l i with
  | Some a => Ok a
  | None => Raise IndexError
  end.

(** [l[-1]]. *)
Definition py_last (l : list A) : result A :=
  match rev l with
  | a :: _ => Ok a
  | [] => Raise IndexError
  end.

(** [l[a:b]] for non-negative bounds. *)
Definition py_slice (l : list A) (a b : nat) : list A :=
  firstn (b - a) (skipn a l).

(** [l[i] = v] on a working copy; the callers only assign at an index they
    have just read. *)
Fixpoint py_set (l : list A) (i : nat) (v : A) : list A :=
  match l, i with
  | [], _ => []
  | _ :: t, O => v :: t
  | h :: t, S j => h :: py_set t j v
  end.

(** [l[::2]] and [l[1::2]]. *)
Fixpoint stride2 (l : list A) : list A :=
  match l with
  | [] => []
  | a :: [] => [a]
  | a :: _ :: t => a :: stride2 t
  end.

Definition stride2_from1 (l : list A) : list A := stride2 (tl l).

(** [l.index(x)]. *)
Fixpoint py_index_from (eqb : A -> A -> bool) (x : A) (l : list A) (i : nat)
  : result nat :=
  match l with
  | [] => Raise (ValueError "x not in list")
  | h :: t => if eqb h x then Ok i else py_index_from eqb x t (S i)
  end.

Definition py_index (eqb : A -> A -> bool) (x : A) (l : list A) : result nat :=
  py_index_from eqb x l 0.
End PyList.

(** [s * n] on strings: a non-positive count gives the empty string. *)
Fixpoint str_repeat (s : string) (n : nat) : string :=
  match n with
  | O => EmptyString
  | S k => (s ++ str_repeat s k)%string
  end.

Definition str_mul (n : Z) (s : string) : string := str_repeat s (Z.to_nat n).

(** ** Segments

    [RawSegment] keeps what the reflow code reads from a raw segment: its type
    tag, raw text, the signed unit of an indent marker ([Dedent] is an [Indent]
    with value -1 and answers [is_type("indent")]), the block uuid of a template
    placeholder and the position marker. *)

Inductive SegType : Type :=
| code | whitespace | newline | indent | comment
| placeholder | template_loop | end_of_file.

Definition SegType_eqb (a b : SegType) : bool :=
  match a, b with
  | code, code | whitespace, whitespace | newline, newline | indent, indent
  | comment, comment | placeholder, placeholder
  | template_loop, template_loop | end_of_file, end_of_file => true
  | _, _ => false
  end.

Record RawSegment : Type := mkSeg {
  seg_type : SegType;
  raw : string;
  indent_val : Z;
  block_uuid : option nat;
  pos_marker : option nat
}.

Definition is_type (seg : RawSegment) (tys : list SegType) : bool :=
  existsb (SegType_eqb (seg_type seg)) tys.

Definition option_nat_eqb (a b : option nat) : bool :=
  match a, b with
  | Some x, Some y => Nat.eqb x y
  | None, None => true
  | _, _ => false
  end.

Definition RawSegment_eqb (a b : RawSegment) : bool :=
  SegType_eqb (seg_type a) (seg_type b)
  && String.eqb (raw a) (raw b)
  && Z.eqb (indent_val a) (indent_val b)
  && option_nat_eqb (block_uuid a) (block_uuid b)
  && option_nat_eqb (pos_marker a) (pos_marker b).

(** A segment of the parse tree, seen through its [raw_segments]. *)
Record BaseSegment : Type := mkBase { raw_segments : list RawSegment }.

Inductive LintFix : Type :=
| LintFix_delete (anchor : RawSegment)
| LintFix_create_before (anchor : RawSegment) (edit : list RawSegment)
| LintFix_create_after (anchor : RawSegment) (edit : list RawSegment)
| LintFix_replace (anchor : BaseSegment) (edit : list BaseSegment).

(** ** Reflow elements *)

Inductive ReflowElement : Type :=
| ReflowPoint (segments : list RawSegment)
| ReflowBlock (segments : list RawSegment).

Definition ReflowSequenceType : Type := list ReflowElement.

Definition segments (e : ReflowElement) : list RawSegment :=
  match e with ReflowPoint s | ReflowBlock s => s end.

Definition is_point (e : ReflowElement) : bool :=
  match e with ReflowPoint _ => true | ReflowBlock _ => false end.

Definition elem_raw (e : ReflowElement) : string :=
  fold_right (fun s acc => (raw s ++ acc)%string) EmptyString (segments e).

Definition list_eqb {A : Type} (eqb : A -> A -> bool) : list A -> list A -> bool :=
  fix go (l1 l2 : list A) : bool :=
    match l1, l2 with
    | [], [] => true
    | a :: t1, b :: t2 => eqb a b && go t1 t2
    | _, _ => false
    end.

Definition ReflowElement_eqb (a b : ReflowElement) : bool :=
  Bool.eqb (is_point a) (is_point b)
  && list_eqb RawSegment_eqb (segments a) (segments b).

(** Modelled from the spec: [elem.class_types] of elements.py, which is not
    under src/; the set of type tags of the element's segments. *)
Definition in_class_types (ty : SegType) (e : ReflowElement) : bool :=
  existsb (fun s => SegType_eqb (seg_type s) ty) (segments e).

(** Modelled from the spec: [ReflowPoint.get_indent_impulse] of elements.py,
    which is not under src/.  The run is scanned left to right; the impulse is
    the sum of the marker deltas, the trough the minimum prefix sum, starting
    at 0 and including the end value. *)
Definition get_indent_impulse (segs : list RawSegment) : Z * Z :=
  fold_left
    (fun (acc : Z * Z) seg =>
       let '(running, trough) := acc in
       if is_type seg [indent]
       then let r := (running + indent_val seg)%Z in (r, Z.min trough r)
       else (running, trough))
    segs (0%Z, 0%Z).

(** [truthy] of an [int]. *)
Definition nonzero (z : Z) : bool := negb (z =? 0)%Z.

(** [truthy] of an [Optional[int]]: [None] and [0] are both false. *)
Definition truthy_idx (o : option nat) : bool :=
  match o with
  | Some (S _) => true
  | _ => false
  end.

(** ** The sequence record

    The depth map of a [ReflowSequence] only feeds the depth info of blocks
    and is left out. *)

Record ReflowConfig : Type := mkConfig {
  indent_unit : string;
  tab_space_size : nat;
  max_line_length : nat;
  skip_indentation_in : list SegType
}.

Record ReflowSequence : Type := mkSequence {
  elements : ReflowSequenceType;
  root_segment : BaseSegment;
  reflow_config : ReflowConfig;
  embodied_fixes : list LintFix
}.

(** ** reindent.py: indent points and lines *)

Record _IndentPoint : Type := mkIndentPoint {
  idx : nat;
  indent_impulse : Z;
  indent_trough : Z;
  initial_indent_balance : Z;
  last_line_break_idx : option nat;
  is_line_break : bool;
  untaken_indents : list Z
}.

Definition closing_indent_balance (self : _IndentPoint) : Z :=
  (initial_indent_balance self + indent_impulse self)%Z.

(** The line record has a field [initial_indent_balance] of its own in the
    source; here its fields carry the prefix [line_]. *)
Record _IndentLine : Type := mkIndentLine {
  line_initial_indent_balance : Z;
  line_indent_points : list _IndentPoint
}.

Definition from_points (indent_points : list _IndentPoint) : result _IndentLine :=
  last <- py_last indent_points ;;
  starting_balance <-
    (if truthy_idx (last_line_break_idx last)
     then first <- py_nth indent_points 0 ;; Ok (closing_indent_balance first)
     else Ok 0%Z) ;;
  Ok (mkIndentLine starting_balance indent_points).

Definition _iter_block_segments (self : _IndentLine) (elements : ReflowSequenceType)
  : result (list RawSegment) :=
  last <- py_last (line_indent_points self) ;;
  range_slice <-
    match last_line_break_idx last with
    | None => Ok (py_slice elements 0 (idx last))
    | Some _ =>
        first <- py_nth (line_indent_points self) 0 ;;
        Ok (py_slice elements (idx first) (idx last))
    end ;;
  Ok (flat_map (fun element => if is_point element then [] else segments element)
        range_slice).

Definition is_all_comments (self : _IndentLine) (elements : ReflowSequenceType)
  : result bool :=
  block_segments <- _iter_block_segments self elements ;;
  Ok (negb (Nat.eqb (length block_segments) 0)
      && forallb (fun seg => is_type seg [comment]) block_segments).

Definition is_all_templates (self : _IndentLine) (elements : ReflowSequenceType)
  : result bool :=
  block_segments <- _iter_block_segments self elements ;;
  Ok (negb (Nat.eqb (length block_segments) 0)
      && forallb (fun seg => is_type seg [placeholder; template_loop]) block_segments).

Definition desired_indent_units (self : _IndentLine) (forced_indents : list Z)
  : result Z :=
  first <- py_nth (line_indent_points self) 0 ;;
  let relevant_untaken_indents :=
    if nonzero (indent_trough first)
    then filter
           (fun i => (i <=? line_initial_indent_balance self
                            - (indent_impulse first - indent_trough first))%Z)
           (untaken_indents first)
    else untaken_indents first in
  Ok (line_initial_indent_balance self
      - Z.of_nat (length relevant_untaken_indents)
      + Z.of_nat (length forced_indents))%Z.

(** ** The crawl *)

Record crawl_state : Type := mkCrawl {
  st_last_line_break_idx : option nat;
  st_indent_balance : Z;
  st_untaken_indents : list Z
}.

Definition crawl_init : crawl_state := mkCrawl None 0%Z [].

(** [indent_balance + i + 1 for i in range(0, indent_impulse)]. *)
Definition opened_indents (indent_balance indent_impulse : Z) : list Z :=
  map (fun i => (indent_balance + Z.of_nat i + 1)%Z) (seq 0 (Z.to_nat indent_impulse)).

(** [elements[idx + 1].segments[0].is_type("end_of_file")]. *)
Definition next_is_end_of_file (elements : ReflowSequenceType) (i : nat)
  : result bool :=
  nxt <- py_nth elements (S i) ;;
  seg <- py_nth (segments nxt) 0 ;;
  Ok (is_type seg [end_of_file]).

(** One pass of the loop body for a point: what is yielded (if anything) and
    the values of the three loop variables afterwards. *)
Definition crawl_point (elements : ReflowSequenceType) (i : nat)
  (segs : list RawSegment) (st : crawl_state)
  : result (option _IndentPoint * crawl_state) :=
  let '(impulse, trough) := get_indent_impulse segs in
  let point lb :=
    mkIndentPoint i impulse trough (st_indent_balance st)
      (st_last_line_break_idx st) lb (st_untaken_indents st) in
  ' (yielded, llb, untaken) <-
    (if in_class_types newline (ReflowPoint segs)
        && negb (option_nat_eqb (Some i) (st_last_line_break_idx st))
     then Ok (Some (point true), Some i, st_untaken_indents st)
     else if nonzero impulse || nonzero trough || Nat.eqb i 0
     then Ok (Some (point false), st_last_line_break_idx st,
              st_untaken_indents st ++ opened_indents (st_indent_balance st) impulse)
     else
       eof <- next_is_end_of_file elements i ;;
       if eof
       then Ok (Some (point true), st_last_line_break_idx st, st_untaken_indents st)
       else Ok (None, st_last_line_break_idx st, st_untaken_indents st)) ;;
  let indent_balance := (st_indent_balance st + impulse)%Z in
  Ok (yielded,
      mkCrawl llb indent_balance
        (filter (fun x => (x <=? indent_balance)%Z) untaken)).

(** The loop body for any element: blocks leave the state alone. *)
Definition crawl_step (elements : ReflowSequenceType) (i : nat)
  (elem : ReflowElement) (st : crawl_state)
  : result (option _IndentPoint * crawl_state) :=
  match elem with
  | ReflowPoint segs => crawl_point elements i segs st
  | ReflowBlock _ => Ok (None, st)
  end.

Definition opt_cons {A : Type} (o : option A) (l : list A) : list A :=
  match o with Some a => a :: l | None => l end.

(** The generator: the points yielded in order, and the exception that ends
    the iteration early if one is raised. *)
Fixpoint crawl_loop (elements : ReflowSequenceType) (i : nat)
  (rest : ReflowSequenceType) (st : crawl_state)
  : list _IndentPoint * option exn :=
  match rest with
  | [] => ([], None)
  | elem :: rest' =>
      match crawl_step elements i elem st with
      | Raise e => ([], Some e)
      | Ok (yielded, st') =>
          let '(more, err) := crawl_loop elements (S i) rest' st' in
          (opt_cons yielded more, err)
      end
  end.

Definition _crawl_indent_points (elements : ReflowSequenceType)
  : list _IndentPoint * option exn :=
  crawl_loop elements 0 elements crawl_init.

(** The states of the loop variables after each iteration. *)
Fixpoint crawl_states (elements : ReflowSequenceType) (i : nat)
  (rest : ReflowSequenceType) (st : crawl_state) : list crawl_state :=
  match rest with
  | [] => []
  | elem :: rest' =>
      match crawl_step elements i elem st with
      | Raise _ => []
      | Ok (_, st') => st' :: crawl_states elements (S i) rest' st'
      end
  end.

(** The impulse of an element (a block has none) and the running sum of the
    impulses of a run of elements. *)
Definition impulse_of (e : ReflowElement) : Z :=
  match e with
  | ReflowPoint segs => fst (get_indent_impulse segs)
  | ReflowBlock _ => 0%Z
  end.

Definition impulse_sum (l : ReflowSequenceType) : Z :=
  fold_right (fun e acc => (impulse_of e + acc)%Z) 0%Z l.

(** ** Line grouping *)

Fixpoint map_line_loop (points : list _IndentPoint) (lines : list _IndentLine)
  (point_buffer : list _IndentPoint)
  : result (list _IndentLine * list _IndentPoint) :=
  match points with
  | [] => Ok (lines, point_buffer)
  | indent_point :: points' =>
      let point_buffer := point_buffer ++ [indent_point] in
      if negb (is_line_break indent_point)
      then map_line_loop points' lines point_buffer
      else
        line <- from_points point_buffer ;;
        map_line_loop points' (lines ++ [line]) [indent_point]
  end.

Definition _map_line_buffers (elements : ReflowSequenceType)
  : result (list _IndentLine) :=
  let '(points, err) := _crawl_indent_points elements in
  ' (lines, point_buffer) <- map_line_loop points [] [] ;;
  match err with
  | Some e => Raise e
  | None =>
      if (1 <? length point_buffer)%nat
      then line <- from_points point_buffer ;; Ok (lines ++ [line])
      else Ok lines
  end.

(** ** Template reconciliation *)

Definition set_line_balance (lines : list _IndentLine) (i : nat) (v : Z)
  : list _IndentLine :=
  match nth_error lines i with
  | Some line => py_set lines i (mkIndentLine v (line_indent_points line))
  | None => lines
  end.

(** [grouped[uuid].append(idx)] on an insertion-ordered [defaultdict(list)]. *)
Fixpoint grouped_append (grouped : list (nat * list nat)) (uuid : nat) (i : nat)
  : list (nat * list nat) :=
  match grouped with
  | [] => [(uuid, [i])]
  | (k, v) :: rest =>
      if Nat.eqb k uuid then (k, v ++ [i]) :: rest
      else (k, v) :: grouped_append rest uuid i
  end.

Fixpoint group_templated_lines (lines : list _IndentLine)
  (elements : ReflowSequenceType) (i : nat) (grouped : list (nat * list nat))
  : result (list (nat * list nat)) :=
  match lines with
  | [] => Ok grouped
  | line :: rest =>
      templ <- is_all_templates line elements ;;
      if templ
      then
        _ <- assert (existsb (Nat.eqb (length (line_indent_points line))) [1; 2]%nat) ;;
        last <- py_last (line_indent_points line) ;;
        first <- py_nth (line_indent_points line) 0 ;;
        _ <- assert (existsb (Z.eqb (Z.of_nat (idx last) - Z.of_nat (idx first)))
                       [0; 2]%Z) ;;
        elem <- py_get elements (Z.of_nat (idx last) - 1) ;;
        segment <- py_nth (segments elem) 0 ;;
        _ <- assert (is_type segment [placeholder; template_loop]) ;;
        match block_uuid segment with
        | None => Raise AssertionError
        | Some uuid =>
            group_templated_lines rest elements (S i) (grouped_append grouped uuid i)
        end
      else group_templated_lines rest elements (S i) grouped
  end.

(** The balances one line can reach by walking its first point's indent
    markers backward and forward from the line's balance. *)
Definition template_steps (elements : ReflowSequenceType) (line : _IndentLine)
  : result (list Z) :=
  first <- py_nth (line_indent_points line) 0 ;;
  elem <- py_nth elements (idx first) ;;
  let walk (sign : Z) (segs : list RawSegment) :=
    snd (fold_left
           (fun (acc : Z * list Z) seg =>
              let '(indent_balance, steps) := acc in
              let indent_balance :=
                if is_type seg [indent]
                then (indent_balance + sign * indent_val seg)%Z
                else indent_balance in
              (indent_balance, steps ++ [indent_balance]))
           segs (line_initial_indent_balance line, [])) in
  Ok (walk (-1)%Z (rev (segments elem)) ++ walk 1%Z (segments elem)).

Fixpoint mapM {A B : Type} (f : A -> result B) (l : list A) : result (list B) :=
  match l with
  | [] => Ok []
  | a :: t => b <- f a ;; bs <- mapM f t ;; Ok (b :: bs)
  end.

(** [min(...)] of a sequence of ints. *)
Definition py_min (l : list Z) : result Z :=
  match l with
  | [] => Raise (ValueError "min() arg is an empty sequence")
  | a :: t => Ok (fold_left Z.min t a)
  end.

Definition mem_Z (x : Z) (l : list Z) : bool := existsb (Z.eqb x) l.

(** [set.intersection( *options )]. *)
Definition set_intersection (options : list (list Z)) : result (list Z) :=
  match options with
  | [] => Raise (TypeError "intersection needs an argument")
  | o :: rest =>
      Ok (fold_left (fun acc o' => filter (fun x => mem_Z x o') acc) rest o)
  end.

(** [len(set(balances)) == 1]. *)
Definition all_same_balance (balances : list Z) : bool :=
  Nat.eqb (length (nodup Z.eq_dec balances)) 1.

(** The body of the loop over [grouped.keys()] for one group. *)
Definition revise_group (elements : ReflowSequenceType) (lines : list _IndentLine)
  (group_lines : list nat) : result (list _IndentLine) :=
  members <- mapM (py_nth lines) group_lines ;;
  if all_same_balance (map line_initial_indent_balance members)
  then Ok lines
  else
    options <- mapM (template_steps elements) members ;;
    first_line_idx <- py_nth group_lines 0 ;;
    last_line_idx <- py_last group_lines ;;
    limit_indent <-
      py_min (map line_initial_indent_balance
                (py_slice lines (first_line_idx + 1) last_line_idx)) ;;
    overlap <- set_intersection options ;;
    let overlap := filter (fun i => (i <=? limit_indent - 1)%Z) overlap in
    ' (best_indent, lines) <-
      (match overlap with
       | _ :: _ => best <- py_min overlap ;; Ok (best, lines)
       | [] =>
           best <- py_min (map line_initial_indent_balance members) ;;
           let lines :=
             fold_left
               (fun (ls : list _IndentLine) i =>
                  if existsb (Nat.eqb i) group_lines then ls
                  else match nth_error ls i with
                       | Some l => set_line_balance ls i
                                     (line_initial_indent_balance l - 1)%Z
                       | None => ls
                       end)
               (seq (first_line_idx + 1) (last_line_idx - (first_line_idx + 1)))
               lines in
           Ok (best, lines)
       end) ;;
    Ok (fold_left (fun ls i => set_line_balance ls i best_indent) group_lines lines).

Fixpoint revise_groups (elements : ReflowSequenceType) (lines : list _IndentLine)
  (groups : list (nat * list nat)) : result (list _IndentLine) :=
  match groups with
  | [] => Ok lines
  | (_, group_lines) :: rest =>
      lines <- revise_group elements lines group_lines ;;
      revise_groups elements lines rest
  end.

Definition _revise_templated_lines (lines : list _IndentLine)
  (elements : ReflowSequenceType) : result (list _IndentLine) :=
  grouped <- group_templated_lines lines elements 0 [] ;;
  revise_groups elements lines grouped.

(** ** Comment reconciliation *)

Fixpoint revise_comment_loop (elements : ReflowSequenceType)
  (todo : list _IndentLine) (i : nat) (lines : list _IndentLine)
  (comment_line_buffer : list nat) : result (list _IndentLine * list nat) :=
  match todo with
  | [] => Ok (lines, comment_line_buffer)
  | _ :: todo' =>
      line <- py_nth lines i ;;
      comm <- is_all_comments line elements ;;
      if comm
      then revise_comment_loop elements todo' (S i) lines (comment_line_buffer ++ [i])
      else
        let lines :=
          fold_left
            (fun ls c => set_line_balance ls c (line_initial_indent_balance line))
            comment_line_buffer lines in
        revise_comment_loop elements todo' (S i) lines []
  end.

Definition _revise_comment_lines (lines : list _IndentLine)
  (elements : ReflowSequenceType) : result (list _IndentLine) :=
  ' (lines, comment_line_buffer) <- revise_comment_loop elements lines 0 lines [] ;;
  Ok (fold_left (fun ls c => set_line_balance ls c 0%Z) comment_line_buffer lines).

Definition construct_single_indent (indent_unit : string) (tab_space_size : nat)
  : result string :=
  if String.eqb indent_unit "tab" then Ok (String (ascii_of_nat 9) EmptyString)
  else if String.eqb indent_unit "space" then Ok (str_repeat " " tab_space_size)
  else Raise SQLFluffUserError.

(** ** Per-line evaluation

    [ReflowPoint.get_indent] and [ReflowPoint.indent_to] live in elements.py,
    which is not under src/: they are parameters of the development. *)

Section Reflow.

Variable get_indent : list RawSegment -> option string.
Variable indent_to :
  list RawSegment -> string -> RawSegment -> list LintFix * ReflowElement.

Definition point_get_indent (e : ReflowElement) : result (option string) :=
  match e with
  | ReflowPoint segs => Ok (get_indent segs)
  | ReflowBlock _ => Raise AttributeError
  end.

(** [elements[i].segments[0]]. *)
Definition first_segment (elements : ReflowSequenceType) (i : nat)
  : result RawSegment :=
  e <- py_nth elements i ;; py_nth (segments e) 0.

(** [e.indent_to(desired_indent, before=...)]: the method is looked up on [e]
    before the argument [before] is evaluated. *)
Definition point_indent_to (e : ReflowElement) (desired_indent : string)
  (before : result RawSegment) : result (list LintFix * ReflowElement) :=
  match e with
  | ReflowPoint segs => b <- before ;; Ok (indent_to segs desired_indent b)
  | ReflowBlock _ => Raise AttributeError
  end.

(** [elements[i].segments[0].pos_marker.working_line_no], an argument of the
    logging calls, evaluated before the call. *)
Definition working_line_no (elements : ReflowSequenceType) (i : nat)
  : result nat :=
  seg <- first_segment elements i ;;
  match pos_marker seg with
  | Some p => Ok p
  | None => Raise AttributeError
  end.

(** [target_point = elements[i]; new_fixes, new_point = target_point.indent_to(
    desired_indent, before=elements[i + 1].segments[0]); elements[i] = new_point;
    fixes += new_fixes]. *)
Definition force_indent_at (elements : ReflowSequenceType) (fixes : list LintFix)
  (i : nat) (desired_indent : string)
  : result (ReflowSequenceType * list LintFix) :=
  target_point <- py_nth elements i ;;
  ' (new_fixes, new_point) <-
    point_indent_to target_point desired_indent (first_segment elements (S i)) ;;
  Ok (py_set elements i new_point, fixes ++ new_fixes).

(** The [for ip in indent_points: ... break] search of the way up: the
    bindings of [target_point_idx] and [desired_indent] it leaves, if any. *)
Definition way_up_search (indent_points : list _IndentPoint) (closing_trough : Z)
  (single_indent : string) : option (nat * string) :=
  match find (fun ip => (closing_indent_balance ip =? closing_trough)%Z) indent_points with
  | Some ip =>
      Some (idx ip,
            str_mul (closing_indent_balance ip - Z.of_nat (length (untaken_indents ip)))
              single_indent)
  | None => None
  end.

Fixpoint remove_first (x : Z) (l : list Z) : list Z :=
  match l with
  | [] => []
  | h :: t => if (h =? x)%Z then t else h :: remove_first x t
  end.

(** [for i in forced_indents[:]: if i > closing_balance: forced_indents.remove(i)]. *)
Definition drop_forced_above (closing_balance : Z) (forced_indents : list Z) : list Z :=
  fold_left
    (fun acc i => if (i >? closing_balance)%Z then remove_first i acc else acc)
    forced_indents forced_indents.

(** The loop of the way down over [indent_points[:-1]]. *)
Fixpoint way_down_loop (single_indent : string) (forced_indents : list Z)
  (ips : list _IndentPoint) (elements : ReflowSequenceType) (fixes : list LintFix)
  : result (ReflowSequenceType * list LintFix) :=
  match ips with
  | [] => Ok (elements, fixes)
  | ip :: rest =>
      if is_line_break ip || (indent_impulse ip >=? 0)%Z
      then way_down_loop single_indent forced_indents rest elements fixes
      else if mem_Z (initial_indent_balance ip) (untaken_indents ip)
              && negb (mem_Z (initial_indent_balance ip) forced_indents)
      then way_down_loop single_indent forced_indents rest elements fixes
      else
        let desired_indent :=
          str_mul (closing_indent_balance ip
                   - Z.of_nat (length (untaken_indents ip))
                   + Z.of_nat (length forced_indents))%Z single_indent in
        _ <- working_line_no elements (S (idx ip)) ;;
        ' (elements, fixes) <- force_indent_at elements fixes (idx ip) desired_indent ;;
        way_down_loop single_indent forced_indents rest elements fixes
  end.

(** The way up, once [closing_trough in indent_points[-1].untaken_indents]
    holds.  When the search binds nothing, the [else] clause of the loop builds
    a [NotImplementedError] without raising it, and the next statement reads
    [target_point_idx]. *)
Definition way_up (single_indent : string) (indent_points : list _IndentPoint)
  (closing_trough closing_balance : Z) (elements : ReflowSequenceType)
  (fixes : list LintFix) (forced_indents : list Z)
  : result (ReflowSequenceType * list LintFix * list Z) :=
  match way_up_search indent_points closing_trough single_indent with
  | None => Raise (UnboundLocalError "target_point_idx")
  | Some (target_point_idx, desired_indent) =>
      _ <- working_line_no elements (S target_point_idx) ;;
      ' (elements, fixes) <-
        force_indent_at elements fixes target_point_idx desired_indent ;;
      Ok (elements, fixes, forced_indents ++ [closing_balance])
  end.

(** The balance the last point of the line dips to: its trough if it has one,
    else its closing balance. *)
Definition closing_trough_of (last : _IndentPoint) : Z :=
  if nonzero (indent_trough last)
  then (initial_indent_balance last + indent_trough last)%Z
  else (initial_indent_balance last + indent_impulse last)%Z.

(** Returns the fixes of the line together with the mutated [elements] and
    [forced_indents]. *)
Definition _evaluate_indent_point_buffer (elements : ReflowSequenceType)
  (indent_line : _IndentLine) (single_indent : string) (forced_indents : list Z)
  : result (ReflowSequenceType * list Z * list LintFix) :=
  let indent_points := line_indent_points indent_line in
  first <- py_nth indent_points 0 ;;
  _ <- working_line_no elements (S (idx first)) ;;
  let starting_balance := line_initial_indent_balance indent_line in
  last <- py_last indent_points ;;
  current_indent <-
    (match last_line_break_idx last with
     | Some (S k) => e <- py_nth elements (S k) ;; point_get_indent e
     | _ =>
         e0 <- py_nth elements 0 ;;
         if is_point e0 then Ok (Some (elem_raw e0)) else Ok (Some EmptyString)
     end) ;;
  units <- desired_indent_units indent_line forced_indents ;;
  let desired_starting_indent := str_mul units single_indent in
  initial_point <- py_nth elements (idx first) ;;
  let closing_balance := closing_indent_balance last in
  ' (elements, fixes) <-
    (if match current_indent with
        | Some c => negb (String.eqb c desired_starting_indent)
        | None => true
        end
     then
       ' (new_fixes, new_point) <-
         (if Nat.eqb (idx first) 0 && negb (is_line_break first)
          then Ok (map LintFix_delete (segments initial_point), ReflowPoint [])
          else
            point_indent_to initial_point desired_starting_indent
              (first_segment elements (S (idx first)))) ;;
       Ok (py_set elements (idx first) new_point, new_fixes)
     else Ok (elements, [])) ;;
  ' (elements, fixes, forced_indents) <-
    (if (closing_balance >? starting_balance)%Z
     then
       let closing_trough := closing_trough_of last in
       if mem_Z closing_trough (untaken_indents last)
       then way_up single_indent indent_points closing_trough closing_balance
              elements fixes forced_indents
       else Ok (elements, fixes, forced_indents)
     else if (closing_balance <? starting_balance)%Z
     then
       ' (elements, fixes) <-
         way_down_loop single_indent forced_indents (removelast indent_points)
           elements fixes ;;
       Ok (elements, fixes, forced_indents)
     else Ok (elements, fixes, forced_indents)) ;;
  Ok (elements, drop_forced_above closing_balance forced_indents, fixes).

Fixpoint evaluate_lines (single_indent : string) (lines : list _IndentLine)
  (elem_buffer : ReflowSequenceType) (forced_indents : list Z) (fixes : list LintFix)
  : result (ReflowSequenceType * list LintFix) :=
  match lines with
  | [] => Ok (elem_buffer, fixes)
  | line :: rest =>
      ' (elem_buffer, forced_indents, new_fixes) <-
        _evaluate_indent_point_buffer elem_buffer line single_indent forced_indents ;;
      evaluate_lines single_indent rest elem_buffer forced_indents (fixes ++ new_fixes)
  end.

Definition lint_indent_points (elements : ReflowSequenceType) (single_indent : string)
  : result (ReflowSequenceType * list LintFix) :=
  lines <- _map_line_buffers elements ;;
  lines <- _revise_templated_lines lines elements ;;
  lines <- _revise_comment_lines lines elements ;;
  evaluate_lines single_indent lines elements [] [].

(** ** sequence.py: ReflowSequence

    [get_consumed_whitespace], [ReflowPoint.respace_point] (elements.py),
    [rebreak_sequence] (rebreak.py) and [lint_line_length] are not under src/
    and are parameters.  [ReflowBlock.from_config] is called on one segment
    throughout and gives the block of that segment; the depth map only feeds
    the block's depth info and is left out. *)

Variable get_consumed_whitespace : RawSegment -> option string.
Variable respace_point :
  list RawSegment -> option ReflowElement -> option ReflowElement ->
  BaseSegment -> list LintFix -> bool -> list LintFix * ReflowElement.
Variable rebreak_sequence :
  ReflowSequenceType -> BaseSegment -> result (ReflowSequenceType * list LintFix).
Variable lint_line_length :
  ReflowSequenceType -> BaseSegment -> string -> nat ->
  result (ReflowSequenceType * list LintFix).

Definition _validate_reflow_sequence (elems : ReflowSequenceType) : result unit :=
  match elems with
  | [] => Raise AssertionError
  | e0 :: _ =>
      let odd_is_point := is_point e0 in
      _ <- assert (forallb (fun e => Bool.eqb (is_point e) odd_is_point)
                     (stride2 elems)) ;;
      assert (forallb (fun e => Bool.eqb (is_point e) (negb odd_is_point))
                (stride2_from1 elems))
  end.

(** [ReflowSequence.__init__]; [None] is the default of [embodied_fixes]. *)
Definition ReflowSequence_init (elems : ReflowSequenceType) (root : BaseSegment)
  (config : ReflowConfig) (fixes : option (list LintFix)) : result ReflowSequence :=
  _ <- _validate_reflow_sequence elems ;;
  Ok (mkSequence elems root config
        match fixes with Some l => l | None => [] end).

Definition get_fixes (self : ReflowSequence) : list LintFix := embodied_fixes self.

Definition is_space_char (c : ascii) : bool :=
  let n := nat_of_ascii c in
  ((9 <=? n) && (n <=? 13) || (28 <=? n) && (n <=? 32))%nat.

Fixpoint all_space (s : string) : bool :=
  match s with
  | EmptyString => true
  | String c t => is_space_char c && all_space t
  end.

(** [str.isspace()] on ASCII text. *)
Definition isspace (s : string) : bool :=
  match s with
  | EmptyString => false
  | _ => all_space s
  end.

Definition is_spacing_segment (seg : RawSegment) : bool :=
  is_type seg [whitespace; newline; indent]
  || isspace match get_consumed_whitespace seg with
             | Some w => w
             | None => EmptyString
             end.

Definition nonempty {A : Type} (l : list A) : bool :=
  match l with [] => false | _ => true end.

Fixpoint elements_from_loop (segs : list RawSegment) (elem_buff : ReflowSequenceType)
  (seg_buff : list RawSegment) : ReflowSequenceType * list RawSegment :=
  match segs with
  | [] => (elem_buff, seg_buff)
  | seg :: rest =>
      if is_spacing_segment seg
      then elements_from_loop rest elem_buff (seg_buff ++ [seg])
      else
        let elem_buff :=
          if nonempty elem_buff || nonempty seg_buff
          then elem_buff ++ [ReflowPoint seg_buff]
          else elem_buff in
        elements_from_loop rest (elem_buff ++ [ReflowBlock [seg]]) []
  end.

Definition _elements_from_raw_segments (segs : list RawSegment) : ReflowSequenceType :=
  let '(elem_buff, seg_buff) := elements_from_loop segs [] [] in
  if nonempty seg_buff then elem_buff ++ [ReflowPoint seg_buff] else elem_buff.

Fixpoint find_element_idx_from (target : RawSegment) (elems : ReflowSequenceType)
  (i : nat) : result nat :=
  match elems with
  | [] => Raise (ValueError "Target not found in ReflowSequence.")
  | elem :: rest =>
      if existsb (fun s => RawSegment_eqb s target) (segments elem) then Ok i
      else find_element_idx_from target rest (S i)
  end.

Definition _find_element_idx_with (self : ReflowSequence) (target : RawSegment)
  : result nat :=
  find_element_idx_from target (elements self) 0.

Definition without (self : ReflowSequence) (target : RawSegment)
  : result ReflowSequence :=
  removal_idx <- _find_element_idx_with self target ;;
  if Nat.eqb removal_idx 0
     || Z.eqb (Z.of_nat removal_idx) (Z.of_nat (length (elements self)) - 1)
  then Raise (NotImplementedError "Unexpected removal at one end of a ReflowSequence.")
  else
    removed <- py_nth (elements self) removal_idx ;;
    if is_point removed
    then Raise (NotImplementedError "Not expected removal of whitespace in ReflowSequence.")
    else
      prev <- py_get (elements self) (Z.of_nat removal_idx - 1) ;;
      next <- py_nth (elements self) (removal_idx + 1) ;;
      let merged_point := ReflowPoint (segments prev ++ segments next) in
      ReflowSequence_init
        (py_slice (elements self) 0 (removal_idx - 1)
         ++ [merged_point]
         ++ skipn (removal_idx + 2) (elements self))
        (root_segment self) (reflow_config self)
        (Some [LintFix_delete target]).

Definition insert (self : ReflowSequence) (insertion target : RawSegment)
  (pos : string) : result ReflowSequence :=
  _ <- assert (String.eqb pos "before" || String.eqb pos "after") ;;
  target_idx <- _find_element_idx_with self target ;;
  if is_type insertion [whitespace; indent; newline]
  then Raise (ValueError "insert does not support direct insertion of spacing elements")
  else
    let new_block := ReflowBlock [insertion] in
    anchor <- py_nth (elements self) target_idx ;;
    if is_point anchor
    then Raise (NotImplementedError "Can't insert relative to whitespace for now.")
    else if String.eqb pos "before"
    then
      ReflowSequence_init
        (firstn target_idx (elements self)
         ++ [new_block; ReflowPoint []]
         ++ skipn target_idx (elements self))
        (root_segment self) (reflow_config self)
        (Some [LintFix_create_before target [insertion]])
    else if String.eqb pos "after"
    then
      ReflowSequence_init
        (firstn (target_idx + 1) (elements self)
         ++ [ReflowPoint []; new_block]
         ++ skipn (target_idx + 1) (elements self))
        (root_segment self) (reflow_config self)
        (Some [LintFix_create_after target [insertion]])
    else Raise (ValueError "Unexpected value for ReflowSequence.insert(pos)").

Definition replace (self : ReflowSequence) (target : BaseSegment)
  (edit : list BaseSegment) : result ReflowSequence :=
  let replace_fix := LintFix_replace target edit in
  let target_raws := raw_segments target in
  _ <- assert (nonempty target_raws) ;;
  let edit_raws := flat_map raw_segments edit in
  let current_raws := flat_map segments (elements self) in
  first_raw <- py_nth target_raws 0 ;;
  last_raw <- py_last target_raws ;;
  start_idx <- py_index RawSegment_eqb first_raw current_raws ;;
  last_idx <- py_index RawSegment_eqb last_raw current_raws ;;
  ReflowSequence_init
    (_elements_from_raw_segments
       (firstn start_idx current_raws ++ edit_raws ++ skipn (last_idx + 1) current_raws))
    (root_segment self) (reflow_config self)
    (Some [replace_fix]).

(** One iteration of the loop of [respace] over
    [_iter_points_with_constraints]. *)
Definition respace_loop_body (root : BaseSegment) (strip_newlines : bool)
  (filter_ : string) (point : list RawSegment) (pre post : option ReflowElement)
  (fixes : list LintFix) (new_elements : ReflowSequenceType)
  : list LintFix * ReflowSequenceType :=
  let '(new_fixes, new_point) :=
    respace_point point pre post root fixes strip_newlines in
  let is_break :=
    existsb (fun seg => is_type seg [newline]) (segments new_point)
    || match post with
       | Some p => in_class_types end_of_file p
       | None => false
       end in
  let reset :=
    if is_break then String.eqb filter_ "inline" else String.eqb filter_ "newline" in
  let new_point := if reset then ReflowPoint point else new_point in
  let fixes := if reset then fixes else new_fixes in
  let new_elements :=
    match pre with
    | Some p =>
        match rev new_elements with
        | [] => new_elements ++ [p]
        | lst :: _ =>
            if negb (ReflowElement_eqb lst p) then new_elements ++ [p]
            else new_elements
        end
    | None => new_elements
    end in
  let new_elements := new_elements ++ [new_point] in
  let new_elements :=
    match post with
    | Some p => new_elements ++ [p]
    | None => new_elements
    end in
  (fixes, new_elements).

Fixpoint respace_loop (root : BaseSegment) (strip_newlines : bool) (filter_ : string)
  (all : ReflowSequenceType) (i : nat) (rest : ReflowSequenceType)
  (fixes : list LintFix) (new_elements : ReflowSequenceType)
  : list LintFix * ReflowSequenceType :=
  match rest with
  | [] => (fixes, new_elements)
  | elem :: rest' =>
      match elem with
      | ReflowPoint segs =>
          let pre := match i with O => None | S j => nth_error all j end in
          let post := nth_error all (S i) in
          let '(fixes, new_elements) :=
            respace_loop_body root strip_newlines filter_ segs pre post
              fixes new_elements in
          respace_loop root strip_newlines filter_ all (S i) rest' fixes new_elements
      | ReflowBlock _ =>
          respace_loop root strip_newlines filter_ all (S i) rest' fixes new_elements
      end
  end.

Definition respace (self : ReflowSequence) (strip_newlines : bool) (filter_ : string)
  : result ReflowSequence :=
  _ <- assert (existsb (String.eqb filter_) ["all"; "newline"; "inline"]%string) ;;
  let '(fixes, new_elements) :=
    respace_loop (root_segment self) strip_newlines filter_ (elements self) 0
      (elements self) (embodied_fixes self) [] in
  ReflowSequence_init new_elements (root_segment self) (reflow_config self)
    (Some fixes).

Definition guard_message : string :=
  "rebreak cannot currently handle pre-existing embodied fixes.".

Definition rebreak (self : ReflowSequence) : result ReflowSequence :=
  if nonempty (embodied_fixes self)
  then Raise (NotImplementedError guard_message)
  else
    ' (elem_buff, fixes) <- rebreak_sequence (elements self) (root_segment self) ;;
    ReflowSequence_init elem_buff (root_segment self) (reflow_config self)
      (Some fixes).

(** Binding of the keyword arguments of a call: each keyword has to name a
    parameter of the callee, else the call raises [TypeError]. *)
Definition bind_keywords (params keywords : list string) : result unit :=
  match find (fun k => negb (existsb (String.eqb k) params)) keywords with
  | Some k => Raise (TypeError k)
  | None => Ok tt
  end.

(** The signature of [lint_indent_points] in reindent.py. *)
Definition lint_indent_points_params : list string :=
  ["elements"; "single_indent"]%string.

Definition reindent (self : ReflowSequence) : result ReflowSequence :=
  if nonempty (embodied_fixes self)
  then Raise (NotImplementedError guard_message)
  else
    single_indent <-
      construct_single_indent (indent_unit (reflow_config self))
        (tab_space_size (reflow_config self)) ;;
    _ <- bind_keywords lint_indent_points_params
           ["single_indent"; "skip_indentation_in"]%string ;;
    ' (elems, indent_fixes) <- lint_indent_points (elements self) single_indent ;;
    ' (elems, length_fixes) <-
      lint_line_length elems (root_segment self) single_indent
        (max_line_length (reflow_config self)) ;;
    ReflowSequence_init elems (root_segment self) (reflow_config self)
      (Some (indent_fixes ++ length_fixes)).

(** The exceptions of a failed lookup: an index out of range, or an attribute
    read on an object that lacks it. *)
Definition lookup_error (e : exn) : Prop := e = IndexError \/ e = AttributeError.

(** The six mutators of a sequence, as calls. *)
Inductive mutator : Type :=
| Without (target : RawSegment)
| Insert (insertion target : RawSegment) (pos : string)
| Replace (target : BaseSegment) (edit : list BaseSegment)
| Respace (strip_newlines : bool) (filter_ : string)
| Rebreak
| Reindent.

Definition run_mutator (m : mutator) (self : ReflowSequence) : result ReflowSequence :=
  match m with
  | Without target => without self target
  | Insert insertion target pos => insert self insertion target pos
  | Replace target edit => replace self target edit
  | Respace strip_newlines filter_ => respace self strip_newlines filter_
  | Rebreak => rebreak self
  | Reindent => reindent self
  end.

(** Elements alternate in kind starting from a point ([true]) or a block. *)
Fixpoint alternates_from (first_is_point : bool) (l : ReflowSequenceType) : Prop :=
  match l with
  | [] => True
  | e :: t => is_point e = first_is_point /\ alternates_from (negb first_is_point) t
  end.

(** The buffer of the element builder is empty or alternates and ends in a
    block (the next free index is a point's). *)
Definition builder_invariant (elem_buff : ReflowSequenceType) : Prop :=
  elem_buff = []
  \/ exists k, alternates_from k elem_buff
               /\ xorb k (Nat.odd (length elem_buff)) = true.

(** The post-emission bookkeeping as the spec words it: after every emission
    the balance grows by the impulse, untaken values above the new balance are
    gone, and a positive impulse registers each newly opened step. *)
Definition registers_after_every_emission : Prop :=
  forall elems i segs st ip st',
    crawl_point elems i segs st = Ok (Some ip, st') ->
    st_indent_balance st' = (st_indent_balance st + indent_impulse ip)%Z
    /\ (forall x, In x (st_untaken_indents st') -> (x <= st_indent_balance st')%Z)
    /\ ((0 < indent_impulse ip)%Z ->
        forall k, (1 <= k <= indent_impulse ip)%Z ->
                  In (st_indent_balance st + k)%Z (st_untaken_indents st')).

(** ** Example data *)

Definition seg_code (text : string) (pos : nat) : RawSegment :=
  mkSeg code text 0 None (Some pos).
Definition seg_newline (pos : nat) : RawSegment :=
  mkSeg newline (String (ascii_of_nat 10) EmptyString) 0 None (Some pos).
Definition seg_space (text : string) (pos : nat) : RawSegment :=
  mkSeg whitespace text 0 None (Some pos).
Definition seg_indent (pos : nat) : RawSegment :=
  mkSeg indent EmptyString 1 None (Some pos).
Definition seg_dedent (pos : nat) : RawSegment :=
  mkSeg indent EmptyString (-1) None (Some pos).
Definition seg_eof (pos : nat) : RawSegment :=
  mkSeg end_of_file EmptyString 0 None (Some pos).
Definition seg_template (uuid pos : nat) : RawSegment :=
  mkSeg placeholder "{% for %}" 0 (Some uuid) (Some pos).

(** [SELECT], then a point holding an indent marker and a newline, then [1]:
    the indent is taken by the line break. *)
Definition elems_taken_indent : ReflowSequenceType :=
  [ ReflowBlock [seg_code "SELECT" 0];
    ReflowPoint [seg_indent 1; seg_newline 2];
    ReflowBlock [seg_code "1" 3] ].

(** [SELECT], an indent marker without a newline, [a], a point with a
    dedent marker, [FROM]. *)
Definition elems_untaken_indent : ReflowSequenceType :=
  [ ReflowBlock [seg_code "SELECT" 0];
    ReflowPoint [seg_indent 1; seg_space " " 2];
    ReflowBlock [seg_code "a" 3];
    ReflowPoint [seg_dedent 4; seg_newline 5];
    ReflowBlock [seg_code "FROM" 6] ].

Definition example_root : BaseSegment := mkBase [].
Definition example_config : ReflowConfig := mkConfig "space" 4 80 [].

Definition seg_a : RawSegment := seg_code "a" 0.
Definition seg_b : RawSegment := seg_code "b" 2.
Definition seg_c : RawSegment := seg_code "c" 4.
Definition seg_d : RawSegment := seg_code "d" 6.
Definition seg_e : RawSegment := seg_code "e" 8.
Definition seg_x : RawSegment := mkSeg code "x" 0 None None.

(** [a b c d e], single spaces in between. *)
Definition elems_abcde : ReflowSequenceType :=
  [ ReflowBlock [seg_a]; ReflowPoint [seg_space " " 1];
    ReflowBlock [seg_b]; ReflowPoint [seg_space " " 3];
    ReflowBlock [seg_c]; ReflowPoint [seg_space " " 5];
    ReflowBlock [seg_d]; ReflowPoint [seg_space " " 7];
    ReflowBlock [seg_e] ].

Definition seq_abcde : ReflowSequence :=
  mkSequence elems_abcde example_root example_config [].

(** [SELECT], newline and one indent of four spaces, [1], newline, end of
    file: a file that is indented as the pass wants it. *)
Definition elems_indented : ReflowSequenceType :=
  [ ReflowBlock [seg_code "SELECT" 0];
    ReflowPoint [seg_indent 1; seg_newline 2; seg_space "    " 3];
    ReflowBlock [seg_code "1" 4];
    ReflowPoint [seg_dedent 5; seg_newline 6];
    ReflowBlock [seg_eof 7] ].

(** A line that opens two indents without a break and ends in a point
    holding a dedent marker, an indent marker and the newline. *)
Definition elems_way_up : ReflowSequenceType :=
  [ ReflowBlock [seg_code "SELECT" 0];
    ReflowPoint [seg_newline 1];
    ReflowBlock [seg_code "a" 2];
    ReflowPoint [seg_indent 3; seg_indent 4];
    ReflowBlock [seg_code "b" 5];
    ReflowPoint [seg_dedent 6; seg_indent 7; seg_newline 8];
    ReflowBlock [seg_code "c" 9] ].

Definition line_way_up : _IndentLine :=
  mkIndentLine 0
    [ mkIndentPoint 1 0 0 0 None true [];
      mkIndentPoint 3 2 0 0 (Some 1%nat) false [];
      mkIndentPoint 5 0 (-1) 2 (Some 1%nat) true [1%Z; 2%Z] ].

(** A template block tag on the first line, followed by an indent marker, and
    its closing tag on the second line. *)
Definition elems_template_pair : ReflowSequenceType :=
  [ ReflowBlock [seg_template 7 0];
    ReflowPoint [seg_newline 1; seg_indent 2];
    ReflowBlock [seg_template 7 3];
    ReflowPoint [seg_newline 4];
    ReflowBlock [seg_eof 5] ].

Definition lines_template_pair : list _IndentLine :=
  [ mkIndentLine 0 [mkIndentPoint 1 1 0 0 None true []];
    mkIndentLine 1 [mkIndentPoint 1 1 0 0 None true [];
                    mkIndentPoint 3 0 0 1 (Some 1%nat) true []] ].

(** Stand-ins for the parameters, used to run the definitions on the
    examples: the indent of a point is the whitespace after its last newline,
    and [indent_to] rewrites that whitespace. *)
Definition example_get_indent (segs : list RawSegment) : option string :=
  if existsb (fun s => is_type s [newline]) segs
  then Some (fold_left
               (fun acc s =>
                  if is_type s [newline] then EmptyString
                  else if is_type s [whitespace] then (acc ++ raw s)%string
                  else acc)
               segs EmptyString)
  else None.

Definition example_indent_to (segs : list RawSegment) (desired_indent : string)
  (before : RawSegment) : list LintFix * ReflowElement :=
  let ws := mkSeg whitespace desired_indent 0 None None in
  let kept := filter (fun s => negb (is_type s [whitespace])) segs in
  ([LintFix_create_before before [ws]],
   ReflowPoint (if existsb (fun s => is_type s [newline]) segs
                then kept ++ [ws]
                else kept ++ [mkSeg newline (String (ascii_of_nat 10) EmptyString)
                                0 None None; ws])).

Definition example_lint_line_length (elems : ReflowSequenceType) (root : BaseSegment)
  (single_indent : string) (line_length_limit : nat)
  : result (ReflowSequenceType * list LintFix) := Ok (elems, []).

Definition example_rebreak_sequence (elems : ReflowSequenceType) (root : BaseSegment)
  : result (ReflowSequenceType * list LintFix) := Ok (elems, []).

(** ** Further example data *)

Definition seg_comment (text : string) (pos : nat) : RawSegment :=
  mkSeg comment text 0 None (Some pos).

(** [SELECT], a newline with an indent marker, [1], a newline with a dedent
    marker, end of file: the second line is not indented yet. *)
Definition elems_unindented : ReflowSequenceType :=
  [ ReflowBlock [seg_code "SELECT" 0];
    ReflowPoint [seg_indent 1; seg_newline 2];
    ReflowBlock [seg_code "1" 3];
    ReflowPoint [seg_dedent 4; seg_newline 5];
    ReflowBlock [seg_eof 6] ].

(** A comment-only line between [SELECT] and the indented [a]. *)
Definition elems_comment_line : ReflowSequenceType :=
  [ ReflowBlock [seg_code "SELECT" 0];
    ReflowPoint [seg_newline 1];
    ReflowBlock [seg_comment "-- c" 2];
    ReflowPoint [seg_indent 3; seg_newline 4];
    ReflowBlock [seg_code "a" 5];
    ReflowPoint [seg_dedent 6; seg_newline 7];
    ReflowBlock [seg_eof 8] ].

(** The two tags of a template block with a line of code in between; an
    indent marker follows the opening tag's newline. *)
Definition elems_template_block : ReflowSequenceType :=
  [ ReflowBlock [seg_code "SELECT" 0];
    ReflowPoint [seg_newline 1];
    ReflowBlock [seg_template 7 2];
    ReflowPoint [seg_newline 3; seg_indent 4];
    ReflowBlock [seg_code "a" 5];
    ReflowPoint [seg_newline 6];
    ReflowBlock [seg_template 7 7];
    ReflowPoint [seg_dedent 8; seg_newline 9];
    ReflowBlock [seg_eof 10] ].

(** A sequence that ends in a point of one space. *)
Definition elems_trailing_point : ReflowSequenceType :=
  [ ReflowBlock [seg_a]; ReflowPoint [seg_space " " 1] ].

(** The tree of [a b c d e]. *)
Definition root_abcde : BaseSegment := mkBase (flat_map segments elems_abcde).

(** [SELECT], then on the next line two spaces, [a], a space and [b]. *)
Definition root_indented_line : BaseSegment :=
  mkBase [ seg_code "SELECT" 0; seg_newline 1; seg_space "  " 2;
           seg_code "a" 3; seg_space " " 4; seg_code "b" 5 ].

Definition example_is_code (seg : RawSegment) : bool :=
  SegType_eqb (seg_type seg) code.

Definition example_respace_point (segs : list RawSegment)
  (prev_block next_block : option ReflowElement) (root : BaseSegment)
  (fixes : list LintFix) (strip_newlines : bool) : list LintFix * ReflowElement :=
  (fixes, ReflowPoint segs).

(** The lines of the examples, as [_map_line_buffers] groups them. *)
Definition lines_of (elems : ReflowSequenceType) : list _IndentLine :=
  match _map_line_buffers elems with
  | Ok lines => lines
  | Raise _ => []
  end.

Definition lines_way_up : list _IndentLine :=
  Eval vm_compute in lines_of elems_way_up.
Definition lines_unindented : list _IndentLine :=
  Eval vm_compute in lines_of elems_unindented.
Definition lines_comment_line : list _IndentLine :=
  Eval vm_compute in lines_of elems_comment_line.
Definition lines_template_block : list _IndentLine :=
  Eval vm_compute in lines_of elems_template_block.

(** ** sequence.py: rendering and constructors

    [ReflowConfig.from_fluff_config] and the [DepthMap] constructors are not
    under src/: the constructors below take the reflow configuration itself.
    [is_code] is an attribute of raw segments set by the parser. *)

Variable is_code : RawSegment -> bool.

(** [segs] rendered: the concatenation of the raw texts. *)
Definition raws_text (segs : list RawSegment) : string :=
  fold_right (fun s acc => (raw s ++ acc)%string) EmptyString segs.

Definition get_raw (self : ReflowSequence) : string :=
  fold_right (fun elem acc => (elem_raw elem ++ acc)%string) EmptyString
    (elements self).

Definition from_raw_segments (segs : list RawSegment) (root : BaseSegment)
  (config : ReflowConfig) : result ReflowSequence :=
  ReflowSequence_init (_elements_from_raw_segments segs) root config None.

Definition from_root (root : BaseSegment) (config : ReflowConfig)
  : result ReflowSequence :=
  from_raw_segments (raw_segments root) root config.

(** [l[a:b]] with Python's treatment of negative and oversized bounds. *)
Definition py_slice_Z {A : Type} (l : list A) (a b : Z) : list A :=
  let n := Z.of_nat (length l) in
  let norm x := if (x <? 0)%Z then Z.max 0 (n + x) else Z.min x n in
  py_slice l (Z.to_nat (norm a)) (Z.to_nat (norm b)).

(** [for pre_idx in range(i, -1, -1): if all_raws[pre_idx].is_code: break]:
    the value of [pre_idx] after the loop, for [i >= 0]. *)
Fixpoint hunt_backward (all_raws : list RawSegment) (i : nat) : result nat :=
  seg <- py_nth all_raws i ;;
  if is_code seg then Ok i
  else match i with
       | O => Ok O
       | S j => hunt_backward all_raws j
       end.

(** [for post_idx in range(i, len(all_raws)): if all_raws[post_idx].is_code:
    break] over the raws from [i] on: the value of [post_idx] after the loop,
    [cur] being its value so far. *)
Fixpoint hunt_forward (rest : list RawSegment) (i cur : nat) : nat :=
  match rest with
  | [] => cur
  | seg :: rest' => if is_code seg then i else hunt_forward rest' (S i) i
  end.

Definition from_around_target (target_segment root : BaseSegment)
  (config : ReflowConfig) (sides : string) : result ReflowSequence :=
  let all_raws := raw_segments root in
  let target_raws := raw_segments target_segment in
  _ <- assert (nonempty target_raws) ;;
  first_raw <- py_nth target_raws 0 ;;
  pre_idx <- py_index RawSegment_eqb first_raw all_raws ;;
  last_raw <- py_last target_raws ;;
  last_idx <- py_index RawSegment_eqb last_raw all_raws ;;
  let post_idx := (last_idx + 1)%nat in
  pre_idx <-
    (if existsb (String.eqb sides) ["both"; "before"]%string
     then match pre_idx with
          | O => Ok (-1)%Z
          | S j => k <- hunt_backward all_raws j ;; Ok (Z.of_nat k)
          end
     else Ok (Z.of_nat pre_idx)) ;;
  let post_idx :=
    if existsb (String.eqb sides) ["both"; "after"]%string
    then (hunt_forward (skipn post_idx all_raws) post_idx post_idx + 1)%nat
    else post_idx in
  from_raw_segments (py_slice_Z all_raws pre_idx (Z.of_nat post_idx)) root config.

(** The shape of what the element builder emits: a block of one segment that
    is not spacing, or a point of spacing segments. *)
Definition well_shaped (e : ReflowElement) : Prop :=
  match e with
  | ReflowBlock [seg] => is_spacing_segment seg = false
  | ReflowBlock _ => False
  | ReflowPoint segs => forallb is_spacing_segment segs = true
  end.

(** ** reindent.py: the indent of a segment's line *)

(** The loop of [deduce_line_indent] over [raw_segments[seg_idx::-1]]. *)
Fixpoint deduce_scan (backward : list RawSegment) (indent_seg : option RawSegment)
  : option RawSegment :=
  match backward with
  | [] => indent_seg
  | seg :: rest =>
      if is_code seg then deduce_scan rest None
      else if is_type seg [whitespace] then deduce_scan rest (Some seg)
      else if is_type seg [newline] then indent_seg
      else deduce_scan rest indent_seg
  end.

Definition deduce_line_indent (raw_segment : RawSegment) (root : BaseSegment)
  : result string :=
  seg_idx <- py_index RawSegment_eqb raw_segment (raw_segments root) ;;
  match deduce_scan (rev (firstn (S seg_idx) (raw_segments root))) None with
  | Some indent_seg => Ok (raw indent_seg)
  | None => Ok EmptyString
  end.

(** [l[-1]] as an option. *)
Definition last_error {A : Type} (l : list A) : option A := hd_error (rev l).

(** Line [k] of [lines] is comment-only. *)
Definition comment_only_at (lines : list _IndentLine) (elems : ReflowSequenceType)
  (k : nat) : Prop :=
  exists l, nth_error lines k = Some l /\ is_all_comments l elems = Ok true.

(** Every comment-only line of [cur] below [bound] that is followed, after
    comment-only lines only, by a line [j < bound] of [lines] that is not
    comment-only carries the balance of that line. *)
Definition comments_anchored (lines cur : list _IndentLine)
  (elems : ReflowSequenceType) (bound : nat) : Prop :=
  forall c j lj l,
    (c < j)%nat -> (j < bound)%nat ->
    (forall k, (c <= k < j)%nat -> comment_only_at lines elems k) ->
    nth_error lines j = Some lj -> is_all_comments lj elems = Ok false ->
    nth_error cur c = Some l ->
    line_initial_indent_balance l = line_initial_indent_balance lj.

(** ** Facts about the error monad and the list primitives *)

Lemma bind_Ok_inv {A B : Type} (m : result A) (k : A -> result B) (b : B) :
  bind m k = Ok b -> exists a, m = Ok a /\ k a = Ok b.
Proof. destruct m as [a|e]; simpl; intros H; [eauto | discriminate]. Qed.

Ltac inv_bind H :=
  let a := fresh "a" in
  let Ha := fresh "Hm" in
  apply bind_Ok_inv in H; destruct H as (a & Ha & H).

(** ** The crawl: balance and untaken indents *)

Lemma crawl_point_inv elems i segs st y st' :
  crawl_point elems i segs st = Ok (y, st') ->
  st_indent_balance st' = (st_indent_balance st + fst (get_indent_impulse segs))%Z
  /\ (exists untaken,
        st_untaken_indents st'
        = filter (fun x => (x <=? st_indent_balance st')%Z) untaken
        /\ (untaken = st_untaken_indents st
            \/ (exists ip, y = Some ip /\ is_line_break ip = false)
               /\ untaken = st_untaken_indents st
                            ++ opened_indents (st_indent_balance st)
                                 (fst (get_indent_impulse segs)))
        /\ (forall ip, y = Some ip -> is_line_break ip = true ->
            untaken = st_untaken_indents st)
        /\ (forall ip, y = Some ip -> is_line_break ip = false ->
            untaken = st_untaken_indents st
                      ++ opened_indents (st_indent_balance st)
                           (fst (get_indent_impulse segs))))
  /\ (forall ip, y = Some ip ->
        idx ip = i
        /\ indent_impulse ip = fst (get_indent_impulse segs)
        /\ indent_trough ip = snd (get_indent_impulse segs)
        /\ initial_indent_balance ip = st_indent_balance st
        /\ untaken_indents ip = st_untaken_indents st).
Proof.
  unfold crawl_point.
  destruct (get_indent_impulse segs) as [impulse trough]; cbn [fst snd].
  intros H.
  destruct (in_class_types newline (ReflowPoint segs)
            && negb (option_nat_eqb (Some i) (st_last_line_break_idx st))).
  - cbn in H. injection H as <- <-. cbn.
    split; [reflexivity|]. split.
    + eexists; split; [reflexivity|]. split; [now left|].
      split; intros ip [= <-]; cbn; [reflexivity | discriminate].
    + intros ip [= <-]; cbn; auto.
  - destruct (nonzero impulse || nonzero trough || Nat.eqb i 0).
    + cbn in H. injection H as <- <-. cbn.
      split; [reflexivity|]. split.
      * eexists; split; [reflexivity|]. split.
        -- right. split; [eexists; split; reflexivity | reflexivity].
        -- split; intros ip [= <-]; cbn; [discriminate | reflexivity].
      * intros ip [= <-]; cbn; auto.
    + destruct (next_is_end_of_file elems i) as [[|]|e]; cbn in H;
        try discriminate; injection H as <- <-; cbn.
      * split; [reflexivity|]. split.
        -- eexists; split; [reflexivity|]. split; [now left|].
           split; intros ip [= <-]; cbn; [reflexivity | discriminate].
        -- intros ip [= <-]; cbn; auto.
      * split; [reflexivity|]. split.
        -- eexists; split; [reflexivity|]. split; [now left|].
           split; intros ip; discriminate.
        -- intros ip; discriminate.
Qed.

Lemma impulse_sum_app l1 l2 :
  impulse_sum (l1 ++ l2) = (impulse_sum l1 + impulse_sum l2)%Z.
Proof.
  induction l1 as [|e l1 IH]; cbn; [reflexivity|].
  fold (impulse_sum (l1 ++ l2)) (impulse_sum l1). lia.
Qed.

Lemma firstn_length_app {A : Type} (l1 l2 : list A) :
  firstn (length l1) (l1 ++ l2) = l1.
Proof.
  induction l1 as [|a l1 IH]; cbn; [now destruct l2 | now rewrite IH].
Qed.

Lemma firstn_S_length_app {A : Type} (l1 : list A) (a : A) (l2 : list A) :
  firstn (S (length l1)) (l1 ++ a :: l2) = l1 ++ [a].
Proof.
  replace (l1 ++ a :: l2) with ((l1 ++ [a]) ++ l2) by now rewrite <- app_assoc.
  replace (S (length l1)) with (length (l1 ++ [a])).
  - apply firstn_length_app.
  - rewrite length_app; cbn; lia.
Qed.

Lemma crawl_step_balance elems i elem st y st' :
  crawl_step elems i elem st = Ok (y, st') ->
  st_indent_balance st' = (st_indent_balance st + impulse_of elem)%Z.
Proof.
  destruct elem as [segs|segs]; cbn [crawl_step impulse_of].
  - intros H. now apply crawl_point_inv in H.
  - intros [= <- <-]. lia.
Qed.

Lemma crawl_step_yield elems i elem st ip st' :
  crawl_step elems i elem st = Ok (Some ip, st') ->
  idx ip = i
  /\ indent_impulse ip = impulse_of elem
  /\ initial_indent_balance ip = st_indent_balance st.
Proof.
  destruct elem as [segs|segs]; cbn [crawl_step impulse_of]; [|discriminate].
  intros H. apply crawl_point_inv in H.
  destruct H as (_ & _ & H). destruct (H ip eq_refl) as (? & ? & ? & ? & ?).
  auto.
Qed.

Lemma crawl_loop_balance elems :
  forall rest pre st,
    elems = pre ++ rest ->
    st_indent_balance st = impulse_sum pre ->
    forall ip,
      In ip (fst (crawl_loop elems (length pre) rest st)) ->
      initial_indent_balance ip = impulse_sum (firstn (idx ip) elems)
      /\ closing_indent_balance ip = impulse_sum (firstn (S (idx ip)) elems).
Proof.
  induction rest as [|elem rest IH]; intros pre st Helems Hbal ip Hin.
  - cbn in Hin. contradiction.
  - cbn [crawl_loop] in Hin.
    destruct (crawl_step elems (length pre) elem st) as [[y st']|e] eqn:Hstep;
      [|cbn in Hin; contradiction].
    assert (Hnext : forall ip',
               In ip' (fst (crawl_loop elems (S (length pre)) rest st')) ->
               initial_indent_balance ip' = impulse_sum (firstn (idx ip') elems)
               /\ closing_indent_balance ip'
                  = impulse_sum (firstn (S (idx ip')) elems)).
    { intros ip' Hin'.
      apply (IH (pre ++ [elem]) st').
      - now rewrite <- app_assoc.
      - rewrite (crawl_step_balance _ _ _ _ Hstep), Hbal, impulse_sum_app.
        cbn. lia.
      - rewrite length_app; cbn [length].
        now replace (length pre + 1)%nat with (S (length pre)) by lia. }
    destruct (crawl_loop elems (S (length pre)) rest st') as [more err].
    cbn [fst] in *.
    destruct y as [ip0|]; cbn [opt_cons] in Hin; [|now apply Hnext].
    destruct Hin as [<-|Hin]; [|now apply Hnext].
    destruct (crawl_step_yield _ _ _ _ Hstep) as (Hidx & Himp & Hini).
    unfold closing_indent_balance. rewrite Hidx, Himp, Hini, Hbal, Helems.
    rewrite firstn_length_app, firstn_S_length_app, impulse_sum_app.
    cbn. split; lia.
Qed.

(** C5. Balance conservation: the balance the crawl records in the indent
    point of index [i] (its [initial_indent_balance]) is the sum of the impulses
    of the elements before [i], counted from 0, and the balance after the point
    (its [closing_indent_balance]) is that balance plus the point's own impulse,
    the sum up to and including [i]. *)
Theorem crawl_balance_conservation (elems : ReflowSequenceType) (ip : _IndentPoint) :
  In ip (fst (_crawl_indent_points elems)) ->
  initial_indent_balance ip = impulse_sum (firstn (idx ip) elems)
  /\ closing_indent_balance ip
     = (initial_indent_balance ip + indent_impulse ip)%Z
  /\ closing_indent_balance ip = impulse_sum (firstn (S (idx ip)) elems).
Proof.
  intros Hin.
  destruct (crawl_loop_balance (elems := elems) elems [] crawl_init eq_refl eq_refl
              ip Hin) as [H1 H2].
  repeat split; assumption || reflexivity.
Qed.

Lemma crawl_step_pruned elems i elem st y st' :
  crawl_step elems i elem st = Ok (y, st') ->
  Forall (fun x => (x <= st_indent_balance st)%Z) (st_untaken_indents st) ->
  Forall (fun x => (x <= st_indent_balance st')%Z) (st_untaken_indents st').
Proof.
  destruct elem as [segs|segs]; cbn [crawl_step].
  - intros H _. apply crawl_point_inv in H.
    destruct H as (_ & (untaken & -> & _) & _).
    apply Forall_forall. intros x Hx.
    apply filter_In in Hx. destruct Hx as [_ Hx]. lia.
  - now intros [= <- <-].
Qed.

Lemma crawl_states_pruned elems :
  forall rest i st,
    Forall (fun x => (x <= st_indent_balance st)%Z) (st_untaken_indents st) ->
    Forall (fun s =>
              Forall (fun x => (x <= st_indent_balance s)%Z) (st_untaken_indents s))
      (crawl_states elems i rest st).
Proof.
  induction rest as [|elem rest IH]; intros i st Hst; cbn [crawl_states].
  - constructor.
  - destruct (crawl_step elems i elem st) as [[y st']|e] eqn:Hstep;
      [|constructor].
    pose proof (crawl_step_pruned _ _ _ _ Hstep Hst) as Hst'.
    constructor; [exact Hst' | now apply IH].
Qed.

(** C6. Pruning: in every state the crawl reaches, that is immediately after
    the balance and the untaken-indent tuple have been updated for an element,
    no untaken-indent value exceeds the updated balance. *)
Theorem crawl_untaken_pruned (elems : ReflowSequenceType) (st : crawl_state) (x : Z) :
  In st (crawl_states elems 0 elems crawl_init) ->
  In x (st_untaken_indents st) ->
  (x <= st_indent_balance st)%Z.
Proof.
  intros Hst Hx.
  pose proof (crawl_states_pruned elems elems 0 crawl_init (Forall_nil _)) as H.
  rewrite Forall_forall in H. specialize (H st Hst).
  rewrite Forall_forall in H. now apply H.
Qed.

Lemma opened_indents_In balance impulse k :
  (1 <= k <= impulse)%Z -> In (balance + k)%Z (opened_indents balance impulse).
Proof.
  intros Hk. unfold opened_indents. apply in_map_iff.
  exists (Z.to_nat (k - 1)). split; [lia|].
  apply in_seq. lia.
Qed.

(** C7, amended. After every emission the balance is incremented by the
    point's impulse and the untaken values above the new balance are pruned
    (the others are kept).  The steps a positive impulse opens, (old balance)+1
    through (old balance)+impulse, are registered as untaken when the emitted
    point is not a line break; an emission flagged as a line break registers
    nothing, its untaken tuple is the pruned old one. *)
Theorem crawl_emission_update (elems : ReflowSequenceType) (i : nat)
  (segs : list RawSegment) (st st' : crawl_state) (ip : _IndentPoint) :
  crawl_point elems i segs st = Ok (Some ip, st') ->
  st_indent_balance st' = (st_indent_balance st + indent_impulse ip)%Z
  /\ (forall x, In x (st_untaken_indents st') -> (x <= st_indent_balance st')%Z)
  /\ (forall x, In x (st_untaken_indents st) -> (x <= st_indent_balance st')%Z ->
                In x (st_untaken_indents st'))
  /\ (is_line_break ip = false ->
      forall k, (1 <= k <= indent_impulse ip)%Z ->
                In (st_indent_balance st + k)%Z (st_untaken_indents st'))
  /\ (is_line_break ip = true ->
      st_untaken_indents st'
      = filter (fun x => (x <=? st_indent_balance st')%Z) (st_untaken_indents st)).
Proof.
  intros H. apply crawl_point_inv in H.
  destruct H as (Hbal & (untaken & Hunt & Hcase & Hlb & Hnlb) & Hip).
  destruct (Hip ip eq_refl) as (_ & Himp & _ & _ & _).
  rewrite Himp. split; [exact Hbal|]. split; [|split; [|split]].
  - intros x Hx. rewrite Hunt in Hx. apply filter_In in Hx. lia.
  - intros x Hx Hle. rewrite Hunt. apply filter_In. split; [|lia].
    destruct Hcase as [->|[_ ->]]; [assumption | apply in_or_app; now left].
  - intros Hfalse k Hk. rewrite Hunt, (Hnlb ip eq_refl Hfalse).
    apply filter_In. split; [|lia].
    apply in_or_app. right. now apply opened_indents_In.
  - intros Htrue. now rewrite Hunt, (Hlb ip eq_refl Htrue).
Qed.

(** ** Sequences: validation and alternation *)

Lemma stride2_cons {A : Type} (a : A) (t : list A) :
  stride2 (a :: t) = a :: stride2 (tl t).
Proof. destruct t; reflexivity. Qed.

Lemma strides_alternate :
  forall l k,
    forallb (fun e => Bool.eqb (is_point e) k) (stride2 l) = true ->
    forallb (fun e => Bool.eqb (is_point e) (negb k)) (stride2_from1 l) = true ->
    alternates_from k l.
Proof.
  induction l as [|e t IH]; intros k Hodd Heven; cbn [alternates_from]; [exact I|].
  rewrite stride2_cons in Hodd. cbn [forallb] in Hodd.
  apply andb_true_iff in Hodd. destruct Hodd as [He Hrest].
  split; [now apply eqb_prop|].
  apply IH; [exact Heven|].
  unfold stride2_from1. now rewrite negb_involutive.
Qed.

Lemma assert_Ok_inv b u : assert b = Ok u -> b = true.
Proof. destruct b; [reflexivity | discriminate]. Qed.

Lemma validate_alternates l :
  _validate_reflow_sequence l = Ok tt ->
  exists k, alternates_from k l /\ l <> [].
Proof.
  destruct l as [|e0 t]; [discriminate|].
  unfold _validate_reflow_sequence. intros H.
  inv_bind H. apply assert_Ok_inv in Hm, H.
  exists (is_point e0). split; [now apply strides_alternate | discriminate].
Qed.

Lemma alternates_from_adjacent :
  forall l k i a b,
    alternates_from k l ->
    nth_error l i = Some a -> nth_error l (S i) = Some b ->
    is_point a = negb (is_point b).
Proof.
  induction l as [|e t IH]; intros k i a b Halt Ha Hb.
  - destruct i; discriminate.
  - destruct Halt as [He Ht]. destruct i as [|i].
    + cbn in Ha, Hb. injection Ha as <-.
      destruct t as [|e' t']; [discriminate|]. cbn in Hb. injection Hb as <-.
      destruct Ht as [He' _]. rewrite He, He'. now rewrite negb_involutive.
    + cbn in Ha. change (nth_error (e :: t) (S (S i))) with (nth_error t (S i)) in Hb.
      exact (IH _ _ _ _ Ht Ha Hb).
Qed.

Lemma init_inv elems root config fixes s :
  ReflowSequence_init elems root config fixes = Ok s ->
  _validate_reflow_sequence elems = Ok tt
  /\ s = mkSequence elems root config match fixes with Some l => l | None => [] end.
Proof.
  unfold ReflowSequence_init. intros H. inv_bind H. destruct a.
  injection H as <-. split; [assumption | reflexivity].
Qed.

(** Every mutator that returns hands its elements to the constructor. *)
Lemma run_mutator_validated m self s' :
  run_mutator m self = Ok s' ->
  _validate_reflow_sequence (elements s') = Ok tt.
Proof.
  destruct m; cbn [run_mutator].
  - unfold without. intros H. inv_bind H.
    destruct (_ || _); [discriminate|].
    inv_bind H. destruct (is_point a0); [discriminate|].
    inv_bind H. inv_bind H.
    apply init_inv in H. destruct H as [Hv ->]. exact Hv.
  - unfold insert. intros H. inv_bind H. inv_bind H.
    destruct (is_type insertion _); [discriminate|].
    inv_bind H. destruct (is_point a1); [discriminate|].
    destruct (String.eqb pos "before").
    + apply init_inv in H. destruct H as [Hv ->]. exact Hv.
    + destruct (String.eqb pos "after"); [|discriminate].
      apply init_inv in H. destruct H as [Hv ->]. exact Hv.
  - unfold replace. intros H. do 5 inv_bind H.
    apply init_inv in H. destruct H as [Hv ->]. exact Hv.
  - unfold respace. intros H. inv_bind H.
    destruct (respace_loop _ _ _ _ _ _ _ _) as [fixes new_elements].
    apply init_inv in H. destruct H as [Hv ->]. exact Hv.
  - unfold rebreak. intros H.
    destruct (nonempty _); [discriminate|].
    inv_bind H. destruct a as [elem_buff fixes].
    apply init_inv in H. destruct H as [Hv ->]. exact Hv.
  - unfold reindent. intros H.
    destruct (nonempty _); [discriminate|].
    do 3 inv_bind H. destruct a1 as [elems1 indent_fixes].
    inv_bind H. destruct a1 as [elems2 length_fixes].
    apply init_inv in H. destruct H as [Hv ->]. exact Hv.
Qed.

(** C4. Alternation: in every sequence a mutator ([without], [insert],
    [replace], [respace], [rebreak], [reindent]) returns, the element array is
    not empty and strictly alternates points and blocks: any two adjacent
    elements are of different kinds. *)
Theorem mutators_alternate (m : mutator) (self s' : ReflowSequence) :
  run_mutator m self = Ok s' ->
  elements s' <> []
  /\ forall i a b,
      nth_error (elements s') i = Some a ->
      nth_error (elements s') (S i) = Some b ->
      is_point a = negb (is_point b).
Proof.
  intros H. apply run_mutator_validated, validate_alternates in H.
  destruct H as (k & Halt & Hne). split; [exact Hne|].
  intros i a b. now apply alternates_from_adjacent with (k := k).
Qed.

(** ** Sequences: the mutators keep the alternation by construction *)

Lemma alternates_from_nth :
  forall l k,
    alternates_from k l
    <-> (forall i e, nth_error l i = Some e -> is_point e = xorb k (Nat.odd i)).
Proof.
  induction l as [|e t IH]; intros k; cbn [alternates_from].
  - split; [intros _ [|i] e'; discriminate | trivial].
  - split.
    + intros [He Ht] [|i] e' Hnth; cbn in Hnth.
      * injection Hnth as <-. now rewrite He, xorb_false_r.
      * rewrite (proj1 (IH (negb k)) Ht i e' Hnth).
        rewrite Nat.odd_succ, <- Nat.negb_odd.
        now destruct k, (Nat.odd i).
    + intros H. split.
      * rewrite (H 0%nat e eq_refl). apply xorb_false_r.
      * apply IH. intros i e' Hnth.
        rewrite (H (S i) e' Hnth), Nat.odd_succ, <- Nat.negb_odd.
        now destruct k, (Nat.odd i).
Qed.

Lemma alternates_strides :
  forall l k,
    alternates_from k l ->
    forallb (fun e => Bool.eqb (is_point e) k) (stride2 l) = true
    /\ forallb (fun e => Bool.eqb (is_point e) (negb k)) (stride2_from1 l) = true.
Proof.
  induction l as [|e t IH]; intros k Halt; [split; reflexivity|].
  destruct Halt as [He Ht]. destruct (IH _ Ht) as [H1 H2].
  rewrite negb_involutive in H2.
  split; [|exact H1].
  rewrite stride2_cons. cbn [forallb]. apply andb_true_iff. split; [|exact H2].
  rewrite He. now destruct k.
Qed.

Lemma alternates_valid l k :
  alternates_from k l -> l <> [] -> _validate_reflow_sequence l = Ok tt.
Proof.
  intros Halt Hne. destruct l as [|e0 t]; [congruence|].
  assert (Hk : is_point e0 = k) by (destruct Halt; assumption).
  destruct (alternates_strides _ _ Halt) as [H1 H2].
  unfold _validate_reflow_sequence. rewrite Hk, H1. cbn [assert bind].
  now rewrite H2.
Qed.

Lemma py_get_pred {A : Type} (l : list A) (i : nat) (a : A) :
  (0 < i)%nat -> nth_error l (i - 1) = Some a ->
  py_get l (Z.of_nat i - 1) = Ok a.
Proof.
  intros Hi Hnth. unfold py_get.
  assert (Hlt : (i - 1 < length l)%nat)
    by (apply nth_error_Some; congruence).
  replace (Z.of_nat i - 1 <? 0)%Z with false by (symmetry; apply Z.ltb_ge; lia).
  replace ((0 <=? Z.of_nat i - 1)%Z && (Z.of_nat i - 1 <? Z.of_nat (length l))%Z)
    with true
    by (symmetry; apply andb_true_iff; split;
        [apply Z.leb_le | apply Z.ltb_lt]; lia).
  replace (Z.to_nat (Z.of_nat i - 1)) with (i - 1)%nat by lia.
  now rewrite Hnth.
Qed.

(** [without] on a validated sequence, for a target found in a block that is
    at neither end, does return: the merged point keeps the alternation, so the
    constructor's check passes. *)
Lemma without_succeeds self target i :
  _validate_reflow_sequence (elements self) = Ok tt ->
  _find_element_idx_with self target = Ok i ->
  (0 < i)%nat -> (i + 1 < length (elements self))%nat ->
  (forall e, nth_error (elements self) i = Some e -> is_point e = false) ->
  exists s', without self target = Ok s' /\ length (elements s') = (length (elements self) - 2)%nat.
Proof.
  intros Hvalid Hfind Hpos Hend Hblock.
  apply validate_alternates in Hvalid. destruct Hvalid as (k & Halt & _).
  pose proof (proj1 (alternates_from_nth _ _) Halt) as Hkind.
  destruct (nth_error (elements self) i) as [removed|] eqn:Hrem;
    [|apply nth_error_None in Hrem; lia].
  destruct (nth_error (elements self) (i - 1)) as [prev|] eqn:Hprev;
    [|apply nth_error_None in Hprev; lia].
  destruct (nth_error (elements self) (i + 1)) as [next|] eqn:Hnext;
    [|apply nth_error_None in Hnext; lia].
  assert (Hki : xorb k (Nat.odd i) = false).
  { rewrite <- (Hkind _ _ Hrem). now apply Hblock. }
  unfold without. rewrite Hfind; cbn [bind].
  replace (Nat.eqb i 0) with false by (symmetry; apply Nat.eqb_neq; lia).
  replace (Z.of_nat i =? Z.of_nat (length (elements self)) - 1)%Z with false
    by (symmetry; apply Z.eqb_neq; lia).
  cbn [orb]. unfold py_nth at 1. rewrite Hrem; cbn [bind].
  rewrite (Hblock _ eq_refl).
  rewrite (py_get_pred _ Hpos Hprev); cbn [bind].
  unfold py_nth. rewrite Hnext; cbn [bind].
  set (new := py_slice (elements self) 0 (i - 1)
              ++ [ReflowPoint (segments prev ++ segments next)]
              ++ skipn (i + 2) (elements self)).
  assert (Hlen1 : length (py_slice (elements self) 0 (i - 1)) = (i - 1)%nat).
  { unfold py_slice. cbn [skipn]. rewrite length_firstn. lia. }
  assert (Hnew : alternates_from k new).
  { apply alternates_from_nth. intros j e Hj. unfold new in Hj.
    destruct (Nat.lt_ge_cases j (i - 1)) as [Hlt|Hge].
    - rewrite nth_error_app1 in Hj by lia.
      unfold py_slice in Hj. cbn [skipn] in Hj.
      rewrite Nat.sub_0_r, nth_error_firstn in Hj.
      replace (j <? i - 1)%nat with true in Hj
        by (symmetry; apply Nat.ltb_lt; lia).
      now apply Hkind.
    - rewrite nth_error_app2 in Hj by lia. rewrite Hlen1 in Hj.
      destruct (j - (i - 1))%nat as [|d] eqn:Hd.
      + cbn in Hj. injection Hj as <-. cbn [is_point].
        replace j with (i - 1)%nat by lia.
        replace i with (S (i - 1)) in Hki by lia.
        rewrite Nat.odd_succ, <- Nat.negb_odd in Hki.
        now destruct k, (Nat.odd (i - 1)).
      + cbn [app nth_error] in Hj. rewrite nth_error_skipn in Hj.
        rewrite (Hkind _ _ Hj).
        replace (i + 2 + d)%nat with (S (S j)) by lia.
        rewrite (Nat.odd_succ (S j)), Nat.even_succ. reflexivity. }
  assert (Hne : new <> []).
  { unfold new. intros Habs. apply app_eq_nil in Habs.
    destruct Habs as [_ Habs]. discriminate. }
  unfold ReflowSequence_init. rewrite (@alternates_valid new k Hnew Hne); cbn [bind].
  eexists. split; [reflexivity|]. cbn [elements]. fold new. unfold new.
  rewrite !length_app, Hlen1, length_skipn. cbn [length]. lia.
Qed.

Lemma alternates_snoc :
  forall l k x,
    alternates_from k l ->
    is_point x = xorb k (Nat.odd (length l)) ->
    alternates_from k (l ++ [x]).
Proof.
  induction l as [|e t IH]; intros k x Halt Hx; cbn [app alternates_from].
  - split; [|exact I]. rewrite Hx. apply xorb_false_r.
  - destruct Halt as [He Ht]. split; [exact He|].
    apply IH; [exact Ht|].
    rewrite Hx. cbn [length]. rewrite Nat.odd_succ, <- Nat.negb_odd.
    now destruct k, (Nat.odd (length t)).
Qed.

Lemma elements_from_loop_invariant :
  forall segs elem_buff seg_buff,
    builder_invariant elem_buff ->
    builder_invariant (fst (elements_from_loop segs elem_buff seg_buff)).
Proof.
  induction segs as [|seg rest IH]; intros elem_buff seg_buff Hinv;
    cbn [elements_from_loop]; [exact Hinv|].
  destruct (is_spacing_segment seg); [now apply IH|].
  apply IH. right.
  destruct elem_buff as [|e0 elem_buff'] eqn:Hbuff.
  - destruct seg_buff as [|s0 sb]; cbn [nonempty orb app].
    + exists false. cbn. auto.
    + exists true. cbn. auto.
  - rewrite <- Hbuff in *.
    destruct Hinv as [Hnil|(k & Halt & Hlast)]; [congruence|].
    assert (Hne : nonempty elem_buff = true) by now rewrite Hbuff.
    rewrite Hne. cbn [orb]. exists k. split.
    + apply alternates_snoc; [apply alternates_snoc; [exact Halt|]|].
      * cbn [is_point]. now rewrite Hlast.
      * rewrite length_app. cbn [length is_point].
        replace (length elem_buff + 1)%nat with (S (length elem_buff)) by lia.
        rewrite Nat.odd_succ, <- Nat.negb_odd.
        now destruct k, (Nat.odd (length elem_buff)).
    + rewrite !length_app. cbn [length].
      replace (length elem_buff + 1 + 1)%nat with (S (S (length elem_buff))) by lia.
      now rewrite Nat.odd_succ, Nat.even_succ.
Qed.

(** The elements built from a run of raw segments alternate, whatever the
    segments are. *)
Lemma elements_from_raw_alternates segs :
  exists k, alternates_from k (_elements_from_raw_segments segs).
Proof.
  unfold _elements_from_raw_segments.
  pose proof (@elements_from_loop_invariant segs [] [] (or_introl eq_refl)) as Hinv.
  destruct (elements_from_loop segs [] []) as [elem_buff seg_buff].
  cbn [fst] in Hinv.
  destruct Hinv as [->|(k & Halt & Hlast)].
  - destruct seg_buff; cbn [nonempty app].
    + exists true. exact I.
    + exists true. cbn. auto.
  - exists k. destruct seg_buff; cbn [nonempty]; [exact Halt|].
    apply alternates_snoc; [exact Halt|]. cbn [is_point]. now rewrite Hlast.
Qed.

(** [replace] returns whenever its lookups succeed and the rebuilt element
    list is not empty: the constructor's check cannot fail on the builder's
    output. *)
Lemma replace_succeeds self target edit first_raw last_raw start_idx last_idx :
  py_nth (raw_segments target) 0 = Ok first_raw ->
  py_last (raw_segments target) = Ok last_raw ->
  py_index RawSegment_eqb first_raw (flat_map segments (elements self)) = Ok start_idx ->
  py_index RawSegment_eqb last_raw (flat_map segments (elements self)) = Ok last_idx ->
  _elements_from_raw_segments
    (firstn start_idx (flat_map segments (elements self))
     ++ flat_map raw_segments edit
     ++ skipn (last_idx + 1) (flat_map segments (elements self))) <> [] ->
  exists s', replace self target edit = Ok s'.
Proof.
  intros Hfirst Hlast Hstart Hend Hne.
  unfold replace.
  assert (Hraws : nonempty (raw_segments target) = true).
  { destruct (raw_segments target); [discriminate Hfirst | reflexivity]. }
  rewrite Hraws. cbn [assert bind].
  rewrite Hfirst, Hlast; cbn [bind]. rewrite Hstart, Hend; cbn [bind].
  destruct (elements_from_raw_alternates
              (firstn start_idx (flat_map segments (elements self))
               ++ flat_map raw_segments edit
               ++ skipn (last_idx + 1) (flat_map segments (elements self))))
    as [k Halt].
  unfold ReflowSequence_init.
  rewrite (@alternates_valid _ k Halt Hne). cbn [bind]. eauto.
Qed.

(** ** Sequences: the fix list of a mutator's result *)

Lemma without_fixes self target s' :
  without self target = Ok s' -> embodied_fixes s' = [LintFix_delete target].
Proof.
  unfold without. intros H. inv_bind H.
  destruct (_ || _); [discriminate|].
  inv_bind H. destruct (is_point a0); [discriminate|].
  inv_bind H. inv_bind H.
  apply init_inv in H. destruct H as [_ ->]. reflexivity.
Qed.

Lemma insert_fixes self insertion target pos s' :
  insert self insertion target pos = Ok s' ->
  embodied_fixes s' = [LintFix_create_before target [insertion]]
  \/ embodied_fixes s' = [LintFix_create_after target [insertion]].
Proof.
  unfold insert. intros H. inv_bind H. inv_bind H.
  destruct (is_type insertion _); [discriminate|].
  inv_bind H. destruct (is_point a1); [discriminate|].
  destruct (String.eqb pos "before").
  - apply init_inv in H. destruct H as [_ ->]. now left.
  - destruct (String.eqb pos "after"); [|discriminate].
    apply init_inv in H. destruct H as [_ ->]. now right.
Qed.

Lemma replace_fixes self target edit s' :
  replace self target edit = Ok s' ->
  embodied_fixes s' = [LintFix_replace target edit].
Proof.
  unfold replace. intros H. do 5 inv_bind H.
  apply init_inv in H. destruct H as [_ ->]. reflexivity.
Qed.

(** ** Sequences: the guard of [rebreak] and [reindent] *)

Lemma reindent_past_guard self :
  embodied_fixes self = [] ->
  reindent self = Raise SQLFluffUserError
  \/ reindent self = Raise (TypeError "skip_indentation_in").
Proof.
  intros Hfix. unfold reindent. rewrite Hfix. cbn [nonempty].
  unfold construct_single_indent.
  destruct (String.eqb _ "tab"); [right; reflexivity|].
  destruct (String.eqb _ "space"); [right; reflexivity | left; reflexivity].
Qed.

(** C8. On a sequence whose fix list is not empty, [rebreak] and [reindent]
    fail at once with the guard's [NotImplementedError], whatever the
    algorithms behind them are (they are not consulted).  On a sequence with
    an empty fix list [rebreak] is the call of [rebreak_sequence] followed by
    the constructor, and [reindent] does not fail with the guard's error. *)
Theorem rebreak_reindent_guard (self : ReflowSequence) :
  match embodied_fixes self with
  | _ :: _ =>
      rebreak self = Raise (NotImplementedError guard_message)
      /\ reindent self = Raise (NotImplementedError guard_message)
  | [] =>
      rebreak self
      = (' (elem_buff, fixes) <-
           rebreak_sequence (elements self) (root_segment self) ;;
         ReflowSequence_init elem_buff (root_segment self) (reflow_config self)
           (Some fixes))
      /\ reindent self <> Raise (NotImplementedError guard_message)
  end.
Proof.
  destruct (embodied_fixes self) as [|f fixes] eqn:Hfix.
  - split.
    + unfold rebreak. now rewrite Hfix.
    + destruct (reindent_past_guard self Hfix) as [-> | ->]; discriminate.
  - unfold rebreak, reindent. rewrite Hfix. split; reflexivity.
Qed.

(** ** Per-line evaluation: the way up *)

Lemma py_nth_raise {A : Type} (l : list A) i e : py_nth l i = Raise e -> lookup_error e.
Proof. unfold py_nth. destruct (nth_error l i); intros [= <-]. now left. Qed.

Lemma py_last_raise {A : Type} (l : list A) e : py_last l = Raise e -> lookup_error e.
Proof. unfold py_last. destruct (rev l); intros [= <-]. now left. Qed.

Lemma first_segment_raise elems i e : first_segment elems i = Raise e -> lookup_error e.
Proof.
  unfold first_segment. destruct (py_nth elems i) eqn:E; cbn [bind].
  - apply py_nth_raise.
  - intros [= <-]. now apply py_nth_raise in E.
Qed.

Lemma working_line_no_raise elems i e :
  working_line_no elems i = Raise e -> lookup_error e.
Proof.
  unfold working_line_no. destruct (first_segment elems i) as [seg|e'] eqn:E; cbn [bind].
  - destruct (pos_marker seg); intros [= <-]. now right.
  - intros [= <-]. now apply first_segment_raise in E.
Qed.

Lemma point_get_indent_raise el e : point_get_indent el = Raise e -> lookup_error e.
Proof. destruct el; cbn; intros [= <-]. now right. Qed.

Lemma point_indent_to_raise el d elems i e :
  point_indent_to el d (first_segment elems i) = Raise e -> lookup_error e.
Proof.
  destruct el; cbn [point_indent_to]; [|intros [= <-]; now right].
  destruct (first_segment elems i) eqn:E; cbn [bind]; [discriminate|].
  intros [= <-]. now apply first_segment_raise in E.
Qed.

Lemma desired_indent_units_raise line forced e :
  desired_indent_units line forced = Raise e -> lookup_error e.
Proof.
  unfold desired_indent_units.
  destruct (py_nth (line_indent_points line) 0) eqn:E; cbn [bind]; [discriminate|].
  intros [= <-]. now apply py_nth_raise in E.
Qed.

Lemma way_up_search_unfound indent_points closing_trough single_indent :
  (forall ip, In ip indent_points -> closing_indent_balance ip <> closing_trough) ->
  way_up_search indent_points closing_trough single_indent = None.
Proof.
  intros Hno. unfold way_up_search.
  destruct (find _ indent_points) as [ip|] eqn:Hfind; [|reflexivity].
  apply find_some in Hfind. destruct Hfind as [Hin Heq].
  apply Z.eqb_eq in Heq. now apply Hno in Hin.
Qed.

Lemma mem_Z_In x l : In x l -> mem_Z x l = true.
Proof.
  intros H. unfold mem_Z. apply existsb_exists. exists x. split; [exact H|].
  apply Z.eqb_refl.
Qed.

(** C9. When the closing balance of a line exceeds its starting balance and
    the closing trough is among the untaken indents of the line's last point,
    but no indent point of the line closes at that trough, the evaluation of
    the line does not return: it ends in an exception.  The exception is the
    [UnboundLocalError] of the statement that follows the search (the
    [NotImplementedError] of the search is built but not raised), unless one
    of the lookups before it has already failed. *)
Theorem way_up_unfound_raises (elems : ReflowSequenceType) (indent_line : _IndentLine)
  (single_indent : string) (forced_indents : list Z) (last : _IndentPoint) :
  py_last (line_indent_points indent_line) = Ok last ->
  (closing_indent_balance last > line_initial_indent_balance indent_line)%Z ->
  In (closing_trough_of last) (untaken_indents last) ->
  (forall ip, In ip (line_indent_points indent_line) ->
              closing_indent_balance ip <> closing_trough_of last) ->
  exists e,
    _evaluate_indent_point_buffer elems indent_line single_indent forced_indents
    = Raise e
    /\ (e = UnboundLocalError "target_point_idx" \/ lookup_error e).
Proof.
  intros Hlast Hup Huntaken Hunfound.
  unfold _evaluate_indent_point_buffer. rewrite Hlast.
  destruct (py_nth (line_indent_points indent_line) 0) as [first|e] eqn:E1; cbn [bind];
    [|eexists; split; [reflexivity | right; eapply py_nth_raise; eassumption]].
  destruct (working_line_no elems (S (idx first))) as [ln|e] eqn:E2; cbn [bind];
    [|eexists; split; [reflexivity | right; eapply working_line_no_raise; eassumption]].
  match goal with
  | |- context [bind ?m _] =>
      destruct m as [current_indent|e] eqn:E3; cbn [bind]
  end.
  2:{ eexists; split; [reflexivity|right].
      destruct (last_line_break_idx last) as [[|k]|].
      - destruct (py_nth elems 0) as [e0|e'] eqn:E0; cbn [bind] in E3.
        + destruct (is_point e0); discriminate.
        + injection E3 as <-. eapply py_nth_raise; eassumption.
      - destruct (py_nth elems (S k)) as [e0|e'] eqn:E0; cbn [bind] in E3.
        + eapply point_get_indent_raise; eassumption.
        + injection E3 as <-. eapply py_nth_raise; eassumption.
      - destruct (py_nth elems 0) as [e0|e'] eqn:E0; cbn [bind] in E3.
        + destruct (is_point e0); discriminate.
        + injection E3 as <-. eapply py_nth_raise; eassumption. }
  destruct (desired_indent_units indent_line forced_indents) as [units|e] eqn:E4;
    cbn [bind];
    [|eexists; split; [reflexivity | right; eapply desired_indent_units_raise; eassumption]].
  destruct (py_nth elems (idx first)) as [initial_point|e] eqn:E5; cbn [bind];
    [|eexists; split; [reflexivity | right; eapply py_nth_raise; eassumption]].
  match goal with
  | |- context [bind ?m _] =>
      destruct m as [[elems1 fixes1]|e] eqn:E6; cbn [bind]
  end.
  2:{ eexists; split; [reflexivity|right].
      destruct (match current_indent with Some c => _ | None => true end);
        [|discriminate].
      destruct (Nat.eqb (idx first) 0 && negb (is_line_break first)); cbn [bind] in E6;
        [discriminate|].
      destruct (point_indent_to initial_point _ _) as [[nf np]|e'] eqn:E7;
        cbn [bind] in E6; [discriminate|].
      injection E6 as <-. eapply point_indent_to_raise; eassumption. }
  replace (closing_indent_balance last >? line_initial_indent_balance indent_line)%Z
    with true by (symmetry; apply Z.gtb_lt; lia).
  rewrite (mem_Z_In _ _ Huntaken).
  unfold way_up. rewrite (way_up_search_unfound _ single_indent Hunfound).
  cbn [bind]. eexists; split; [reflexivity | now left].
Qed.

(** ** Template reconciliation: adjacent group members *)

(** C10. A group whose first and last member lines are adjacent in the line
    list (there is no line strictly between them) and whose members do not all
    share one initial indent balance makes the reconciliation of the group
    raise [ValueError]: the limit of the intermediate lines is the minimum of
    an empty sequence. *)
Theorem revise_group_adjacent_raises (elems : ReflowSequenceType)
  (lines : list _IndentLine) (group_lines : list nat)
  (members : list _IndentLine) (options : list (list Z))
  (first_line_idx last_line_idx : nat) :
  mapM (py_nth lines) group_lines = Ok members ->
  mapM (template_steps elems) members = Ok options ->
  py_nth group_lines 0 = Ok first_line_idx ->
  py_last group_lines = Ok last_line_idx ->
  (last_line_idx <= first_line_idx + 1)%nat ->
  all_same_balance (map line_initial_indent_balance members) = false ->
  py_slice lines (first_line_idx + 1) last_line_idx = []
  /\ revise_group elems lines group_lines
     = Raise (ValueError "min() arg is an empty sequence").
Proof.
  intros Hmembers Hoptions Hfirst Hlast Hadj Hdiff.
  assert (Hslice : py_slice lines (first_line_idx + 1) last_line_idx = []).
  { unfold py_slice.
    now replace (last_line_idx - (first_line_idx + 1))%nat with 0%nat by lia. }
  split; [exact Hslice|].
  unfold revise_group.
  rewrite Hmembers; cbn [bind]. rewrite Hdiff, Hoptions; cbn [bind].
  rewrite Hfirst, Hlast; cbn [bind]. rewrite Hslice. reflexivity.
Qed.

(** ** The element builder: round trip and shape *)

Lemma elements_from_loop_flat :
  forall segs elem_buff seg_buff,
    flat_map segments (fst (elements_from_loop segs elem_buff seg_buff))
    ++ snd (elements_from_loop segs elem_buff seg_buff)
    = flat_map segments elem_buff ++ seg_buff ++ segs.
Proof.
  induction segs as [|seg rest IH]; intros elem_buff seg_buff;
    cbn [elements_from_loop fst snd].
  - now rewrite app_nil_r.
  - destruct (is_spacing_segment seg).
    + rewrite IH. now rewrite <- !app_assoc.
    + rewrite IH. cbn [app]. rewrite !flat_map_app. cbn [flat_map segments app].
      destruct elem_buff as [|e0 eb]; destruct seg_buff as [|s0 sb];
        cbn [nonempty orb flat_map app segments];
        rewrite ?flat_map_app; cbn [flat_map segments app];
        rewrite ?app_nil_r, <- ?app_assoc; reflexivity.
Qed.

Lemma elements_from_raw_flat segs :
  flat_map segments (_elements_from_raw_segments segs) = segs.
Proof.
  unfold _elements_from_raw_segments.
  pose proof (elements_from_loop_flat segs [] []) as H.
  destruct (elements_from_loop segs [] []) as [elem_buff seg_buff].
  cbn [fst snd flat_map app] in H.
  destruct seg_buff as [|s0 sb]; cbn [nonempty].
  - now rewrite app_nil_r in H.
  - rewrite flat_map_app. cbn [flat_map segments]. now rewrite app_nil_r.
Qed.

Lemma elements_from_loop_shape :
  forall segs elem_buff seg_buff,
    Forall well_shaped elem_buff ->
    forallb is_spacing_segment seg_buff = true ->
    Forall well_shaped (fst (elements_from_loop segs elem_buff seg_buff))
    /\ forallb is_spacing_segment (snd (elements_from_loop segs elem_buff seg_buff))
       = true.
Proof.
  induction segs as [|seg rest IH]; intros elem_buff seg_buff Hbuff Hsegs;
    cbn [elements_from_loop fst snd]; [now split|].
  destruct (is_spacing_segment seg) eqn:Hsp.
  - apply IH; [exact Hbuff|].
    rewrite forallb_app, Hsegs. cbn. now rewrite Hsp.
  - apply IH; [|reflexivity].
    apply Forall_app. split; [|now repeat constructor].
    destruct (nonempty elem_buff || nonempty seg_buff); [|exact Hbuff].
    apply Forall_app. split; [exact Hbuff | now repeat constructor].
Qed.

(** X1. Round trip of the element builder: the segments of the elements
    built from a run of raw segments, read in order, are the run itself;
    nothing is dropped, duplicated or reordered. *)
Theorem elements_from_raw_segments_roundtrip (segs : list RawSegment) :
  flat_map segments (_elements_from_raw_segments segs) = segs.
Proof. apply elements_from_raw_flat. Qed.

(** X2. Shape of the element builder's output: the elements alternate, every
    block holds exactly one segment, which is not a spacing segment, and every
    point holds spacing segments only. *)
Theorem elements_from_raw_segments_shape (segs : list RawSegment) :
  (exists k, alternates_from k (_elements_from_raw_segments segs))
  /\ Forall well_shaped (_elements_from_raw_segments segs).
Proof.
  split; [apply elements_from_raw_alternates|].
  unfold _elements_from_raw_segments.
  destruct (@elements_from_loop_shape segs [] [] (Forall_nil _) eq_refl)
    as [Hbuff Hsegs].
  destruct (elements_from_loop segs [] []) as [elem_buff seg_buff].
  cbn [fst snd] in Hbuff, Hsegs.
  destruct seg_buff as [|s0 sb]; cbn [nonempty]; [exact Hbuff|].
  apply Forall_app. split; [exact Hbuff | now repeat constructor].
Qed.

(** ** Rendering and the constructors *)

Lemma string_app_assoc (a b c : string) :
  ((a ++ b) ++ c = a ++ (b ++ c))%string.
Proof. induction a as [|ch a IH]; cbn; [reflexivity | now rewrite IH]. Qed.

Lemma raws_text_app l1 l2 :
  raws_text (l1 ++ l2) = (raws_text l1 ++ raws_text l2)%string.
Proof.
  induction l1 as [|s l1 IH]; cbn; [reflexivity|].
  fold (raws_text (l1 ++ l2)) (raws_text l1).
  now rewrite IH, string_app_assoc.
Qed.

Lemma get_raw_flat self :
  get_raw self = raws_text (flat_map segments (elements self)).
Proof.
  unfold get_raw. induction (elements self) as [|e l IH]; cbn; [reflexivity|].
  rewrite raws_text_app, IH. reflexivity.
Qed.

Lemma elements_from_raw_nonempty seg segs :
  _elements_from_raw_segments (seg :: segs) <> [].
Proof.
  intros Habs. pose proof (elements_from_raw_flat (seg :: segs)) as H.
  rewrite Habs in H. discriminate.
Qed.

(** X3. [from_raw_segments] fails exactly on an empty run of segments, with the
    constructor's [AssertionError]; on any other run it returns a sequence with
    an empty fix list whose segments are the run and whose rendering
    ([get_raw]) is the text of the run. *)
Theorem from_raw_segments_spec (segs : list RawSegment) (root : BaseSegment)
  (config : ReflowConfig) :
  match segs with
  | [] => from_raw_segments segs root config = Raise AssertionError
  | _ :: _ =>
      exists s,
        from_raw_segments segs root config = Ok s
        /\ flat_map segments (elements s) = segs
        /\ embodied_fixes s = []
        /\ get_raw s = raws_text segs
  end.
Proof.
  destruct segs as [|seg segs]; [reflexivity|].
  unfold from_raw_segments, ReflowSequence_init.
  destruct (elements_from_raw_alternates (seg :: segs)) as [k Halt].
  rewrite (@alternates_valid _ k Halt (@elements_from_raw_nonempty seg segs)).
  cbn [bind]. eexists. split; [reflexivity|].
  cbn [elements embodied_fixes]. split; [apply elements_from_raw_flat|].
  split; [reflexivity|].
  rewrite get_raw_flat. cbn [elements]. now rewrite elements_from_raw_flat.
Qed.

(** ** [without], [insert] and [replace]: what they build *)

Lemma find_element_idx_from_bound target :
  forall elems i0 i,
    find_element_idx_from target elems i0 = Ok i ->
    (i0 <= i < i0 + length elems)%nat
    /\ exists e, nth_error elems (i - i0) = Some e
                 /\ existsb (fun s => RawSegment_eqb s target) (segments e) = true.
Proof.
  induction elems as [|elem rest IH]; intros i0 i H; cbn [find_element_idx_from] in H;
    [discriminate|].
  destruct (existsb _ (segments elem)) eqn:Hin.
  - injection H as <-. cbn [length]. split; [lia|].
    rewrite Nat.sub_diag. now exists elem.
  - apply IH in H. destruct H as [Hb (e & Hnth & He)]. cbn [length].
    split; [lia|]. exists e. split; [|exact He].
    replace (i - i0)%nat with (S (i - S i0)) by lia. exact Hnth.
Qed.

Lemma firstn_pred_snoc {A : Type} (l : list A) (i : nat) (a : A) :
  (0 < i)%nat -> nth_error l (i - 1) = Some a ->
  firstn i l = firstn (i - 1) l ++ [a].
Proof.
  intros Hi Hnth. replace i with (S (i - 1)) at 1 by lia.
  revert l Hnth. generalize (i - 1)%nat as n. clear i Hi.
  induction n as [|n IH]; intros [|h t] Hnth; try discriminate.
  - cbn in Hnth. injection Hnth as ->. now destruct t.
  - cbn in Hnth. cbn [firstn app]. f_equal. now apply IH.
Qed.

Lemma skipn_nth_cons {A : Type} (l : list A) (i : nat) (a : A) :
  nth_error l i = Some a -> skipn i l = a :: skipn (S i) l.
Proof.
  revert l. induction i as [|i IH]; intros [|h t] Hnth; try discriminate.
  - cbn in Hnth. now injection Hnth as ->.
  - cbn in Hnth. cbn [skipn]. now apply IH.
Qed.

Lemma py_get_pred_inv {A : Type} (l : list A) (i : nat) (a : A) :
  (0 < i)%nat -> py_get l (Z.of_nat i - 1) = Ok a -> nth_error l (i - 1) = Some a.
Proof.
  intros Hi. unfold py_get.
  replace (Z.of_nat i - 1 <? 0)%Z with false by (symmetry; apply Z.ltb_ge; lia).
  destruct ((0 <=? Z.of_nat i - 1)%Z && _); [|discriminate].
  replace (Z.to_nat (Z.of_nat i - 1)) with (i - 1)%nat by lia.
  destruct (nth_error l (i - 1)); [now intros [= ->] | discriminate].
Qed.

Lemma without_removes_block_aux (self s' : ReflowSequence) (target : RawSegment) :
  without self target = Ok s' ->
  exists i block,
    _find_element_idx_with self target = Ok i
    /\ (0 < i)%nat /\ (i + 1 < length (elements self))%nat
    /\ nth_error (elements self) i = Some block
    /\ is_point block = false
    /\ existsb (fun s => RawSegment_eqb s target) (segments block) = true
    /\ flat_map segments (elements s')
       = flat_map segments (firstn i (elements self))
         ++ flat_map segments (skipn (S i) (elements self))
    /\ length (elements s') = (length (elements self) - 2)%nat
    /\ embodied_fixes s' = [LintFix_delete target].
Proof.
  unfold without. intros H.
  destruct (_find_element_idx_with self target) as [i|e] eqn:Hfind; [|discriminate].
  cbn [bind] in H.
  destruct (Nat.eqb i 0) eqn:Hz; [discriminate|].
  destruct (Z.eqb _ _) eqn:Hl; [discriminate|]. cbn [orb] in H.
  apply Nat.eqb_neq in Hz. apply Z.eqb_neq in Hl.
  pose proof (find_element_idx_from_bound _ _ _ Hfind) as [Hb (block & Hnth & Hin)].
  rewrite Nat.sub_0_r in Hnth. cbn [Nat.add] in Hb.
  unfold py_nth at 1 in H. rewrite Hnth in H. cbn [bind] in H.
  destruct (is_point block) eqn:Hblock; [discriminate|].
  destruct (py_get (elements self) (Z.of_nat i - 1)) as [prev|e] eqn:Hprev;
    [|discriminate].
  apply py_get_pred_inv in Hprev; [|lia]. cbn [bind] in H.
  unfold py_nth in H.
  destruct (nth_error (elements self) (i + 1)) as [next|] eqn:Hnext;
    [|discriminate].
  cbn [bind] in H. apply init_inv in H. destruct H as [_ ->].
  exists i, block. cbn [elements embodied_fixes].
  split; [reflexivity|]. split; [lia|]. split; [lia|]. split; [exact Hnth|].
  split; [exact Hblock|]. split; [exact Hin|].
  assert (Hlen1 : length (py_slice (elements self) 0 (i - 1)) = (i - 1)%nat).
  { unfold py_slice. cbn [skipn]. rewrite length_firstn. lia. }
  split; [|split; [|reflexivity]].
  - rewrite (@firstn_pred_snoc _ (elements self) i prev) by (lia || assumption).
    rewrite (@skipn_nth_cons _ (elements self) (S i) next)
      by (now replace (S i) with (i + 1)%nat by lia).
    unfold py_slice. rewrite Nat.sub_0_r.
    change (skipn 0 (elements self)) with (elements self).
    replace (i + 2)%nat with (S (S i)) by lia.
    rewrite !flat_map_app. cbn [flat_map segments app].
    now rewrite !app_nil_r, <- !app_assoc.
  - rewrite !length_app, Hlen1, length_skipn. cbn [length]. lia.
Qed.

(** X4. What [without] removes: whenever it returns, the target was found in
    a block that is at neither end of the sequence, and the segments of the new
    sequence are those of the old one with that block's segments taken out, in
    the same order (the two neighbouring points are merged); two elements
    fewer, and the only fix is the deletion of the target. *)
Theorem without_removes_block (self s' : ReflowSequence) (target : RawSegment) :
  without self target = Ok s' ->
  exists i block,
    _find_element_idx_with self target = Ok i
    /\ (0 < i)%nat /\ (i + 1 < length (elements self))%nat
    /\ nth_error (elements self) i = Some block
    /\ is_point block = false
    /\ existsb (fun s => RawSegment_eqb s target) (segments block) = true
    /\ flat_map segments (elements s')
       = flat_map segments (firstn i (elements self))
         ++ flat_map segments (skipn (S i) (elements self))
    /\ length (elements s') = (length (elements self) - 2)%nat
    /\ embodied_fixes s' = [LintFix_delete target].
Proof. apply without_removes_block_aux. Qed.

(** X5. When [without] returns: on a validated sequence it returns exactly
    when the target is found in a block that is at neither end; the
    constructor's check never fails on what it builds. *)
Theorem without_returns_iff (self : ReflowSequence) (target : RawSegment) :
  _validate_reflow_sequence (elements self) = Ok tt ->
  ((exists s', without self target = Ok s')
   <-> exists i block,
        _find_element_idx_with self target = Ok i
        /\ (0 < i)%nat /\ (i + 1 < length (elements self))%nat
        /\ nth_error (elements self) i = Some block
        /\ is_point block = false).
Proof.
  intros Hvalid. split.
  - intros [s' H]. unfold without in H.
    destruct (_find_element_idx_with self target) as [i|e] eqn:Hfind; [|discriminate].
    cbn [bind] in H.
    destruct (Nat.eqb i 0) eqn:Hz; [discriminate|].
    destruct (Z.eqb _ _) eqn:Hl; [discriminate|]. cbn [orb] in H.
    apply Nat.eqb_neq in Hz. apply Z.eqb_neq in Hl.
    pose proof (find_element_idx_from_bound _ _ _ Hfind) as [Hb (block & Hnth & _)].
    rewrite Nat.sub_0_r in Hnth. cbn [Nat.add] in Hb.
    unfold py_nth at 1 in H. rewrite Hnth in H. cbn [bind] in H.
    destruct (is_point block) eqn:Hblock; [discriminate|].
    exists i, block. repeat split; try assumption; lia.
  - intros (i & block & Hfind & Hpos & Hend & Hnth & Hblock).
    destruct (@without_succeeds self target i Hvalid Hfind Hpos Hend) as (s' & Hs & _).
    + intros e He. rewrite Hnth in He. now injection He as <-.
    + now exists s'.
Qed.

Lemma alternates_app :
  forall l1 l2 k,
    alternates_from k (l1 ++ l2)
    <-> alternates_from k l1
        /\ alternates_from (xorb k (Nat.odd (length l1))) l2.
Proof.
  induction l1 as [|e t IH]; intros l2 k; cbn [app alternates_from length].
  - rewrite xorb_false_r. split; [intros H; split; [exact I | exact H] | intros [_ H]; exact H].
  - rewrite IH, Nat.odd_succ, <- Nat.negb_odd.
    replace (xorb (negb k) (Nat.odd (length t)))
      with (xorb k (negb (Nat.odd (length t))))
      by now destruct k, (Nat.odd (length t)).
    split; [intros (H1 & H2 & H3) | intros ((H1 & H2) & H3)]; repeat split; assumption.
Qed.

Lemma alternates_split_at l k i :
  alternates_from k l -> (i <= length l)%nat ->
  alternates_from k (firstn i l)
  /\ alternates_from (xorb k (Nat.odd i)) (skipn i l).
Proof.
  intros Halt Hi. rewrite <- (firstn_skipn i l) in Halt.
  apply alternates_app in Halt. rewrite length_firstn in Halt.
  now replace (Nat.min i (length l)) with i in Halt by lia.
Qed.

(** X6. [insert] next to a block of a validated sequence: for an insertion
    that is not a spacing segment and a target found in a block, the call
    returns; the new sequence has two more elements, its segments are the old
    ones with the insertion placed directly before (or after) the target's
    block, and its only fix is the creation before (or after) the target. *)
Theorem insert_beside_block (self : ReflowSequence) (insertion target : RawSegment)
  (pos : string) (i : nat) (block : ReflowElement) :
  _validate_reflow_sequence (elements self) = Ok tt ->
  _find_element_idx_with self target = Ok i ->
  nth_error (elements self) i = Some block ->
  is_point block = false ->
  is_type insertion [whitespace; indent; newline] = false ->
  pos = "before"%string \/ pos = "after"%string ->
  exists s',
    insert self insertion target pos = Ok s'
    /\ length (elements s') = (length (elements self) + 2)%nat
    /\ flat_map segments (elements s')
       = (if String.eqb pos "before"
          then flat_map segments (firstn i (elements self))
               ++ insertion :: flat_map segments (skipn i (elements self))
          else flat_map segments (firstn (i + 1) (elements self))
               ++ insertion :: flat_map segments (skipn (i + 1) (elements self)))
    /\ embodied_fixes s'
       = (if String.eqb pos "before"
          then [LintFix_create_before target [insertion]]
          else [LintFix_create_after target [insertion]]).
Proof.
  intros Hvalid Hfind Hnth Hblock Hins Hpos.
  apply validate_alternates in Hvalid. destruct Hvalid as (k & Halt & _).
  assert (Hi : (i < length (elements self))%nat)
    by (apply nth_error_Some; congruence).
  assert (Hki : xorb k (Nat.odd i) = false).
  { rewrite <- (proj1 (alternates_from_nth _ _) Halt _ _ Hnth). exact Hblock. }
  unfold insert.
  replace (String.eqb pos "before" || String.eqb pos "after") with true
    by (destruct Hpos as [-> | ->]; reflexivity).
  cbn [assert bind]. rewrite Hfind. cbn [bind]. rewrite Hins.
  unfold py_nth. rewrite Hnth. cbn [bind]. rewrite Hblock.
  unfold ReflowSequence_init.
  destruct Hpos as [-> | ->]; cbn [String.eqb Ascii.eqb Bool.eqb andb].
  - destruct (@alternates_split_at _ k i Halt ltac:(lia)) as [H1 H2].
    rewrite Hki in H2.
    assert (Hnew : alternates_from k
                     (firstn i (elements self)
                      ++ [ReflowBlock [insertion]; ReflowPoint []]
                      ++ skipn i (elements self))).
    { apply alternates_app. split; [exact H1|].
      rewrite length_firstn. replace (Nat.min i _) with i by lia.
      rewrite Hki. cbn. auto. }
    rewrite (@alternates_valid _ k Hnew)
      by (intros Habs; apply app_eq_nil in Habs; destruct Habs; discriminate).
    cbn [bind]. eexists. split; [reflexivity|]. cbn [elements embodied_fixes].
    split; [|split; [|reflexivity]].
    + rewrite !length_app, length_firstn, length_skipn. cbn [length]. lia.
    + rewrite !flat_map_app. reflexivity.
  - destruct (@alternates_split_at _ k (i + 1) Halt ltac:(lia)) as [H1 H2].
    assert (Hk1 : xorb k (Nat.odd (i + 1)) = true).
    { replace (i + 1)%nat with (S i) by lia.
      rewrite Nat.odd_succ, <- Nat.negb_odd.
      now destruct k, (Nat.odd i). }
    rewrite Hk1 in H2.
    assert (Hnew : alternates_from k
                     (firstn (i + 1) (elements self)
                      ++ [ReflowPoint []; ReflowBlock [insertion]]
                      ++ skipn (i + 1) (elements self))).
    { apply alternates_app. split; [exact H1|].
      rewrite length_firstn. replace (Nat.min (i + 1) _) with (i + 1)%nat by lia.
      rewrite Hk1. cbn. auto. }
    rewrite (@alternates_valid _ k Hnew)
      by (intros Habs; apply app_eq_nil in Habs; destruct Habs; discriminate).
    cbn [bind]. eexists. split; [reflexivity|]. cbn [elements embodied_fixes].
    split; [|split; [|reflexivity]].
    + rewrite !length_app, length_firstn, length_skipn. cbn [length]. lia.
    + rewrite !flat_map_app. reflexivity.
Qed.

Lemma find_element_idx_from_raise target :
  forall elems i0 e,
    find_element_idx_from target elems i0 = Raise e -> exists msg, e = ValueError msg.
Proof.
  induction elems as [|elem rest IH]; intros i0 e; cbn [find_element_idx_from].
  - intros [= <-]. eauto.
  - destruct (existsb _ (segments elem)); [discriminate | apply IH].
Qed.

(** X7. [insert] never accepts a spacing segment: for an insertion of type
    whitespace, indent or newline the call raises, whatever the sequence, the
    target and the position are; the exception is the [AssertionError] of a bad
    position or a [ValueError]. *)
Theorem insert_rejects_spacing (self : ReflowSequence) (insertion target : RawSegment)
  (pos : string) :
  is_type insertion [whitespace; indent; newline] = true ->
  exists e,
    insert self insertion target pos = Raise e
    /\ (e = AssertionError \/ exists msg, e = ValueError msg).
Proof.
  intros Hins. unfold insert.
  destruct (String.eqb pos "before" || String.eqb pos "after"); cbn [assert bind];
    [|eexists; split; [reflexivity | now left]].
  destruct (_find_element_idx_with self target) as [i|e] eqn:Hfind; cbn [bind].
  - rewrite Hins. eexists. split; [reflexivity | right; eauto].
  - apply find_element_idx_from_raise in Hfind.
    eexists. split; [reflexivity | now right].
Qed.

(** X8. What [replace] builds: when the first and last raw segments of the
    target are found among the segments of the sequence, [replace] fails with
    the constructor's [AssertionError] if nothing is left after the edit, and
    otherwise returns a sequence whose segments are those before the target,
    then the raw segments of the edit, then those after the target, with the
    replacement as its only fix. *)
Theorem replace_splices (self : ReflowSequence) (target : BaseSegment)
  (edit : list BaseSegment) (first_raw last_raw : RawSegment)
  (start_idx last_idx : nat) :
  py_nth (raw_segments target) 0 = Ok first_raw ->
  py_last (raw_segments target) = Ok last_raw ->
  py_index RawSegment_eqb first_raw (flat_map segments (elements self)) = Ok start_idx ->
  py_index RawSegment_eqb last_raw (flat_map segments (elements self)) = Ok last_idx ->
  match firstn start_idx (flat_map segments (elements self))
        ++ flat_map raw_segments edit
        ++ skipn (last_idx + 1) (flat_map segments (elements self)) with
  | [] => replace self target edit = Raise AssertionError
  | new_raws =>
      exists s',
        replace self target edit = Ok s'
        /\ flat_map segments (elements s') = new_raws
        /\ embodied_fixes s' = [LintFix_replace target edit]
  end.
Proof.
  intros Hfirst Hlast Hstart Hend.
  unfold replace.
  assert (Hraws : nonempty (raw_segments target) = true).
  { destruct (raw_segments target); [discriminate Hfirst | reflexivity]. }
  rewrite Hraws. cbn [assert bind].
  rewrite Hfirst, Hlast; cbn [bind]. rewrite Hstart, Hend; cbn [bind].
  destruct (firstn start_idx (flat_map segments (elements self))
            ++ flat_map raw_segments edit
            ++ skipn (last_idx + 1) (flat_map segments (elements self)))
    as [|seg new_raws]; [reflexivity|].
  destruct (elements_from_raw_alternates (seg :: new_raws)) as [k Halt].
  unfold ReflowSequence_init.
  rewrite (@alternates_valid _ k Halt (@elements_from_raw_nonempty seg new_raws)).
  cbn [bind]. eexists. split; [reflexivity|]. cbn [elements embodied_fixes].
  split; [apply elements_from_raw_flat | reflexivity].
Qed.

(** ** The crawl: where the indent points sit *)

Lemma crawl_step_yield_point elems i elem st ip st' :
  crawl_step elems i elem st = Ok (Some ip, st') ->
  idx ip = i
  /\ exists segs,
       elem = ReflowPoint segs
       /\ (indent_impulse ip, indent_trough ip) = get_indent_impulse segs
       /\ initial_indent_balance ip = st_indent_balance st
       /\ untaken_indents ip = st_untaken_indents st
       /\ last_line_break_idx ip = st_last_line_break_idx st.
Proof.
  destruct elem as [segs|segs]; cbn [crawl_step]; [|discriminate].
  intros H. pose proof H as H'. apply crawl_point_inv in H'.
  destruct H' as (_ & _ & Hip). destruct (Hip ip eq_refl) as (Hi & Himp & Htr & Hini & Hunt).
  split; [exact Hi|]. exists segs. split; [reflexivity|].
  split; [rewrite Himp, Htr; now destruct (get_indent_impulse segs)|].
  split; [exact Hini|]. split; [exact Hunt|].
  unfold crawl_point in H. destruct (get_indent_impulse segs) as [impulse trough].
  destruct (in_class_types newline (ReflowPoint segs) && _);
    [cbn in H; now injection H as <- _|].
  destruct (nonzero impulse || nonzero trough || Nat.eqb i 0);
    [cbn in H; now injection H as <- _|].
  destruct (next_is_end_of_file elems i) as [[|]|e]; cbn in H; try discriminate.
  now injection H as <- _.
Qed.

Lemma crawl_loop_located elems :
  forall rest pre st,
    elems = pre ++ rest ->
    Forall (fun ip =>
              (length pre <= idx ip)%nat
              /\ exists segs,
                   nth_error elems (idx ip) = Some (ReflowPoint segs)
                   /\ (indent_impulse ip, indent_trough ip) = get_indent_impulse segs)
      (fst (crawl_loop elems (length pre) rest st))
    /\ StronglySorted (fun a b => (idx a < idx b)%nat)
         (fst (crawl_loop elems (length pre) rest st)).
Proof.
  induction rest as [|elem rest IH]; intros pre st Helems; cbn [crawl_loop].
  - split; constructor.
  - destruct (crawl_step elems (length pre) elem st) as [[y st']|e] eqn:Hstep;
      [|split; constructor].
    destruct (IH (pre ++ [elem]) st') as [Hloc Hsort];
      [now rewrite <- app_assoc|].
    rewrite length_app in Hloc, Hsort. cbn [length] in Hloc, Hsort.
    replace (length pre + 1)%nat with (S (length pre)) in Hloc, Hsort by lia.
    destruct (crawl_loop elems (S (length pre)) rest st') as [more err].
    cbn [fst] in *.
    assert (Hloc' : Forall (fun ip =>
                (length pre <= idx ip)%nat
                /\ exists segs,
                     nth_error elems (idx ip) = Some (ReflowPoint segs)
                     /\ (indent_impulse ip, indent_trough ip)
                        = get_indent_impulse segs) more).
    { eapply Forall_impl; [|exact Hloc]. cbn. intros ip [Hle Hex]. split; [lia|exact Hex]. }
    destruct y as [ip0|]; cbn [opt_cons]; [|now split].
    destruct (crawl_step_yield_point _ _ _ _ Hstep) as (Hidx & segs & -> & Himp & _).
    split.
    + constructor; [|exact Hloc'].
      rewrite Hidx. split; [lia|]. exists segs. split; [|exact Himp].
      rewrite Helems, nth_error_app2 by lia. now rewrite Nat.sub_diag.
    + constructor; [exact Hsort|].
      eapply Forall_impl; [|exact Hloc]. cbn. intros ip [Hle _]. lia.
Qed.

(** X9. The indent points the crawl yields come in strictly increasing index
    order, each index is that of a [ReflowPoint] of the sequence, never of a
    block, and the impulse and trough recorded are those of that point. *)
Theorem crawl_points_located (elems : ReflowSequenceType) :
  StronglySorted (fun a b => (idx a < idx b)%nat) (fst (_crawl_indent_points elems))
  /\ Forall (fun ip =>
               exists segs,
                 nth_error elems (idx ip) = Some (ReflowPoint segs)
                 /\ (indent_impulse ip, indent_trough ip) = get_indent_impulse segs)
       (fst (_crawl_indent_points elems)).
Proof.
  destruct (@crawl_loop_located elems elems [] crawl_init eq_refl) as [Hloc Hsort].
  split; [exact Hsort|].
  eapply Forall_impl; [|exact Hloc]. cbn. now intros ip [_ H].
Qed.

Lemma crawl_loop_untaken elems :
  forall rest i st,
    Forall (fun x => (x <= st_indent_balance st)%Z) (st_untaken_indents st) ->
    Forall (fun ip =>
              Forall (fun x => (x <= initial_indent_balance ip)%Z) (untaken_indents ip))
      (fst (crawl_loop elems i rest st)).
Proof.
  induction rest as [|elem rest IH]; intros i st Hst; cbn [crawl_loop];
    [constructor|].
  destruct (crawl_step elems i elem st) as [[y st']|e] eqn:Hstep; [|constructor].
  pose proof (crawl_step_pruned _ _ _ _ Hstep Hst) as Hst'.
  specialize (IH (S i) st' Hst').
  destruct (crawl_loop elems (S i) rest st') as [more err]. cbn [fst] in *.
  destruct y as [ip0|]; cbn [opt_cons]; [|exact IH].
  constructor; [|exact IH].
  destruct (crawl_step_yield_point _ _ _ _ Hstep) as (_ & segs & _ & _ & Hini & Hunt & _).
  now rewrite Hini, Hunt.
Qed.

(** X10. No untaken indent recorded in a yielded indent point exceeds the
    balance the point starts from: the untaken tuple handed to the per-line
    evaluation only lists steps that are open at the point. *)
Theorem crawl_untaken_within_balance (elems : ReflowSequenceType)
  (ip : _IndentPoint) (x : Z) :
  In ip (fst (_crawl_indent_points elems)) ->
  In x (untaken_indents ip) ->
  (x <= initial_indent_balance ip)%Z.
Proof.
  intros Hip Hx.
  pose proof (@crawl_loop_untaken elems elems 0%nat crawl_init (Forall_nil _)) as H.
  rewrite Forall_forall in H. specialize (H ip Hip).
  rewrite Forall_forall in H. now apply H.
Qed.

Lemma crawl_step_line_break elems i elem st y st' j :
  crawl_step elems i elem st = Ok (y, st') ->
  st_last_line_break_idx st' = Some j ->
  st_last_line_break_idx st = Some j
  \/ (j = i
      /\ in_class_types newline elem = true
      /\ exists ip, y = Some ip /\ idx ip = i /\ is_line_break ip = true).
Proof.
  destruct elem as [segs|segs]; cbn [crawl_step];
    [|intros [= <- <-]; now left].
  unfold crawl_point. destruct (get_indent_impulse segs) as [impulse trough].
  destruct (in_class_types newline (ReflowPoint segs)) eqn:Hnl; cbn [andb].
  - destruct (negb (option_nat_eqb (Some i) (st_last_line_break_idx st))).
    + cbn. intros [= <- <-]. cbn. intros [= <-]. right.
      split; [reflexivity|]. split; [reflexivity|]. eexists. now split.
    + destruct (nonzero impulse || nonzero trough || Nat.eqb i 0);
        [cbn; intros [= <- <-]; now left|].
      destruct (next_is_end_of_file elems i) as [[|]|e]; cbn;
        try discriminate; intros [= <- <-]; now left.
  - destruct (nonzero impulse || nonzero trough || Nat.eqb i 0);
      [cbn; intros [= <- <-]; now left|].
    destruct (next_is_end_of_file elems i) as [[|]|e]; cbn;
      try discriminate; intros [= <- <-]; now left.
Qed.

Lemma crawl_loop_line_breaks elems :
  forall rest pre st (seen : list _IndentPoint),
    elems = pre ++ rest ->
    (forall j, st_last_line_break_idx st = Some j ->
               (j < length pre)%nat
               /\ (exists e, nth_error elems j = Some e
                             /\ in_class_types newline e = true)
               /\ exists ip', In ip' seen /\ idx ip' = j /\ is_line_break ip' = true) ->
    forall ip j,
      In ip (fst (crawl_loop elems (length pre) rest st)) ->
      last_line_break_idx ip = Some j ->
      (j < idx ip)%nat
      /\ (exists e, nth_error elems j = Some e /\ in_class_types newline e = true)
      /\ exists ip', In ip' (seen ++ fst (crawl_loop elems (length pre) rest st))
                     /\ idx ip' = j /\ is_line_break ip' = true.
Proof.
  induction rest as [|elem rest IH]; intros pre st seen Helems Hst ip j Hin Hllb;
    cbn [crawl_loop] in *; [contradiction|].
  destruct (crawl_step elems (length pre) elem st) as [[y st']|e] eqn:Hstep;
    [|contradiction].
  assert (Hnth : nth_error elems (length pre) = Some elem).
  { rewrite Helems, nth_error_app2 by lia. now rewrite Nat.sub_diag. }
  assert (Hst' : forall j',
             st_last_line_break_idx st' = Some j' ->
             (j' < length (pre ++ [elem]))%nat
             /\ (exists e, nth_error elems j' = Some e
                           /\ in_class_types newline e = true)
             /\ exists ip', In ip' (seen ++ opt_cons y []) /\ idx ip' = j'
                            /\ is_line_break ip' = true).
  { intros j' Hj'. rewrite length_app. cbn [length].
    destruct (crawl_step_line_break _ _ _ _ Hstep Hj')
      as [Hold|(-> & Hnl & ip' & -> & Hidx & Hlb)].
    - destruct (Hst _ Hold) as (Hlt & He & ip' & Hin' & Hi' & Hlb').
      split; [lia|]. split; [exact He|].
      exists ip'. split; [apply in_or_app; now left | now split].
    - split; [lia|]. split; [now exists elem|].
      exists ip'. split; [apply in_or_app; right; now left | now split]. }
  specialize (IH (pre ++ [elem]) st' (seen ++ opt_cons y [])
                ltac:(now rewrite <- app_assoc) Hst').
  rewrite length_app in IH. cbn [length] in IH.
  replace (length pre + 1)%nat with (S (length pre)) in IH by lia.
  destruct (crawl_loop elems (S (length pre)) rest st') as [more err].
  cbn [fst] in *.
  assert (Happ : forall ip', In ip' ((seen ++ opt_cons y []) ++ more)
                             -> In ip' (seen ++ opt_cons y more)).
  { intros ip' H. rewrite <- app_assoc in H.
    now destruct y; cbn [opt_cons app] in *. }
  destruct y as [ip0|]; cbn [opt_cons] in Hin.
  - destruct Hin as [<-|Hin].
    + destruct (crawl_step_yield_point _ _ _ _ Hstep)
        as (Hidx & segs & _ & _ & _ & _ & Hl).
      rewrite Hl in Hllb. destruct (Hst _ Hllb) as (Hlt & He & ip' & Hin' & Hi' & Hlb').
      rewrite Hidx. split; [lia|]. split; [exact He|].
      exists ip'. split; [apply in_or_app; now left | now split].
    + destruct (IH ip j Hin Hllb) as (Hlt & He & ip' & Hin' & Hi' & Hlb').
      split; [exact Hlt|]. split; [exact He|]. exists ip'. split; [now apply Happ | now split].
  - destruct (IH ip j Hin Hllb) as (Hlt & He & ip' & Hin' & Hi' & Hlb').
    split; [exact Hlt|]. split; [exact He|]. exists ip'. split; [now apply Happ | now split].
Qed.

(** X11. The line break an indent point refers to: when a yielded point
    records [last_line_break_idx = j], then [j] is smaller than the point's own
    index, the element at [j] holds a newline, and the crawl has yielded a point
    of index [j] flagged as a line break. *)
Theorem crawl_last_line_break (elems : ReflowSequenceType) (ip : _IndentPoint) (j : nat) :
  In ip (fst (_crawl_indent_points elems)) ->
  last_line_break_idx ip = Some j ->
  (j < idx ip)%nat
  /\ (exists e, nth_error elems j = Some e /\ in_class_types newline e = true)
  /\ exists ip', In ip' (fst (_crawl_indent_points elems))
                 /\ idx ip' = j /\ is_line_break ip' = true.
Proof.
  intros Hin Hllb.
  apply (@crawl_loop_line_breaks elems elems [] crawl_init [] eq_refl); try assumption.
  cbn. discriminate.
Qed.

(** ** Line grouping: the shape of the lines *)

Lemma last_error_snoc {A : Type} (l : list A) (a : A) :
  last_error (l ++ [a]) = Some a.
Proof. unfold last_error. now rewrite rev_app_distr. Qed.

Lemma last_error_nth {A : Type} (l : list A) (a : A) :
  last_error l = Some a -> nth_error l (length l - 1) = Some a.
Proof.
  unfold last_error. intros H.
  destruct (rev l) as [|b t] eqn:Hrev; [discriminate|]. cbn in H. injection H as ->.
  assert (Hl : l = rev t ++ [a]).
  { rewrite <- (rev_involutive l), Hrev. reflexivity. }
  rewrite Hl, length_app. cbn [length].
  rewrite nth_error_app2 by lia.
  now replace (length (rev t) + 1 - 1 - length (rev t))%nat with 0%nat by lia.
Qed.

Lemma from_points_points indent_points line :
  from_points indent_points = Ok line -> line_indent_points line = indent_points.
Proof.
  unfold from_points. intros H. inv_bind H. inv_bind H. now injection H as <-.
Qed.

Lemma from_points_total indent_points :
  indent_points <> [] -> exists line, from_points indent_points = Ok line.
Proof.
  intros Hne. unfold from_points, py_last.
  destruct (rev indent_points) as [|lst t] eqn:Hrev.
  - apply (f_equal (@rev _)) in Hrev. rewrite rev_involutive in Hrev. contradiction.
  - cbn [bind]. destruct indent_points as [|p ps]; [contradiction|].
    destruct (truthy_idx _); cbn; eauto.
Qed.

Lemma map_line_loop_acc :
  forall points lines point_buffer,
    map_line_loop points lines point_buffer
    = (r <- map_line_loop points [] point_buffer ;;
       Ok (lines ++ fst r, snd r)).
Proof.
  induction points as [|p ps IH]; intros lines buf; cbn [map_line_loop].
  - cbn. now rewrite app_nil_r.
  - destruct (negb (is_line_break p)); [apply IH|].
    destruct (from_points (buf ++ [p])) as [line|e]; cbn [bind]; [|reflexivity].
    rewrite (IH (lines ++ [line])), (IH ([] ++ [line])).
    destruct (map_line_loop ps [] [p]) as [[new b]|e]; cbn; [|reflexivity].
    now rewrite <- app_assoc.
Qed.

Lemma Forall_removelast {A : Type} (P : A -> Prop) (l : list A) :
  Forall P l -> Forall P (removelast l).
Proof.
  induction l as [|a [|b t] IH]; intros H; cbn [removelast]; try constructor.
  - now inversion H.
  - apply IH. now inversion H.
Qed.

Lemma map_line_loop_spec :
  forall points point_buffer new b,
    map_line_loop points [] point_buffer = Ok (new, b) ->
    Forall (fun ip => is_line_break ip = false) (tl point_buffer) ->
    Forall (fun line =>
              line_indent_points line <> []
              /\ incl (line_indent_points line) (point_buffer ++ points)
              /\ Forall (fun ip => is_line_break ip = false)
                   (removelast (tl (line_indent_points line)))
              /\ exists p, last_error (line_indent_points line) = Some p
                           /\ is_line_break p = true) new
    /\ (forall line q, hd_error new = Some line -> hd_error point_buffer = Some q ->
                       hd_error (line_indent_points line) = Some q)
    /\ (forall k l1 l2, nth_error new k = Some l1 -> nth_error new (S k) = Some l2 ->
                        last_error (line_indent_points l1)
                        = hd_error (line_indent_points l2))
    /\ Forall (fun ip => is_line_break ip = false) (tl b)
    /\ incl b (point_buffer ++ points)
    /\ (forall l, last_error new = Some l ->
                  last_error (line_indent_points l) = hd_error b)
    /\ (new = [] -> b = point_buffer ++ points).
Proof.
  induction points as [|p ps IH]; intros buf new b H Hbuf; cbn [map_line_loop] in H.
  - injection H as <- <-. rewrite app_nil_r.
    repeat split; try easy.
  - destruct (is_line_break p) eqn:Hlb; cbn [negb] in H.
    + destruct (from_points (buf ++ [p])) as [line|e] eqn:Hfp; [|discriminate].
      cbn [bind] in H. apply from_points_points in Hfp.
      rewrite map_line_loop_acc in H.
      destruct (map_line_loop ps [] [p]) as [[new' b']|e] eqn:Hrec; [|discriminate].
      cbn in H. injection H as <- <-.
      destruct (IH [p] new' b' Hrec (Forall_nil _))
        as (Hshape & Hhead & Hchain & Hb & Hincl & Hlast & Hnil).
      assert (Hlast_line : last_error (line_indent_points line) = Some p)
        by (rewrite Hfp; apply last_error_snoc).
      split; [|split; [|split; [|split; [|split; [|split]]]]].
      * constructor.
        -- rewrite Hfp. split; [now destruct buf|].
           split; [intros x Hx; apply in_app_or in Hx; apply in_or_app;
                   destruct Hx as [Hx|[<-|[]]]; [now left | right; now left]|].
           split; [|exists p; split; [apply last_error_snoc | exact Hlb]].
           destruct buf as [|h t]; cbn [tl app removelast]; [constructor|].
           now rewrite removelast_last.
        -- eapply Forall_impl; [|exact Hshape]. cbn.
           intros l (Hne & Hin & Hmid & Hp). split; [exact Hne|].
           split; [|now split].
           intros x Hx. apply Hin in Hx. apply in_or_app. right. exact Hx.
      * intros l q [= <-] Hq. rewrite Hfp.
        destruct buf as [|h t]; [discriminate|]. exact Hq.
      * intros [|k] l1 l2 H1 H2; cbn in H1, H2.
        -- injection H1 as <-. rewrite Hlast_line. symmetry.
           apply (Hhead l2 p); [now destruct new' | reflexivity].
        -- now apply (Hchain k).
      * exact Hb.
      * intros x Hx. apply Hincl in Hx. apply in_or_app. right. exact Hx.
      * intros l Hl. unfold last_error in Hl. cbn [rev] in Hl.
        destruct (rev new') as [|r rs] eqn:Hrev.
        -- cbn in Hl. injection Hl as <-.
           assert (new' = []) as Hn.
           { apply (f_equal (@rev _)) in Hrev. now rewrite rev_involutive in Hrev. }
           rewrite (Hnil Hn). cbn. exact Hlast_line.
        -- cbn in Hl. apply Hlast. unfold last_error. now rewrite Hrev.
      * discriminate.
    + destruct (IH (buf ++ [p]) new b H) as (Hshape & Hhead & Hchain & Hb & Hincl & Hlast & Hnil).
      { destruct buf as [|h t]; cbn [tl app]; [constructor|].
        apply Forall_app. split; [exact Hbuf | now constructor]. }
      rewrite <- app_assoc in Hshape, Hincl, Hnil. cbn [app] in Hshape, Hincl, Hnil.
      repeat split; try assumption.
      intros line q Hl Hq. apply (Hhead line q Hl).
      destruct buf as [|h t]; [discriminate | exact Hq].
Qed.

Lemma map_line_buffers_shape (elems : ReflowSequenceType) (lines : list _IndentLine) :
  _map_line_buffers elems = Ok lines ->
  Forall (fun line =>
            line_indent_points line <> []
            /\ incl (line_indent_points line) (fst (_crawl_indent_points elems))
            /\ Forall (fun ip => is_line_break ip = false)
                 (removelast (tl (line_indent_points line)))) lines
  /\ forall k l1 l2,
       nth_error lines k = Some l1 -> nth_error lines (S k) = Some l2 ->
       exists p, last_error (line_indent_points l1) = Some p
                 /\ hd_error (line_indent_points l2) = Some p
                 /\ is_line_break p = true.
Proof.
  unfold _map_line_buffers.
  destruct (_crawl_indent_points elems) as [points err]. cbn [fst].
  intros H.
  destruct (map_line_loop points [] []) as [[ls b]|e] eqn:Hloop; [|discriminate].
  cbn [bind] in H.
  destruct (@map_line_loop_spec points [] ls b Hloop (Forall_nil _))
    as (Hshape & _ & Hchain & Hb & Hincl & Hlast & _).
  cbn [app] in Hshape, Hincl.
  assert (Hshape' : Forall (fun line =>
            line_indent_points line <> []
            /\ incl (line_indent_points line) points
            /\ Forall (fun ip => is_line_break ip = false)
                 (removelast (tl (line_indent_points line)))) ls).
  { eapply Forall_impl; [|exact Hshape]. cbn. intros l (H1 & H2 & H3 & _). auto. }
  assert (Hchain' : forall k l1 l2,
             nth_error ls k = Some l1 -> nth_error ls (S k) = Some l2 ->
             exists p, last_error (line_indent_points l1) = Some p
                       /\ hd_error (line_indent_points l2) = Some p
                       /\ is_line_break p = true).
  { intros k l1 l2 H1 H2.
    rewrite Forall_forall in Hshape.
    destruct (Hshape l1 (nth_error_In _ _ H1)) as (_ & _ & _ & p & Hp & Hlb).
    exists p. split; [exact Hp|]. split; [|exact Hlb].
    now rewrite <- (Hchain k l1 l2 H1 H2). }
  destruct err as [e|]; [discriminate|].
  destruct (1 <? length b)%nat eqn:Hlen; [|injection H as <-; now split].
  destruct (from_points b) as [line|e] eqn:Hfp; [|discriminate].
  cbn [bind] in H. injection H as <-. apply from_points_points in Hfp.
  split.
  - apply Forall_app. split; [exact Hshape'|]. constructor; [|constructor].
    rewrite Hfp. split; [destruct b; [discriminate | discriminate]|].
    split; [exact Hincl | now apply Forall_removelast].
  - intros k l1 l2 H1 H2.
    destruct (Nat.lt_ge_cases (S k) (length ls)) as [Hlt|Hge].
    + rewrite nth_error_app1 in H1, H2 by lia. now apply (Hchain' k).
    + assert (Hk : S k = length ls).
      { assert (S k < length (ls ++ [line]))%nat
          by (apply nth_error_Some; congruence).
        rewrite length_app in H. cbn [length] in H. lia. }
      rewrite nth_error_app1 in H1 by lia.
      rewrite nth_error_app2 in H2 by lia.
      replace (S k - length ls)%nat with 0%nat in H2 by lia.
      cbn in H2. injection H2 as <-. rewrite Hfp.
      assert (Hl1 : last_error ls = Some l1).
      { unfold last_error.
        destruct (rev ls) as [|r rs] eqn:Hrev.
        - apply (f_equal (@length _)) in Hrev. rewrite length_rev in Hrev.
          cbn in Hrev. lia.
        - assert (Hr : last_error ls = Some r) by (unfold last_error; now rewrite Hrev).
          apply last_error_nth in Hr.
          replace (length ls - 1)%nat with k in Hr by lia.
          rewrite H1 in Hr. cbn. now symmetry. }
      rewrite Forall_forall in Hshape.
      destruct (Hshape l1 (nth_error_In _ _ H1)) as (_ & _ & _ & p & Hp & Hlb).
      exists p. split; [exact Hp|]. split; [|exact Hlb].
      now rewrite <- (Hlast l1 Hl1).
Qed.

(** X12. The lines of [_map_line_buffers]: every line has at least one indent
    point, all of them yielded by the crawl, and none strictly between the
    first and the last is a line break; two consecutive lines share their
    boundary, the last point of the earlier line being the first point of the
    later one, and that point is a line break. *)
Theorem map_line_buffers_lines (elems : ReflowSequenceType) (lines : list _IndentLine) :
  _map_line_buffers elems = Ok lines ->
  Forall (fun line =>
            line_indent_points line <> []
            /\ incl (line_indent_points line) (fst (_crawl_indent_points elems))
            /\ Forall (fun ip => is_line_break ip = false)
                 (removelast (tl (line_indent_points line)))) lines
  /\ forall k l1 l2,
       nth_error lines k = Some l1 -> nth_error lines (S k) = Some l2 ->
       exists p, last_error (line_indent_points l1) = Some p
                 /\ hd_error (line_indent_points l2) = Some p
                 /\ is_line_break p = true.
Proof. apply map_line_buffers_shape. Qed.

(** ** Reconciliation: only balances change *)

Lemma py_set_length {A : Type} (l : list A) (i : nat) (v : A) :
  length (py_set l i v) = length l.
Proof.
  revert i. induction l as [|h t IH]; intros [|i]; cbn; try reflexivity.
  now rewrite IH.
Qed.

Lemma py_set_nth_other {A : Type} (l : list A) (i j : nat) (v : A) :
  i <> j -> nth_error (py_set l i v) j = nth_error l j.
Proof.
  revert i j. induction l as [|h t IH]; intros [|i] [|j] Hij; cbn;
    try reflexivity; try congruence.
  apply IH. congruence.
Qed.

Lemma py_set_nth_same {A : Type} (l : list A) (i : nat) (v : A) :
  (i < length l)%nat -> nth_error (py_set l i v) i = Some v.
Proof.
  revert i. induction l as [|h t IH]; intros [|i] Hi; cbn in *; try lia.
  - reflexivity.
  - apply IH. lia.
Qed.

Lemma py_set_map {A B : Type} (f : A -> B) (l : list A) (i : nat) (a v : A) :
  nth_error l i = Some a -> f v = f a -> map f (py_set l i v) = map f l.
Proof.
  revert i. induction l as [|h t IH]; intros [|i] Hnth Hf; cbn in *;
    try discriminate.
  - injection Hnth as ->. now rewrite Hf.
  - f_equal. now apply IH.
Qed.

Lemma set_line_balance_points lines i v :
  map line_indent_points (set_line_balance lines i v) = map line_indent_points lines.
Proof.
  unfold set_line_balance.
  destruct (nth_error lines i) as [line|] eqn:Hnth; [|reflexivity].
  now apply py_set_map with (a := line).
Qed.

Lemma set_line_balance_other lines i j v :
  i <> j -> nth_error (set_line_balance lines i v) j = nth_error lines j.
Proof.
  intros Hij. unfold set_line_balance.
  destruct (nth_error lines i); [now apply py_set_nth_other | reflexivity].
Qed.

Lemma set_line_balance_same lines i v l :
  nth_error (set_line_balance lines i v) i = Some l ->
  line_initial_indent_balance l = v.
Proof.
  unfold set_line_balance.
  destruct (nth_error lines i) as [line|] eqn:Hnth; [|congruence].
  rewrite py_set_nth_same by (apply nth_error_Some; congruence).
  now intros [= <-].
Qed.

Lemma fold_set_balance_points (f : list _IndentLine -> nat -> Z) idxs :
  forall lines,
    map line_indent_points
      (fold_left (fun ls i => set_line_balance ls i (f ls i)) idxs lines)
    = map line_indent_points lines.
Proof.
  induction idxs as [|i idxs IH]; intros lines; cbn [fold_left]; [reflexivity|].
  now rewrite IH, set_line_balance_points.
Qed.

Lemma fold_set_balance_other (f : list _IndentLine -> nat -> Z) idxs j :
  ~ In j idxs ->
  forall lines,
    nth_error (fold_left (fun ls i => set_line_balance ls i (f ls i)) idxs lines) j
    = nth_error lines j.
Proof.
  induction idxs as [|i idxs IH]; intros Hj lines; cbn [fold_left]; [reflexivity|].
  rewrite IH by (intros H; apply Hj; now right).
  apply set_line_balance_other. intros ->. apply Hj. now left.
Qed.

Lemma revise_group_points elems lines group_lines lines' :
  revise_group elems lines group_lines = Ok lines' ->
  map line_indent_points lines' = map line_indent_points lines.
Proof.
  unfold revise_group. intros H. inv_bind H.
  destruct (all_same_balance _); [now injection H as <-|].
  do 5 inv_bind H. inv_bind H. destruct a5 as [best_indent lines1].
  injection H as <-.
  rewrite (fold_set_balance_points (fun _ _ => best_indent)).
  destruct (filter _ a4) as [|o os].
  - inv_bind Hm5. injection Hm5 as _ <-.
    assert (Hfold : forall idxs ls,
               map line_indent_points
                 (fold_left
                    (fun (ls : list _IndentLine) i =>
                       if existsb (Nat.eqb i) group_lines then ls
                       else match nth_error ls i with
                            | Some l => set_line_balance ls i
                                          (line_initial_indent_balance l - 1)%Z
                            | None => ls
                            end) idxs ls)
               = map line_indent_points ls).
    { induction idxs as [|i idxs IH]; intros ls; cbn [fold_left]; [reflexivity|].
      rewrite IH. destruct (existsb _ group_lines); [reflexivity|].
      destruct (nth_error ls i); [apply set_line_balance_points | reflexivity]. }
    apply Hfold.
  - inv_bind Hm5. now injection Hm5 as _ <-.
Qed.

Lemma revise_templated_lines_points (lines lines' : list _IndentLine)
  (elems : ReflowSequenceType) :
  _revise_templated_lines lines elems = Ok lines' ->
  map line_indent_points lines' = map line_indent_points lines.
Proof.
  unfold _revise_templated_lines. intros H. inv_bind H. clear Hm.
  revert lines H. induction a as [|[uuid group_lines] groups IH]; intros lines H;
    cbn [revise_groups] in H.
  - now injection H as <-.
  - inv_bind H. apply IH in H. apply revise_group_points in Hm. congruence.
Qed.

(** X13. Template reconciliation only revises balances: when
    [_revise_templated_lines] returns, the lines are as many as before and
    each holds the same indent points as before. *)
Theorem revise_templated_lines_keeps_points (lines lines' : list _IndentLine)
  (elems : ReflowSequenceType) :
  _revise_templated_lines lines elems = Ok lines' ->
  map line_indent_points lines' = map line_indent_points lines.
Proof. apply revise_templated_lines_points. Qed.

Lemma mapM_nth {A B : Type} (f : A -> result B) :
  forall l bs,
    mapM f l = Ok bs ->
    forall a, In a l -> exists b, f a = Ok b /\ In b bs.
Proof.
  induction l as [|x l IH]; intros bs H a Ha; [contradiction|].
  cbn [mapM] in H. inv_bind H. inv_bind H. injection H as <-.
  destruct Ha as [<-|Ha].
  - exists a0. split; [assumption | now left].
  - destruct (IH _ Hm0 a Ha) as (b & Hb & Hin). exists b. split; [assumption | now right].
Qed.

Lemma all_same_balance_eq balances x y :
  all_same_balance balances = true -> In x balances -> In y balances -> x = y.
Proof.
  unfold all_same_balance. intros H Hx Hy. apply Nat.eqb_eq in H.
  apply (nodup_In Z.eq_dec) in Hx, Hy.
  destruct (nodup Z.eq_dec balances) as [|a [|b t]]; try discriminate.
  destruct Hx as [<-|[]], Hy as [<-|[]]. reflexivity.
Qed.

Lemma fold_set_balance_const v i :
  forall idxs lines,
    (In i idxs
     \/ forall l, nth_error lines i = Some l -> line_initial_indent_balance l = v) ->
    forall l,
      nth_error (fold_left (fun ls c => set_line_balance ls c v) idxs lines) i = Some l ->
      line_initial_indent_balance l = v.
Proof.
  induction idxs as [|c idxs IH]; intros lines Hi l Hl; cbn [fold_left] in Hl.
  - destruct Hi as [[]|Hi]. now apply Hi.
  - apply (IH (set_line_balance lines c v)); [|exact Hl].
    destruct (Nat.eq_dec c i) as [->|Hne].
    + right. intros l'. apply set_line_balance_same.
    + destruct Hi as [[Hci|Hi]|Hi]; [congruence | now left |].
      right. intros l'. rewrite set_line_balance_other by assumption. apply Hi.
Qed.

(** X14. What reconciling one template group achieves: when the step for a
    group returns, all member lines of the group carry one and the same
    initial indent balance. *)
Theorem revise_group_common_balance (elems : ReflowSequenceType)
  (lines lines' : list _IndentLine) (group_lines : list nat)
  (i j : nat) (li lj : _IndentLine) :
  revise_group elems lines group_lines = Ok lines' ->
  In i group_lines -> In j group_lines ->
  nth_error lines' i = Some li -> nth_error lines' j = Some lj ->
  line_initial_indent_balance li = line_initial_indent_balance lj.
Proof.
  unfold revise_group. intros H Hi Hj Hli Hlj. inv_bind H.
  destruct (all_same_balance _) eqn:Hsame.
  - injection H as <-.
    destruct (mapM_nth _ _ Hm i Hi) as (mi & Hmi & Hini).
    destruct (mapM_nth _ _ Hm j Hj) as (mj & Hmj & Hinj).
    unfold py_nth in Hmi, Hmj. rewrite Hli in Hmi. rewrite Hlj in Hmj.
    injection Hmi as <-. injection Hmj as <-.
    apply (@all_same_balance_eq _ _ _ Hsame); now apply in_map.
  - do 5 inv_bind H. inv_bind H. destruct a5 as [best_indent lines1].
    injection H as <-.
    rewrite (@fold_set_balance_const best_indent i group_lines lines1 (or_introl Hi) li Hli).
    now rewrite (@fold_set_balance_const best_indent j group_lines lines1 (or_introl Hj) lj Hlj).
Qed.

Lemma revise_comment_loop_spec elems lines0 :
  forall todo i cur buf res bufres,
    revise_comment_loop elems todo i cur buf = Ok (res, bufres) ->
    map line_indent_points cur = map line_indent_points lines0 ->
    (forall j, (i <= j)%nat -> nth_error cur j = nth_error lines0 j) ->
    (forall j l, nth_error lines0 j = Some l -> is_all_comments l elems = Ok false ->
                 nth_error cur j = Some l) ->
    (forall c, In c buf ->
               (c < i)%nat
               /\ exists l, nth_error lines0 c = Some l
                            /\ is_all_comments l elems = Ok true) ->
    map line_indent_points res = map line_indent_points lines0
    /\ (forall j l, nth_error lines0 j = Some l -> is_all_comments l elems = Ok false ->
                    nth_error res j = Some l)
    /\ (forall c, In c bufres ->
                  exists l, nth_error lines0 c = Some l
                            /\ is_all_comments l elems = Ok true).
Proof.
  induction todo as [|t todo IH]; intros i cur buf res bufres H Hpts Hrest Hkeep Hbuf;
    cbn [revise_comment_loop] in H.
  - injection H as <- <-. split; [exact Hpts|]. split; [exact Hkeep|].
    intros c Hc. now destruct (Hbuf c Hc).
  - destruct (py_nth cur i) as [line|e] eqn:Hline; [|discriminate].
    cbn [bind] in H. unfold py_nth in Hline.
    destruct (nth_error cur i) as [line'|] eqn:Hnth; [|discriminate].
    injection Hline as ->. rewrite (Hrest i (Nat.le_refl i)) in Hnth.
    destruct (is_all_comments line elems) as [[|]|e] eqn:Hcomm; [| |discriminate];
      cbn [bind] in H.
    + apply (IH _ _ _ _ _ H); try assumption.
      * intros j Hj. apply Hrest. lia.
      * intros c Hc. apply in_app_or in Hc. destruct Hc as [Hc|[<-|[]]].
        -- destruct (Hbuf c Hc) as [Hlt Hex]. split; [lia | exact Hex].
        -- split; [lia|]. now exists line.
    + apply (IH _ _ _ _ _ H).
      * rewrite (fold_set_balance_points
                   (fun _ _ => line_initial_indent_balance line)). exact Hpts.
      * intros j Hj.
        rewrite (fold_set_balance_other
                   (fun _ _ => line_initial_indent_balance line)).
        -- apply Hrest. lia.
        -- intros Hin. destruct (Hbuf j Hin). lia.
      * intros j l Hj Hl.
        rewrite (fold_set_balance_other
                   (fun _ _ => line_initial_indent_balance line)).
        -- now apply Hkeep.
        -- intros Hin. destruct (Hbuf j Hin) as (_ & l' & Hl' & Hc').
           rewrite Hj in Hl'. injection Hl' as <-. congruence.
      * intros c [].
Qed.

Lemma revise_comment_lines_points (lines lines' : list _IndentLine)
  (elems : ReflowSequenceType) :
  _revise_comment_lines lines elems = Ok lines' ->
  map line_indent_points lines' = map line_indent_points lines
  /\ forall j l,
       nth_error lines j = Some l -> is_all_comments l elems = Ok false ->
       nth_error lines' j = Some l.
Proof.
  unfold _revise_comment_lines. intros H.
  destruct (revise_comment_loop elems lines 0 lines []) as [[res bufres]|e] eqn:Hloop;
    [|discriminate].
  cbn [bind] in H. injection H as <-.
  destruct (@revise_comment_loop_spec elems lines lines 0%nat lines [] res bufres
              Hloop eq_refl (fun _ _ => eq_refl) (fun _ _ H _ => H)
              (fun _ (H : In _ []) => match H with end))
    as (Hpts & Hkeep & Hbuf).
  split.
  - now rewrite (fold_set_balance_points (fun _ _ => 0%Z)).
  - intros j l Hj Hl.
    rewrite (fold_set_balance_other (fun _ _ => 0%Z)); [now apply Hkeep|].
    intros Hin. destruct (Hbuf j Hin) as (l' & Hl' & Hc').
    rewrite Hj in Hl'. injection Hl' as <-. congruence.
Qed.

(** X15. Comment reconciliation only revises the balances of comment-only
    lines: when [_revise_comment_lines] returns, every line holds the same
    indent points as before, and every line that is not comment-only is
    exactly as it was. *)
Theorem revise_comment_lines_frame (lines lines' : list _IndentLine)
  (elems : ReflowSequenceType) :
  _revise_comment_lines lines elems = Ok lines' ->
  map line_indent_points lines' = map line_indent_points lines
  /\ forall j l,
       nth_error lines j = Some l -> is_all_comments l elems = Ok false ->
       nth_error lines' j = Some l.
Proof. apply revise_comment_lines_points. Qed.


(** ** Per-line evaluation: the forced indents and the frame *)

Lemma remove_first_count_same x l :
  In x l -> S (count_occ Z.eq_dec (remove_first x l) x) = count_occ Z.eq_dec l x.
Proof.
  induction l as [|h t IH]; intros Hin; [contradiction|].
  cbn [remove_first count_occ].
  destruct (Z.eqb_spec h x) as [->|Hne].
  - now destruct (Z.eq_dec x x).
  - cbn [count_occ]. destruct (Z.eq_dec h x); [contradiction|].
    apply IH. destruct Hin; [contradiction | assumption].
Qed.

Lemma remove_first_count_other x y l :
  x <> y -> count_occ Z.eq_dec (remove_first x l) y = count_occ Z.eq_dec l y.
Proof.
  intros Hxy. induction l as [|h t IH]; [reflexivity|].
  cbn [remove_first count_occ].
  destruct (Z.eqb_spec h x) as [->|Hne].
  - now destruct (Z.eq_dec x y).
  - cbn [count_occ]. now rewrite IH.
Qed.

Lemma remove_first_filter (P : Z -> bool) x l :
  P x = false -> filter P (remove_first x l) = filter P l.
Proof.
  intros HP. induction l as [|h t IH]; [reflexivity|].
  cbn [remove_first filter].
  destruct (Z.eqb_spec h x) as [->|Hne].
  - now rewrite HP.
  - cbn [filter]. now rewrite IH.
Qed.

Lemma filter_all_below c l :
  (forall x, (x > c)%Z -> count_occ Z.eq_dec l x = 0%nat) ->
  filter (fun x => (x <=? c)%Z) l = l.
Proof.
  induction l as [|h t IH]; intros H; [reflexivity|]. cbn [filter].
  destruct (Z.leb_spec h c) as [Hle|Hgt].
  - f_equal. apply IH. intros x Hx. specialize (H x Hx). cbn [count_occ] in H.
    destruct (Z.eq_dec h x); [discriminate | assumption].
  - specialize (H h ltac:(lia)). cbn [count_occ] in H.
    destruct (Z.eq_dec h h); [discriminate | contradiction].
Qed.

Lemma drop_forced_loop c :
  forall todo acc,
    (forall x, (x > c)%Z -> count_occ Z.eq_dec todo x = count_occ Z.eq_dec acc x) ->
    fold_left
      (fun acc i => if (i >? c)%Z then remove_first i acc else acc) todo acc
    = filter (fun x => (x <=? c)%Z) acc.
Proof.
  induction todo as [|i t IH]; intros acc H; cbn [fold_left].
  - symmetry. apply filter_all_below. intros x Hx. now rewrite <- H.
  - destruct (Z.gtb_spec i c) as [Hgt|Hle].
    + rewrite IH.
      * apply remove_first_filter. apply Z.leb_gt. lia.
      * intros x Hx. specialize (H x Hx). cbn [count_occ] in H.
        destruct (Z.eq_dec i x) as [->|Hne].
        -- assert (Hin : In x acc).
           { apply (count_occ_In Z.eq_dec). lia. }
           pose proof (remove_first_count_same x acc Hin). lia.
        -- now rewrite remove_first_count_other.
    + apply IH. intros x Hx. specialize (H x Hx). cbn [count_occ] in H.
      destruct (Z.eq_dec i x); [lia | assumption].
Qed.

Lemma drop_forced_above_eq c forced :
  drop_forced_above c forced = filter (fun x => (x <=? c)%Z) forced.
Proof. unfold drop_forced_above. now apply drop_forced_loop. Qed.

(** X16. The cleanup of the forced indents at the end of a line's evaluation
    (a loop over a copy that removes from the list itself) keeps exactly the
    forced values that do not exceed the closing balance, in their order. *)
Theorem drop_forced_above_filter (closing_balance : Z) (forced_indents : list Z) :
  drop_forced_above closing_balance forced_indents
  = filter (fun x => (x <=? closing_balance)%Z) forced_indents.
Proof. apply drop_forced_above_eq. Qed.

Lemma force_indent_at_frame elems fixes i desired elems' fixes' :
  force_indent_at elems fixes i desired = Ok (elems', fixes') ->
  length elems' = length elems
  /\ forall j, j <> i -> nth_error elems' j = nth_error elems j.
Proof.
  unfold force_indent_at. intros H. inv_bind H. inv_bind H.
  destruct a0 as [new_fixes new_point]. injection H as <- _.
  split; [apply py_set_length|]. intros j Hj. apply py_set_nth_other. congruence.
Qed.

Lemma way_down_loop_frame single_indent forced :
  forall ips elems fixes elems' fixes',
    way_down_loop single_indent forced ips elems fixes = Ok (elems', fixes') ->
    length elems' = length elems
    /\ forall j, (forall ip, In ip ips -> idx ip <> j) ->
                 nth_error elems' j = nth_error elems j.
Proof.
  induction ips as [|ip ips IH]; intros elems fixes elems' fixes' H;
    cbn [way_down_loop] in H.
  - injection H as <- _. now split.
  - assert (Hskip : way_down_loop single_indent forced ips elems fixes
                    = Ok (elems', fixes') ->
                    length elems' = length elems
                    /\ forall j, (forall ip0, In ip0 (ip :: ips) -> idx ip0 <> j) ->
                                 nth_error elems' j = nth_error elems j).
    { intros H'. destruct (IH _ _ _ _ H') as [Hlen Hfr]. split; [exact Hlen|].
      intros j Hj. apply Hfr. intros ip0 Hin. apply Hj. now right. }
    destruct (is_line_break ip || (indent_impulse ip >=? 0)%Z); [now apply Hskip|].
    destruct (mem_Z _ _ && negb _); [now apply Hskip|].
    inv_bind H. inv_bind H. destruct a0 as [elems1 fixes1].
    apply force_indent_at_frame in Hm0. destruct Hm0 as [Hlen1 Hfr1].
    destruct (IH _ _ _ _ H) as [Hlen Hfr]. split; [congruence|].
    intros j Hj. rewrite Hfr by (intros ip0 Hin; apply Hj; now right).
    apply Hfr1. intros ->. now apply (Hj ip (or_introl eq_refl)).
Qed.

Lemma evaluate_frame_aux (elems elems' : ReflowSequenceType)
  (indent_line : _IndentLine) (single_indent : string)
  (forced_indents forced_indents' : list Z) (fixes : list LintFix) :
  _evaluate_indent_point_buffer elems indent_line single_indent forced_indents
  = Ok (elems', forced_indents', fixes) ->
  length elems' = length elems
  /\ (forall j, (forall ip, In ip (line_indent_points indent_line) -> idx ip <> j) ->
                nth_error elems' j = nth_error elems j)
  /\ exists last,
       py_last (line_indent_points indent_line) = Ok last
       /\ Forall (fun x => (x <= closing_indent_balance last)%Z) forced_indents'.
Proof.
  unfold _evaluate_indent_point_buffer. intros H.
  destruct (py_nth (line_indent_points indent_line) 0) as [first|e] eqn:Hfirst;
    [|discriminate].
  cbn [bind] in H.
  apply bind_Ok_inv in H. destruct H as (ln & _ & H).
  destruct (py_last (line_indent_points indent_line)) as [last|e] eqn:Hlast;
    [|discriminate].
  cbn [bind] in H.
  apply bind_Ok_inv in H. destruct H as (current_indent & _ & H).
  apply bind_Ok_inv in H. destruct H as (units & _ & H).
  apply bind_Ok_inv in H. destruct H as (initial_point & _ & H).
  apply bind_Ok_inv in H. destruct H as ([elems1 fixes1] & Hstart & H).
  apply bind_Ok_inv in H. destruct H as ([[elems2 fixes2] forced2] & Hbreaks & H).
  injection H as <- <- <-.
  assert (Hfirst_in : In first (line_indent_points indent_line)).
  { unfold py_nth in Hfirst.
    destruct (line_indent_points indent_line) as [|p ps]; [discriminate|].
    cbn in Hfirst. injection Hfirst as <-. now left. }
  assert (H1 : length elems1 = length elems
               /\ forall j, j <> idx first -> nth_error elems1 j = nth_error elems j).
  { destruct (match current_indent with Some c => _ | None => true end).
    - apply bind_Ok_inv in Hstart.
      destruct Hstart as ([new_fixes new_point] & _ & Hstart).
      injection Hstart as <- _.
      split; [apply py_set_length|]. intros j Hj. apply py_set_nth_other. congruence.
    - injection Hstart as <- _. now split. }
  destruct H1 as [Hlen1 Hfr1].
  assert (H2 : length elems2 = length elems1
               /\ forall j, (forall ip, In ip (line_indent_points indent_line) ->
                                        idx ip <> j) ->
                            nth_error elems2 j = nth_error elems1 j).
  { destruct (closing_indent_balance last >? line_initial_indent_balance indent_line)%Z.
    - destruct (mem_Z _ _); [|injection Hbreaks as <- _ _; now split].
      unfold way_up, way_up_search in Hbreaks.
      destruct (find _ (line_indent_points indent_line)) as [ip|] eqn:Hfind;
        [|discriminate].
      apply find_some in Hfind. destruct Hfind as [Hin _].
      apply bind_Ok_inv in Hbreaks. destruct Hbreaks as (ln' & _ & Hbreaks).
      apply bind_Ok_inv in Hbreaks. destruct Hbreaks as ([elems3 fixes3] & Hforce & Hbreaks).
      injection Hbreaks as <- _ _.
      apply force_indent_at_frame in Hforce. destruct Hforce as [Hl Hf].
      split; [exact Hl|]. intros j Hj. apply Hf. intros ->. now apply (Hj ip Hin).
    - destruct (closing_indent_balance last <? line_initial_indent_balance indent_line)%Z;
        [|injection Hbreaks as <- _ _; now split].
      apply bind_Ok_inv in Hbreaks. destruct Hbreaks as ([elems3 fixes3] & Hdown & Hbreaks).
      injection Hbreaks as <- _ _.
      apply way_down_loop_frame in Hdown. destruct Hdown as [Hl Hf].
      split; [exact Hl|]. intros j Hj. apply Hf. intros ip Hin. apply Hj.
      clear - Hin. induction (line_indent_points indent_line) as [|p [|q ps] IH];
        cbn [removelast] in Hin; try contradiction.
      destruct Hin as [<-|Hin]; [now left | right; now apply IH]. }
  destruct H2 as [Hlen2 Hfr2].
  split; [congruence|]. split.
  - intros j Hj. rewrite (Hfr2 j Hj). apply Hfr1. intros ->.
    now apply (Hj first Hfirst_in).
  - exists last. split; [reflexivity|].
    rewrite drop_forced_above_eq. apply Forall_forall. intros x Hx.
    apply filter_In in Hx. lia.
Qed.

(** X17. The frame of a line's evaluation: when
    [_evaluate_indent_point_buffer] returns, the working buffer has the length
    it had, every element whose index is not the index of one of the line's
    indent points is untouched, and no forced indent left in the list exceeds
    the closing balance of the line's last point. *)
Theorem evaluate_line_frame (elems elems' : ReflowSequenceType)
  (indent_line : _IndentLine) (single_indent : string)
  (forced_indents forced_indents' : list Z) (fixes : list LintFix) :
  _evaluate_indent_point_buffer elems indent_line single_indent forced_indents
  = Ok (elems', forced_indents', fixes) ->
  length elems' = length elems
  /\ (forall j, (forall ip, In ip (line_indent_points indent_line) -> idx ip <> j) ->
                nth_error elems' j = nth_error elems j)
  /\ exists last,
       py_last (line_indent_points indent_line) = Ok last
       /\ Forall (fun x => (x <= closing_indent_balance last)%Z) forced_indents'.
Proof. apply evaluate_frame_aux. Qed.

(** ** The indent pass: blocks are never touched *)

Lemma map_eq_In {A B : Type} (f : A -> B) :
  forall l1 l2 x,
    map f l1 = map f l2 -> In x l1 -> exists y, In y l2 /\ f x = f y.
Proof.
  induction l1 as [|a l1 IH]; intros [|b l2] x Hmap Hin; try discriminate;
    [contradiction|].
  cbn in Hmap. injection Hmap as Hab Hmap. destruct Hin as [<-|Hin].
  - exists b. split; [now left | exact Hab].
  - destruct (IH l2 x Hmap Hin) as (y & Hy & Hxy). exists y. split; [now right | exact Hxy].
Qed.

Lemma evaluate_lines_frame single_indent :
  forall lines buf forced fixes buf' fixes',
    evaluate_lines single_indent lines buf forced fixes = Ok (buf', fixes') ->
    length buf' = length buf
    /\ forall j,
         (forall line ip, In line lines -> In ip (line_indent_points line) ->
                          idx ip <> j) ->
         nth_error buf' j = nth_error buf j.
Proof.
  induction lines as [|line lines IH]; intros buf forced fixes buf' fixes' H;
    cbn [evaluate_lines] in H.
  - injection H as <- _. now split.
  - apply bind_Ok_inv in H. destruct H as ([[buf1 forced1] new_fixes] & Hline & H).
    apply evaluate_frame_aux in Hline. destruct Hline as (Hlen1 & Hfr1 & _).
    destruct (IH _ _ _ _ _ H) as [Hlen Hfr]. split; [congruence|].
    intros j Hj. rewrite Hfr by (intros l ip Hl; apply Hj; now right).
    apply Hfr1. intros ip Hip. apply (Hj line ip); [now left | exact Hip].
Qed.

(** X18. The indent pass never touches a block: when [lint_indent_points]
    returns, the buffer has as many elements as the input, and every block of
    the input sits unchanged at its index; only points are rewritten. *)
Theorem lint_indent_points_keeps_blocks (elems elems' : ReflowSequenceType)
  (single_indent : string) (fixes : list LintFix) :
  lint_indent_points elems single_indent = Ok (elems', fixes) ->
  length elems' = length elems
  /\ forall j e,
       nth_error elems j = Some e -> is_point e = false ->
       nth_error elems' j = Some e.
Proof.
  unfold lint_indent_points. intros H.
  apply bind_Ok_inv in H. destruct H as (lines0 & Hmap & H).
  apply bind_Ok_inv in H. destruct H as (lines1 & Htempl & H).
  apply bind_Ok_inv in H. destruct H as (lines2 & Hcomm & H).
  apply map_line_buffers_shape in Hmap. destruct Hmap as [Hshape _].
  apply revise_templated_lines_points in Htempl.
  apply revise_comment_lines_points in Hcomm. destruct Hcomm as [Hcomm _].
  apply evaluate_lines_frame in H. destruct H as [Hlen Hfr].
  split; [exact Hlen|]. intros j e Hj Hblock.
  rewrite Hfr; [exact Hj|].
  intros line2 ip Hl2 Hip Heq.
  destruct (map_eq_In line_indent_points _ _ _ Hcomm Hl2) as (line1 & Hl1 & E21).
  destruct (map_eq_In line_indent_points _ _ _ Htempl Hl1) as (line0 & Hl0 & E10).
  rewrite Forall_forall in Hshape. destruct (Hshape line0 Hl0) as (_ & Hincl & _).
  rewrite E21, E10 in Hip. apply Hincl in Hip.
  destruct (@crawl_loop_located elems elems [] crawl_init eq_refl) as [Hloc _].
  rewrite Forall_forall in Hloc. destruct (Hloc ip Hip) as (_ & segs & Hnth & _).
  rewrite Heq, Hj in Hnth. injection Hnth as ->. discriminate.
Qed.

(** ** [respace]: what it keeps *)

Lemma SegType_eqb_refl t : SegType_eqb t t = true.
Proof. now destruct t. Qed.

Lemma option_nat_eqb_refl o : option_nat_eqb o o = true.
Proof. destruct o; cbn; [apply Nat.eqb_refl | reflexivity]. Qed.

Lemma RawSegment_eqb_refl seg : RawSegment_eqb seg seg = true.
Proof.
  unfold RawSegment_eqb.
  now rewrite SegType_eqb_refl, String.eqb_refl, Z.eqb_refl, !option_nat_eqb_refl.
Qed.

Lemma ReflowElement_eqb_refl e : ReflowElement_eqb e e = true.
Proof.
  unfold ReflowElement_eqb. rewrite eqb_reflx. cbn [andb].
  induction (segments e) as [|s l IH]; cbn; [reflexivity|].
  now rewrite RawSegment_eqb_refl, IH.
Qed.

(** X19. [respace] needs a point: on a sequence without any point (for a
    validated sequence, a single block) it raises [AssertionError], whatever
    the filter and the point respacer are. *)
Theorem respace_without_points (self : ReflowSequence) (strip_newlines : bool)
  (filter_ : string) :
  forallb (fun e => negb (is_point e)) (elements self) = true ->
  respace self strip_newlines filter_ = Raise AssertionError.
Proof.
  intros Hblocks. unfold respace.
  destruct (existsb (String.eqb filter_) _); [|reflexivity]. cbn [assert bind].
  assert (Hloop : forall rest i fixes,
             forallb (fun e => negb (is_point e)) rest = true ->
             respace_loop (root_segment self) strip_newlines filter_ (elements self)
               i rest fixes [] = (fixes, [])).
  { induction rest as [|elem rest IH]; intros i fixes Hrest; cbn [respace_loop];
      [reflexivity|].
    cbn [forallb] in Hrest. apply andb_true_iff in Hrest. destruct Hrest as [He Hrest].
    destruct elem; [discriminate | now apply IH]. }
  rewrite (Hloop _ _ _ Hblocks). reflexivity.
Qed.

Lemma Forall2_snoc_inv {A B : Type} (R : A -> B -> Prop) :
  forall l1 a l2,
    Forall2 R (l1 ++ [a]) l2 ->
    exists l2' b, l2 = l2' ++ [b] /\ Forall2 R l1 l2' /\ R a b.
Proof.
  intros l1 a l2 H. apply Forall2_app_inv_l in H.
  destruct H as (l2' & l2'' & H1 & H2 & ->).
  inversion H2 as [|a' b l'' l2t Hab Hnil]; subst.
  inversion Hnil; subst. now exists l2', b.
Qed.

Lemma respace_loop_keeps_blocks (root : BaseSegment) (strip_newlines : bool)
  (filter_ : string) (all : ReflowSequenceType) :
  forall rest pre ne fixes fixes' ne' kr,
    all = pre ++ rest ->
    alternates_from kr rest ->
    ((ne = [] /\ (pre = [] \/ exists b, pre = [b] /\ is_point b = false /\ kr = true))
     \/ (exists pre0 b, pre = pre0 ++ [b] /\ is_point b = false /\ kr = true
                        /\ Forall2 (fun a c => is_point a = false -> c = a) pre ne)
     \/ (exists pre0 p, pre = pre0 ++ [p] /\ is_point p = true /\ kr = false
                        /\ Forall2 (fun a c => is_point a = false -> c = a)
                             (pre ++ firstn 1 rest) ne)) ->
    respace_loop root strip_newlines filter_ all (length pre) rest fixes ne
    = (fixes', ne') ->
    (ne' = [] /\ forallb (fun e => negb (is_point e)) all = true)
    \/ Forall2 (fun a c => is_point a = false -> c = a) all ne'.
Proof.
  induction rest as [|elem rest IH]; intros pre ne fixes fixes' ne' kr Hall Halt Hinv H;
    cbn [respace_loop] in H.
  - injection H as _ <-. rewrite app_nil_r in Hall. subst all.
    destruct Hinv as [[-> [-> | (b & -> & Hb & _)]] | [(pre0 & b & _ & _ & _ & HF)
                                                      | (pre0 & p & _ & _ & _ & HF)]].
    + left. now split.
    + left. split; [reflexivity|]. cbn. now rewrite Hb.
    + now right.
    + right. cbn [firstn] in HF. now rewrite app_nil_r in HF.
  - destruct Halt as [Hk Halt].
    assert (Hnext : all = (pre ++ [elem]) ++ rest) by now rewrite <- app_assoc.
    assert (Hlen : length (pre ++ [elem]) = S (length pre))
      by (rewrite length_app; cbn; lia).
    destruct elem as [segs|segs]; cbn [is_point] in Hk; subst kr.
    + (* a point *)
      destruct (respace_loop_body root strip_newlines filter_ segs
                  match length pre with O => None | S j => nth_error all j end
                  (nth_error all (S (length pre))) fixes ne)
        as [fixes1 ne1] eqn:Hbody.
      rewrite <- Hlen in H.
      apply (IH _ _ _ _ _ _ Hnext Halt) in H; [exact H|].
      right. right. exists pre, (ReflowPoint segs).
      split; [reflexivity|]. split; [reflexivity|]. split; [reflexivity|].
      assert (Hpost : nth_error all (S (length pre)) = hd_error rest).
      { rewrite Hnext, nth_error_app2 by lia. rewrite Hlen, Nat.sub_diag.
        now destruct rest. }
      unfold respace_loop_body in Hbody.
      destruct (respace_point segs _ _ root fixes strip_newlines)
        as [new_fixes new_point].
      rewrite Hpost in Hbody.
      set (np := if (if _ : bool then String.eqb filter_ "inline"
                     else String.eqb filter_ "newline")
                 then ReflowPoint segs else new_point) in Hbody.
      assert (Htail : Forall2 (fun a c => is_point a = false -> c = a)
                        ([ReflowPoint segs] ++ firstn 1 rest)
                        ([np] ++ match hd_error rest with
                                 | Some p => [p]
                                 | None => []
                                 end)).
      { constructor; [discriminate|].
        destruct rest as [|r rest']; cbn; repeat constructor. }
      destruct Hinv as [[-> [-> | (b & -> & Hb & _)]]
                       | [(pre0 & b & -> & Hb & _ & HF)
                         | (pre0 & p & _ & _ & Habs & _)]];
        [| | |discriminate].
      * cbn [length] in Hbody. cbn [app rev] in Hbody.
        injection Hbody as _ <-. cbn [app].
        destruct rest as [|r rest']; cbn; repeat constructor; discriminate.
      * cbn [length] in Hbody. rewrite Hall in Hbody. cbn [app nth_error rev] in Hbody.
        injection Hbody as _ <-. cbn [app].
        destruct rest as [|r rest']; cbn; repeat constructor; discriminate.
      * rewrite length_app in Hbody. cbn [length] in Hbody.
        replace (length pre0 + 1)%nat with (S (length pre0)) in Hbody by lia.
        assert (Hpre : nth_error all (length pre0) = Some b).
        { rewrite Hall, <- !app_assoc, nth_error_app2 by lia.
          now rewrite Nat.sub_diag. }
        rewrite Hpre in Hbody.
        apply Forall2_snoc_inv in HF. destruct HF as (ne0 & b' & -> & HF0 & Hbb).
        rewrite (Hbb Hb) in Hbody.
        rewrite rev_app_distr in Hbody. cbn [rev app] in Hbody.
        rewrite ReflowElement_eqb_refl in Hbody. cbn [negb] in Hbody.
        injection Hbody as _ <-.
        destruct rest as [|r rest']; cbn [hd_error firstn];
          rewrite <- !app_assoc; (apply Forall2_app; [exact HF0|]);
          cbn [app]; repeat constructor; discriminate.
    + (* a block *)
      rewrite <- Hlen in H.
      apply (IH _ _ _ _ _ _ Hnext Halt) in H; [exact H|].
      destruct Hinv as [[-> [-> | (b & -> & Hb & Habs)]]
                       | [(pre0 & b & _ & _ & Habs & _)
                         | (pre0 & p & -> & Hp & _ & HF)]];
        try discriminate.
      * left. split; [reflexivity|]. right. exists (ReflowBlock segs).
        split; [reflexivity|]. split; [reflexivity|]. reflexivity.
      * right. left. exists (pre0 ++ [p]), (ReflowBlock segs).
        split; [reflexivity|]. split; [reflexivity|]. split; [reflexivity|].
        exact HF.
Qed.

Lemma Forall2_blocks_nth (l1 l2 : ReflowSequenceType) :
  Forall2 (fun a c => is_point a = false -> c = a) l1 l2 ->
  forall j e, nth_error l1 j = Some e -> is_point e = false -> nth_error l2 j = Some e.
Proof.
  induction 1 as [|a c l1 l2 Hac HF IH]; intros [|j] e Hj Hblock; cbn in Hj |- *;
    try discriminate.
  - injection Hj as ->. now rewrite (Hac Hblock).
  - now apply IH.
Qed.

(** X20. [respace] keeps the blocks: when it returns on a validated sequence,
    the new sequence has as many elements as the old one and every block of
    the old sequence sits unchanged at its index; only points are replaced. *)
Theorem respace_keeps_blocks (self s' : ReflowSequence) (strip_newlines : bool)
  (filter_ : string) :
  _validate_reflow_sequence (elements self) = Ok tt ->
  respace self strip_newlines filter_ = Ok s' ->
  length (elements s') = length (elements self)
  /\ forall j e,
       nth_error (elements self) j = Some e -> is_point e = false ->
       nth_error (elements s') j = Some e.
Proof.
  intros Hvalid H. unfold respace in H.
  apply bind_Ok_inv in H. destruct H as (u & _ & H).
  destruct (respace_loop _ _ _ _ _ _ _ _) as [fixes ne] eqn:Hloop.
  apply init_inv in H. destruct H as [Hv ->]. cbn [elements].
  apply validate_alternates in Hvalid. destruct Hvalid as (k & Halt & _).
  apply (@respace_loop_keeps_blocks _ _ _ (elements self) (elements self) [] []
           _ _ _ k eq_refl Halt) in Hloop; [|left; split; [reflexivity | now left]].
  destruct Hloop as [[-> _]|HF]; [discriminate|].
  split; [symmetry; now apply Forall2_length in HF|].
  intros j e Hj Hblock. exact (Forall2_blocks_nth HF j Hj Hblock).
Qed.

(** ** [from_around_target]: the run of segments it takes *)

Lemma py_index_from_bound {A : Type} (eqb : A -> A -> bool) (x : A) :
  forall l i0 i,
    py_index_from eqb x l i0 = Ok i -> (i0 <= i < i0 + length l)%nat.
Proof.
  induction l as [|h t IH]; intros i0 i H; cbn [py_index_from] in H; [discriminate|].
  cbn [length]. destruct (eqb h x).
  - injection H as <-. lia.
  - apply IH in H. lia.
Qed.

Lemma py_slice_Z_nat {A : Type} (l : list A) (a b : nat) :
  py_slice_Z l (Z.of_nat a) (Z.of_nat b) = py_slice l a b.
Proof.
  unfold py_slice_Z, py_slice.
  replace (Z.of_nat a <? 0)%Z with false by (symmetry; apply Z.ltb_ge; lia).
  replace (Z.of_nat b <? 0)%Z with false by (symmetry; apply Z.ltb_ge; lia).
  replace (Z.to_nat (Z.min (Z.of_nat a) (Z.of_nat (length l))))
    with (Nat.min a (length l)) by lia.
  replace (Z.to_nat (Z.min (Z.of_nat b) (Z.of_nat (length l))))
    with (Nat.min b (length l)) by lia.
  destruct (Nat.le_gt_cases (length l) a) as [Hge|Hlt].
  - rewrite !skipn_all2 by lia. now rewrite !firstn_nil.
  - replace (Nat.min a (length l)) with a by lia.
    destruct (Nat.le_gt_cases b (length l)) as [Hb|Hb].
    + now replace (Nat.min b (length l)) with b by lia.
    + replace (Nat.min b (length l)) with (length l) by lia.
      rewrite !firstn_all2; [reflexivity | |]; rewrite length_skipn; lia.
Qed.

Lemma hunt_backward_spec all_raws :
  forall j,
    (j < length all_raws)%nat ->
    exists k,
      hunt_backward all_raws j = Ok k
      /\ (k <= j)%nat
      /\ (k = 0%nat
          \/ exists seg, nth_error all_raws k = Some seg /\ is_code seg = true).
Proof.
  induction j as [|j IH]; intros Hj; cbn [hunt_backward]; unfold py_nth.
  - destruct (nth_error all_raws 0) as [seg|] eqn:Hnth;
      [|apply nth_error_None in Hnth; lia].
    cbn [bind]. exists 0%nat. destruct (is_code seg); auto.
  - destruct (nth_error all_raws (S j)) as [seg|] eqn:Hnth;
      [|apply nth_error_None in Hnth; lia].
    cbn [bind]. destruct (is_code seg) eqn:Hcode.
    + exists (S j). split; [reflexivity|]. split; [lia|]. right. now exists seg.
    + destruct (IH ltac:(lia)) as (k & Hk & Hle & Hor).
      exists k. split; [exact Hk|]. split; [lia | exact Hor].
Qed.

Lemma hunt_forward_lower lo :
  forall rest i cur,
    (lo <= i)%nat -> (lo <= cur)%nat -> (lo <= hunt_forward rest i cur)%nat.
Proof.
  induction rest as [|seg rest IH]; intros i cur Hi Hcur; cbn [hunt_forward];
    [exact Hcur|].
  destruct (is_code seg); [exact Hi | apply IH; lia].
Qed.

Lemma from_raw_segments_nonempty segs root config :
  segs <> [] ->
  exists s,
    from_raw_segments segs root config = Ok s
    /\ flat_map segments (elements s) = segs
    /\ embodied_fixes s = [].
Proof.
  intros Hne. destruct segs as [|seg segs]; [contradiction|].
  unfold from_raw_segments, ReflowSequence_init.
  destruct (elements_from_raw_alternates (seg :: segs)) as [k Halt].
  rewrite (@alternates_valid _ k Halt (@elements_from_raw_nonempty seg segs)).
  cbn [bind]. eexists. split; [reflexivity|]. cbn [elements embodied_fixes].
  split; [apply elements_from_raw_flat | reflexivity].
Qed.

(** X21. [from_around_target] with [sides = "both"], for a target that does
    not start at the first raw segment of the root and whose last raw segment
    is not found before its first: the call returns a sequence with no fix
    whose segments are the slice [all_raws[p:q]] of the root's raw segments,
    where [p] lies before the target and is the index of a code segment (or 0),
    and [q] lies at least one past the end of the target. *)
Theorem from_around_target_both (target_segment root : BaseSegment)
  (config : ReflowConfig) (first_raw last_raw : RawSegment) (j last_idx : nat) :
  py_nth (raw_segments target_segment) 0 = Ok first_raw ->
  py_index RawSegment_eqb first_raw (raw_segments root) = Ok (S j) ->
  py_last (raw_segments target_segment) = Ok last_raw ->
  py_index RawSegment_eqb last_raw (raw_segments root) = Ok last_idx ->
  (S j <= last_idx)%nat ->
  exists s p q,
    from_around_target target_segment root config "both" = Ok s
    /\ embodied_fixes s = []
    /\ flat_map segments (elements s) = py_slice (raw_segments root) p q
    /\ (p <= j)%nat /\ (last_idx + 2 <= q)%nat
    /\ (p = 0%nat
        \/ exists seg, nth_error (raw_segments root) p = Some seg
                       /\ is_code seg = true).
Proof.
  intros Hfirst Hpre Hlast Hpost Horder.
  pose proof (py_index_from_bound _ _ _ _ Hpre) as Hb.
  destruct (@hunt_backward_spec (raw_segments root) j ltac:(lia))
    as (k & Hk & Hle & Hcode).
  unfold from_around_target.
  assert (Hraws : nonempty (raw_segments target_segment) = true).
  { destruct (raw_segments target_segment); [discriminate Hfirst | reflexivity]. }
  rewrite Hraws. cbn [assert bind].
  rewrite Hfirst; cbn [bind]. rewrite Hpre; cbn [bind].
  rewrite Hlast; cbn [bind]. rewrite Hpost; cbn [bind].
  cbn [existsb String.eqb Ascii.eqb Bool.eqb andb orb].
  rewrite Hk; cbn [bind].
  set (q := (hunt_forward (skipn (last_idx + 1) (raw_segments root))
               (last_idx + 1) (last_idx + 1) + 1)%nat).
  assert (Hq : (last_idx + 2 <= q)%nat).
  { unfold q.
    pose proof (@hunt_forward_lower (last_idx + 1)
                  (skipn (last_idx + 1) (raw_segments root))
                  (last_idx + 1) (last_idx + 1) (Nat.le_refl _) (Nat.le_refl _)).
    lia. }
  rewrite py_slice_Z_nat.
  destruct (@from_raw_segments_nonempty (py_slice (raw_segments root) k q) root config)
    as (s & Hs & Hflat & Hfix).
  { unfold py_slice. intros Habs.
    apply (f_equal (@length _)) in Habs.
    rewrite length_firstn, length_skipn in Habs. cbn [length] in Habs. lia. }
  exists s, k, q. repeat split; assumption.
Qed.

(** X22. [from_around_target] on a target that starts at the very first raw
    segment of the root, with [sides] "both" or "before": the hunt backward
    leaves [pre_idx = -1], the slice [all_raws[-1:post_idx]] is empty as long
    as [post_idx] stays below the number of raw segments, and the call fails
    with the constructor's [AssertionError]. *)
Theorem from_around_target_at_start (target_segment root : BaseSegment)
  (config : ReflowConfig) (sides : string) (first_raw last_raw : RawSegment)
  (last_idx : nat) :
  py_nth (raw_segments target_segment) 0 = Ok first_raw ->
  py_index RawSegment_eqb first_raw (raw_segments root) = Ok 0%nat ->
  py_last (raw_segments target_segment) = Ok last_raw ->
  py_index RawSegment_eqb last_raw (raw_segments root) = Ok last_idx ->
  existsb (String.eqb sides) ["both"; "before"]%string = true ->
  ((if existsb (String.eqb sides) ["both"; "after"]%string
    then hunt_forward (skipn (last_idx + 1) (raw_segments root))
           (last_idx + 1) (last_idx + 1) + 1
    else last_idx + 1) < length (raw_segments root))%nat ->
  from_around_target target_segment root config sides = Raise AssertionError.
Proof.
  intros Hfirst Hpre Hlast Hpost Hsides Hbound.
  unfold from_around_target.
  assert (Hraws : nonempty (raw_segments target_segment) = true).
  { destruct (raw_segments target_segment); [discriminate Hfirst | reflexivity]. }
  rewrite Hraws. cbn [assert bind].
  rewrite Hfirst; cbn [bind]. rewrite Hpre; cbn [bind].
  rewrite Hlast; cbn [bind]. rewrite Hpost; cbn [bind].
  rewrite Hsides. cbn [bind].
  set (post := if existsb (String.eqb sides) ["both"; "after"]%string
               then _ else _) in *.
  assert (Hslice : py_slice_Z (raw_segments root) (-1) (Z.of_nat post) = []).
  { unfold py_slice_Z, py_slice.
    replace (-1 <? 0)%Z with true by reflexivity.
    replace (Z.of_nat post <? 0)%Z with false by (symmetry; apply Z.ltb_ge; lia).
    replace (Z.to_nat (Z.min (Z.of_nat post) (Z.of_nat (length (raw_segments root)))))
      with post by lia.
    replace (post - _)%nat with 0%nat by lia. reflexivity. }
  rewrite Hslice. reflexivity.
Qed.

(** ** [deduce_line_indent] *)

Lemma py_index_from_app {A : Type} (eqb : A -> A -> bool) (x y : A) :
  forall l1 l2 i0,
    (forall z, In z l1 -> eqb z x = false) ->
    eqb y x = true ->
    py_index_from eqb x (l1 ++ y :: l2) i0 = Ok (i0 + length l1)%nat.
Proof.
  induction l1 as [|h t IH]; intros l2 i0 Hno Hy; cbn [app py_index_from length].
  - rewrite Hy. f_equal. lia.
  - rewrite (Hno h (or_introl eq_refl)).
    rewrite IH by (intros z Hz; apply Hno; now right) || assumption.
    f_equal. lia.
Qed.

Lemma deduce_scan_reaches ws nl tail :
  is_code ws = false -> is_type ws [whitespace] = true ->
  is_code nl = false -> is_type nl [newline] = true ->
  forall l acc,
    (forall s, In s l ->
               is_code s = true \/ is_type s [whitespace] = true
               \/ is_type s [newline] = false) ->
    deduce_scan (l ++ ws :: nl :: tail) acc = Some ws.
Proof.
  intros Hws1 Hws2 Hnl1 Hnl2.
  assert (Hnl3 : is_type nl [whitespace] = false).
  { unfold is_type in *. cbn in *. now destruct (seg_type nl). }
  induction l as [|s l IH]; intros acc Hl; cbn [app deduce_scan].
  - now rewrite Hws1, Hws2, Hnl1, Hnl3, Hnl2.
  - assert (Hrest : forall s', In s' l ->
               is_code s' = true \/ is_type s' [whitespace] = true
               \/ is_type s' [newline] = false)
      by (intros s' Hs'; apply Hl; now right).
    destruct (is_code s) eqn:Hc; [now apply IH|].
    destruct (is_type s [whitespace]) eqn:Hw; [now apply IH|].
    destruct (Hl s (or_introl eq_refl)) as [H|[H|H]]; try congruence.
    rewrite H. now apply IH.
Qed.

(** X23. [deduce_line_indent] on a line that starts with whitespace: when the
    root's raw segments read ... newline, whitespace [ws], then segments none of
    which is a (non-code, non-whitespace) newline, up to the given segment, the
    deduced indent is the raw text of [ws], whatever comes before the newline
    and after the segment. *)
Theorem deduce_line_indent_leading_whitespace (root : BaseSegment)
  (pre mid post : list RawSegment) (nl ws seg : RawSegment) :
  raw_segments root = pre ++ nl :: ws :: mid ++ seg :: post ->
  (forall s, In s (pre ++ nl :: ws :: mid) -> RawSegment_eqb s seg = false) ->
  is_code nl = false -> is_type nl [newline] = true ->
  is_code ws = false -> is_type ws [whitespace] = true ->
  (forall s, In s (mid ++ [seg]) ->
             is_code s = true \/ is_type s [whitespace] = true
             \/ is_type s [newline] = false) ->
  deduce_line_indent seg root = Ok (raw ws).
Proof.
  intros Hraws Hfirst Hnl1 Hnl2 Hws1 Hws2 Hmid.
  unfold deduce_line_indent, py_index. rewrite Hraws.
  replace (pre ++ nl :: ws :: mid ++ seg :: post)
    with ((pre ++ nl :: ws :: mid) ++ seg :: post)
    by (rewrite <- app_assoc; reflexivity).
  rewrite (@py_index_from_app _ RawSegment_eqb seg seg _ post 0 Hfirst
             (RawSegment_eqb_refl seg)).
  cbn [bind Nat.add].
  rewrite firstn_S_length_app.
  replace ((pre ++ nl :: ws :: mid) ++ [seg])
    with (pre ++ [nl; ws] ++ (mid ++ [seg]))
    by (rewrite <- !app_assoc; reflexivity).
  rewrite !rev_app_distr. cbn [rev app]. rewrite <- app_assoc. cbn [app].
  change (seg :: rev mid ++ ws :: nl :: rev pre)
    with ((seg :: rev mid) ++ ws :: nl :: rev pre).
  rewrite (@deduce_scan_reaches ws nl (rev pre) Hws1 Hws2 Hnl1 Hnl2); [reflexivity|].
  intros s Hs. apply Hmid. apply in_or_app.
  destruct Hs as [<-|Hs]; [right; now left | left; now apply in_rev].
Qed.

(** ** Comment reconciliation: where the balances come from *)

Lemma fold_set_balance_in v :
  forall idxs lines c l,
    In c idxs ->
    nth_error (fold_left (fun ls i => set_line_balance ls i v) idxs lines) c = Some l ->
    line_initial_indent_balance l = v.
Proof.
  intros idxs lines c l Hin. apply fold_set_balance_const. now left.
Qed.

Lemma revise_comment_loop_anchor elems lines0 :
  forall todo i cur s res bufres,
    revise_comment_loop elems todo i cur (seq s (i - s)) = Ok (res, bufres) ->
    (s <= i)%nat ->
    (forall j, (i <= j)%nat -> nth_error cur j = nth_error lines0 j) ->
    (forall k, (s <= k < i)%nat -> comment_only_at lines0 elems k) ->
    (s = 0%nat
     \/ exists l, nth_error lines0 (s - 1) = Some l
                  /\ is_all_comments l elems = Ok false) ->
    comments_anchored lines0 cur elems i ->
    exists s',
      bufres = seq s' (i + length todo - s')
      /\ (s' <= i + length todo)%nat
      /\ (forall k, (s' <= k < i + length todo)%nat -> comment_only_at lines0 elems k)
      /\ (s' = 0%nat
          \/ exists l, nth_error lines0 (s' - 1) = Some l
                       /\ is_all_comments l elems = Ok false)
      /\ comments_anchored lines0 res elems (i + length todo).
Proof.
  induction todo as [|t todo IH]; intros i cur s res bufres H Hs Hrest Hrun Hmax Hq;
    cbn [revise_comment_loop length] in *.
  - injection H as <- <-. exists s. rewrite Nat.add_0_r. auto.
  - destruct (py_nth cur i) as [line|e] eqn:Hline; [|discriminate].
    cbn [bind] in H. unfold py_nth in Hline.
    destruct (nth_error cur i) as [line'|] eqn:Hnth; [|discriminate].
    injection Hline as ->. rewrite (Hrest i (Nat.le_refl i)) in Hnth.
    replace (i + S (length todo))%nat with (S i + length todo)%nat by lia.
    destruct (is_all_comments line elems) as [[|]|e] eqn:Hcomm; [| |discriminate];
      cbn [bind] in H.
    + replace (seq s (i - s) ++ [i]) with (seq s (S i - s)) in H.
      2:{ replace (S i - s)%nat with (S (i - s)) by lia. rewrite seq_S.
          now replace (s + (i - s))%nat with i by lia. }
      apply (IH _ _ _ _ _ H); try assumption; try lia.
      * intros j Hj. apply Hrest. lia.
      * intros k Hk. destruct (Nat.eq_dec k i) as [->|Hne].
        -- now exists line.
        -- apply Hrun. lia.
      * intros c j lj l Hcj Hj Hck Hlj Hnc Hl.
        destruct (Nat.eq_dec j i) as [->|Hne]; [congruence|].
        apply (Hq c j lj l); try assumption. lia.
    + replace (@nil nat) with (seq (S i) (S i - S i)) in H
        by now rewrite Nat.sub_diag.
      apply (IH _ _ _ _ _ H); try lia.
      * intros j Hj.
        rewrite (fold_set_balance_other
                   (fun _ _ => line_initial_indent_balance line)).
        -- apply Hrest. lia.
        -- intros Hin. apply in_seq in Hin. lia.
      * right. replace (S i - 1)%nat with i by lia. now exists line.
      * intros c j lj l Hcj Hj Hck Hlj Hnc Hl.
        destruct (Nat.eq_dec j i) as [->|Hne].
        -- assert (Hcs : (s <= c)%nat).
           { destruct Hmax as [->|(lm & Hlm & Hcm)]; [lia|].
             destruct (Nat.le_gt_cases s c) as [Hle|Hgt]; [exact Hle|].
             destruct (Hck (s - 1)%nat ltac:(lia)) as (lc & Hlc & Hcc). congruence. }
           rewrite Hnth in Hlj. injection Hlj as <-.
           apply (@fold_set_balance_in _ (seq s (i - s)) cur c l); [|exact Hl].
           apply in_seq. lia.
        -- assert (Hjs : (j < s)%nat).
           { destruct (Nat.le_gt_cases s j) as [Hle|Hgt]; [|exact Hgt].
             destruct (Hrun j ltac:(lia)) as (lc & Hlc & Hcc). congruence. }
           rewrite (fold_set_balance_other
                      (fun _ _ => line_initial_indent_balance line)) in Hl.
           ++ apply (Hq c j lj l); try assumption. lia.
           ++ intros Hin. apply in_seq in Hin. lia.
Qed.

Lemma revise_comment_lines_points_loop elems lines res bufres :
  revise_comment_loop elems lines 0 lines [] = Ok (res, bufres) ->
  map line_indent_points res = map line_indent_points lines.
Proof.
  intros Hloop.
  now destruct (@revise_comment_loop_spec elems lines lines 0%nat lines [] res bufres
                  Hloop eq_refl (fun _ _ => eq_refl) (fun _ _ H _ => H)
                  (fun _ (H : In _ []) => match H with end)).
Qed.

(** X24. Where a comment-only line gets its balance: after
    [_revise_comment_lines], a comment-only line that is followed, after
    comment-only lines only, by a line that is not comment-only carries that
    line's initial indent balance; a comment-only line with only comment-only
    lines after it, up to the end, carries balance 0. *)
Theorem revise_comment_lines_anchor (lines lines' : list _IndentLine)
  (elems : ReflowSequenceType) (c : nat) (l' : _IndentLine) :
  _revise_comment_lines lines elems = Ok lines' ->
  nth_error lines' c = Some l' ->
  (forall j lj,
      (c < j)%nat ->
      (forall k, (c <= k < j)%nat -> comment_only_at lines elems k) ->
      nth_error lines j = Some lj -> is_all_comments lj elems = Ok false ->
      line_initial_indent_balance l' = line_initial_indent_balance lj)
  /\ ((forall k, (c <= k < length lines)%nat -> comment_only_at lines elems k) ->
      line_initial_indent_balance l' = 0%Z).
Proof.
  unfold _revise_comment_lines. intros H Hl'.
  destruct (revise_comment_loop elems lines 0 lines []) as [[res bufres]|e] eqn:Hloop;
    [|discriminate].
  cbn [bind] in H. injection H as <-.
  assert (Hc : (c < length lines)%nat).
  { assert (Hlen : length (fold_left (fun ls c0 => set_line_balance ls c0 0%Z) bufres res)
                   = length lines).
    { apply revise_comment_lines_points_loop in Hloop.
      apply (f_equal (@length _)) in Hloop. rewrite !length_map in Hloop.
      rewrite <- Hloop.
      pose proof (fold_set_balance_points (fun _ _ => 0%Z) bufres res) as Hpts.
      apply (f_equal (@length _)) in Hpts. now rewrite !length_map in Hpts. }
    rewrite <- Hlen. apply nth_error_Some. congruence. }
  change (@nil nat) with (seq 0 (0 - 0)) in Hloop.
  destruct (@revise_comment_loop_anchor elems lines lines 0%nat lines 0%nat res bufres
              Hloop (Nat.le_refl 0) (fun _ _ => eq_refl))
    as (s' & -> & Hs' & Hrun & Hmax & Hq).
  { intros k Hk. lia. }
  { now left. }
  { intros c0 j lj l Hcj Hj. lia. }
  cbn [Nat.add] in *. split.
  - intros j lj Hcj Hck Hlj Hnc.
    assert (Hj : (j < length lines)%nat) by (apply nth_error_Some; congruence).
    assert (Hjs : (j < s')%nat).
    { destruct (Nat.le_gt_cases s' j) as [Hle|Hgt]; [|exact Hgt].
      destruct (Hrun j ltac:(lia)) as (lc & Hlc & Hcc). congruence. }
    rewrite (fold_set_balance_other (fun _ _ => 0%Z)) in Hl'.
    + now apply (Hq c j lj l').
    + intros Hin. apply in_seq in Hin. lia.
  - intros Htrail.
    assert (Hcs : (s' <= c)%nat).
    { destruct Hmax as [->|(lm & Hlm & Hcm)]; [lia|].
      destruct (Nat.le_gt_cases s' c) as [Hle|Hgt]; [exact Hle|].
      destruct (Htrail (s' - 1)%nat ltac:(lia)) as (lc & Hlc & Hcc). congruence. }
    apply (@fold_set_balance_in _ (seq s' (length lines - s')) res c l'); [|exact Hl'].
    apply in_seq. lia.
Qed.

(** ** Validation, and when the line grouping returns *)

(** X25. What the constructor's check accepts: [_validate_reflow_sequence]
    returns exactly on the element lists that are not empty and alternate
    points and blocks (starting with either kind); on every other list it
    raises [AssertionError]. *)
Theorem validate_reflow_sequence_iff (elems : ReflowSequenceType) :
  (_validate_reflow_sequence elems = Ok tt
   <-> elems <> [] /\ exists k, alternates_from k elems)
  /\ (_validate_reflow_sequence elems = Ok tt
      \/ _validate_reflow_sequence elems = Raise AssertionError).
Proof.
  split.
  - split.
    + intros H. apply validate_alternates in H. destruct H as (k & Halt & Hne).
      split; [exact Hne | now exists k].
    + intros [Hne [k Halt]]. now apply alternates_valid with (k := k).
  - destruct elems as [|e0 t]; [now right|].
    unfold _validate_reflow_sequence.
    destruct (forallb _ (stride2 (e0 :: t))); cbn [assert bind]; [|now right].
    destruct (forallb _ (stride2_from1 (e0 :: t))); [now left | now right].
Qed.

Lemma map_line_loop_total :
  forall points lines point_buffer,
    exists r, map_line_loop points lines point_buffer = Ok r.
Proof.
  induction points as [|p ps IH]; intros lines buf; cbn [map_line_loop]; [eauto|].
  destruct (negb (is_line_break p)); [apply IH|].
  destruct (@from_points_total (buf ++ [p])) as [line ->]; [now destruct buf|].
  cbn [bind]. apply IH.
Qed.

Lemma crawl_step_raise elems i elem st e :
  crawl_step elems i elem st = Raise e ->
  e = IndexError
  /\ exists segs,
       elem = ReflowPoint segs
       /\ (forall next, nth_error elems (S i) = Some next -> segments next = []).
Proof.
  destruct elem as [segs|segs]; cbn [crawl_step]; [|discriminate].
  unfold crawl_point. destruct (get_indent_impulse segs) as [impulse trough].
  destruct (in_class_types newline (ReflowPoint segs) && _); [discriminate|].
  destruct (nonzero impulse || nonzero trough || Nat.eqb i 0); [discriminate|].
  unfold next_is_end_of_file, py_nth.
  destruct (nth_error elems (S i)) as [next|] eqn:Hnext; cbn [bind].
  - destruct (segments next) as [|s ss] eqn:Hsegs; cbn [nth_error bind].
    + intros [= <-]. split; [reflexivity|]. exists segs. split; [reflexivity|].
      intros next' [= <-]. exact Hsegs.
    + destruct (is_type s [end_of_file]); discriminate.
  - intros [= <-]. split; [reflexivity|]. exists segs. split; [reflexivity|].
    discriminate.
Qed.

Lemma crawl_loop_error elems :
  forall rest pre st e,
    elems = pre ++ rest ->
    snd (crawl_loop elems (length pre) rest st) = Some e ->
    e = IndexError
    /\ exists i segs,
         nth_error elems i = Some (ReflowPoint segs)
         /\ (forall next, nth_error elems (S i) = Some next -> segments next = []).
Proof.
  induction rest as [|elem rest IH]; intros pre st e Helems H; cbn [crawl_loop] in H;
    [discriminate|].
  destruct (crawl_step elems (length pre) elem st) as [[y st']|e'] eqn:Hstep.
  - specialize (IH (pre ++ [elem]) st' e ltac:(now rewrite <- app_assoc)).
    rewrite length_app in IH. cbn [length] in IH.
    replace (length pre + 1)%nat with (S (length pre)) in IH by lia.
    destruct (crawl_loop elems (S (length pre)) rest st') as [more err].
    cbn [snd] in *. now apply IH.
  - cbn [snd] in H. injection H as <-.
    apply crawl_step_raise in Hstep. destruct Hstep as (-> & segs & -> & Hnext).
    split; [reflexivity|]. exists (length pre), segs. split; [|exact Hnext].
    rewrite Helems, nth_error_app2 by lia. now rewrite Nat.sub_diag.
Qed.

Lemma map_line_buffers_raise elems e :
  _map_line_buffers elems = Raise e ->
  e = IndexError
  /\ exists i segs,
       nth_error elems i = Some (ReflowPoint segs)
       /\ (forall next, nth_error elems (S i) = Some next -> segments next = []).
Proof.
  intros H. unfold _map_line_buffers, _crawl_indent_points in H.
  pose proof (@crawl_loop_error elems elems [] crawl_init) as Herr.
  cbn [length app] in Herr.
  destruct (crawl_loop elems 0 elems crawl_init) as [points err].
  destruct (map_line_loop_total points [] []) as [[lines buf] Hloop].
  rewrite Hloop in H. cbn [bind] in H.
  destruct err as [e'|].
  - injection H as <-. now apply Herr.
  - destruct (1 <? length buf)%nat eqn:Hlen; [|discriminate].
    destruct (@from_points_total buf) as [line Hline];
      [destruct buf; discriminate|].
    rewrite Hline in H. discriminate.
Qed.

(** X26. How the line grouping fails: [_map_line_buffers] raises nothing but
    the [IndexError] of the crawl's look-ahead, and only on a sequence that has
    a point not followed by an element holding a segment. *)
Theorem map_line_buffers_failure (elems : ReflowSequenceType) (e : exn) :
  _map_line_buffers elems = Raise e ->
  e = IndexError
  /\ exists i segs,
       nth_error elems i = Some (ReflowPoint segs)
       /\ (forall next, nth_error elems (S i) = Some next -> segments next = []).
Proof. apply map_line_buffers_raise. Qed.

(** X27. When the line grouping returns: on every sequence in which each
    point is followed by an element holding at least one segment (a validated
    sequence that ends in a block), [_map_line_buffers] returns its lines. *)
Theorem map_line_buffers_returns (elems : ReflowSequenceType) :
  (forall i segs,
      nth_error elems i = Some (ReflowPoint segs) ->
      exists next, nth_error elems (S i) = Some next /\ segments next <> []) ->
  exists lines, _map_line_buffers elems = Ok lines.
Proof.
  intros Hfollowed.
  destruct (_map_line_buffers elems) as [lines|e] eqn:Hres; [now exists lines|].
  destruct (map_line_buffers_raise _ Hres) as (_ & i & segs & Hnth & Hnext).
  destruct (Hfollowed i segs Hnth) as (next & Hn & Hne).
  now apply Hnext in Hn.
Qed.

(** ** [insert] followed by [without] *)

Lemma insert_before_result self insertion target i block :
  _validate_reflow_sequence (elements self) = Ok tt ->
  _find_element_idx_with self target = Ok i ->
  nth_error (elements self) i = Some block ->
  is_point block = false ->
  is_type insertion [whitespace; indent; newline] = false ->
  insert self insertion target "before"
  = Ok (mkSequence
          (firstn i (elements self)
           ++ [ReflowBlock [insertion]; ReflowPoint []]
           ++ skipn i (elements self))
          (root_segment self) (reflow_config self)
          [LintFix_create_before target [insertion]])
  /\ _validate_reflow_sequence
       (firstn i (elements self)
        ++ [ReflowBlock [insertion]; ReflowPoint []]
        ++ skipn i (elements self)) = Ok tt.
Proof.
  intros Hvalid Hfind Hnth Hblock Hins.
  apply validate_alternates in Hvalid. destruct Hvalid as (k & Halt & _).
  assert (Hi : (i < length (elements self))%nat)
    by (apply nth_error_Some; congruence).
  assert (Hki : xorb k (Nat.odd i) = false).
  { rewrite <- (proj1 (alternates_from_nth _ _) Halt _ _ Hnth). exact Hblock. }
  destruct (@alternates_split_at _ k i Halt ltac:(lia)) as [H1 H2].
  rewrite Hki in H2.
  assert (Hnew : alternates_from k
                   (firstn i (elements self)
                    ++ [ReflowBlock [insertion]; ReflowPoint []]
                    ++ skipn i (elements self))).
  { apply alternates_app. split; [exact H1|].
    rewrite length_firstn. replace (Nat.min i _) with i by lia.
    rewrite Hki. cbn. auto. }
  assert (Hv : _validate_reflow_sequence
                 (firstn i (elements self)
                  ++ [ReflowBlock [insertion]; ReflowPoint []]
                  ++ skipn i (elements self)) = Ok tt).
  { apply (@alternates_valid _ k Hnew).
    intros Habs. apply app_eq_nil in Habs. destruct Habs. discriminate. }
  split; [|exact Hv].
  unfold insert. cbn [String.eqb Ascii.eqb Bool.eqb andb orb assert bind].
  rewrite Hfind. cbn [bind]. rewrite Hins.
  unfold py_nth. rewrite Hnth. cbn [bind]. rewrite Hblock.
  unfold ReflowSequence_init. now rewrite Hv.
Qed.

Lemma find_element_idx_from_app target block :
  forall l1 l2 i0,
    (forall e s, In e l1 -> In s (segments e) -> RawSegment_eqb s target = false) ->
    existsb (fun s => RawSegment_eqb s target) (segments block) = true ->
    find_element_idx_from target (l1 ++ block :: l2) i0 = Ok (i0 + length l1)%nat.
Proof.
  induction l1 as [|h t IH]; intros l2 i0 Hno Hb; cbn [app find_element_idx_from length].
  - rewrite Hb. f_equal. lia.
  - replace (existsb (fun s => RawSegment_eqb s target) (segments h)) with false.
    + rewrite IH; [f_equal; lia | | exact Hb].
      intros e s He. apply Hno. now right.
    + symmetry. apply not_true_is_false. intros Hex.
      apply existsb_exists in Hex. destruct Hex as (s & Hs & Heq).
      rewrite (Hno h s (or_introl eq_refl) Hs) in Heq. discriminate.
Qed.

(** X28. Round trip of [insert] and [without]: on a validated sequence,
    inserting a segment that occurs nowhere in the sequence before a block that
    is not the first element, and then removing the inserted segment, returns
    a sequence with the segments, the rendering and the number of elements of
    the original one. *)
Theorem insert_then_without_roundtrip (self : ReflowSequence)
  (insertion target : RawSegment) (i : nat) (block : ReflowElement) :
  _validate_reflow_sequence (elements self) = Ok tt ->
  _find_element_idx_with self target = Ok i ->
  (0 < i)%nat ->
  nth_error (elements self) i = Some block ->
  is_point block = false ->
  is_type insertion [whitespace; indent; newline] = false ->
  (forall e s, In e (elements self) -> In s (segments e) ->
               RawSegment_eqb s insertion = false) ->
  exists s1 s2,
    insert self insertion target "before" = Ok s1
    /\ without s1 insertion = Ok s2
    /\ flat_map segments (elements s2) = flat_map segments (elements self)
    /\ get_raw s2 = get_raw self
    /\ length (elements s2) = length (elements self).
Proof.
  intros Hvalid Hfind Hpos Hnth Hblock Hins Hfresh.
  destruct (@insert_before_result self insertion target i block Hvalid Hfind Hnth Hblock Hins) as [Hinsert Hv1].
  assert (Hi : (i < length (elements self))%nat)
    by (apply nth_error_Some; congruence).
  set (s1 := mkSequence
               (firstn i (elements self)
                ++ [ReflowBlock [insertion]; ReflowPoint []]
                ++ skipn i (elements self))
               (root_segment self) (reflow_config self)
               [LintFix_create_before target [insertion]]) in *.
  assert (Hlen_first : length (firstn i (elements self)) = i)
    by (rewrite length_firstn; lia).
  assert (Hfind1 : _find_element_idx_with s1 insertion = Ok i).
  { unfold _find_element_idx_with, s1. cbn [elements app].
    rewrite (@find_element_idx_from_app insertion (ReflowBlock [insertion])).
    - now rewrite Hlen_first.
    - intros e s He. apply Hfresh. rewrite <- (firstn_skipn i (elements self)).
      apply in_or_app. now left.
    - cbn. now rewrite RawSegment_eqb_refl.
  }
  assert (Hnth1 : nth_error (elements s1) i = Some (ReflowBlock [insertion])).
  { unfold s1. cbn [elements]. rewrite nth_error_app2 by lia.
    now rewrite Hlen_first, Nat.sub_diag. }
  destruct (@without_succeeds s1 insertion i Hv1 Hfind1 Hpos) as (s2 & Hs2 & Hlen2).
  { unfold s1. cbn [elements]. rewrite !length_app, Hlen_first, length_skipn.
    cbn [length]. lia. }
  { intros e He. rewrite Hnth1 in He. now injection He as <-. }
  exists s1, s2. split; [exact Hinsert|]. split; [exact Hs2|].
  destruct (@without_removes_block_aux s1 s2 insertion Hs2)
    as (i' & b' & Hf' & _ & _ & _ & _ & _ & Hflat & _ & _).
  rewrite Hfind1 in Hf'. injection Hf' as <-.
  assert (Hsegs : flat_map segments (elements s2) = flat_map segments (elements self)).
  { rewrite Hflat. unfold s1. cbn [elements].
    rewrite <- Hlen_first at 1. rewrite firstn_app, firstn_all, Nat.sub_diag.
    cbn [firstn]. rewrite app_nil_r.
    replace (S i) with (length (firstn i (elements self)) + 1)%nat by lia.
    rewrite skipn_app, skipn_all2 by lia.
    replace (length (firstn i (elements self)) + 1
             - length (firstn i (elements self)))%nat with 1%nat by lia.
    cbn [skipn app flat_map segments].
    now rewrite <- flat_map_app, firstn_skipn. }
  split; [exact Hsegs|]. split.
  - now rewrite !get_raw_flat, Hsegs.
  - rewrite Hlen2. unfold s1. cbn [elements].
    rewrite !length_app, Hlen_first, length_skipn. cbn [length]. lia.
Qed.

End Reflow.

(** The point after [SELECT] in [elems_taken_indent] is emitted as a line break
    with impulse 1; afterwards the balance is 1 and the untaken tuple is still
    empty: the opened step 1 is not registered. *)
Lemma crawl_line_break_registers_nothing :
  crawl_point elems_taken_indent 1 [seg_indent 1; seg_newline 2] crawl_init
  = Ok (Some (mkIndentPoint 1 1 0 0 None true []), mkCrawl (Some 1%nat) 1 [])
  /\ crawl_states elems_taken_indent 0 elems_taken_indent crawl_init
     = [crawl_init; mkCrawl (Some 1%nat) 1 []; mkCrawl (Some 1%nat) 1 []]
  /\ ~ registers_after_every_emission.
Proof.
  split; [reflexivity|]. split; [reflexivity|].
  intros H.
  destruct (H elems_taken_indent 1%nat [seg_indent 1; seg_newline 2] crawl_init
              _ _ eq_refl) as (_ & _ & Hreg).
  cbn in Hreg. specialize (Hreg ltac:(lia) 1%Z ltac:(lia)).
  exact Hreg.
Qed.

Lemma crawl_emission_update_witness :
  let st' := mkCrawl None 1 [1%Z] in
  st_indent_balance st' = 1%Z
  /\ In 1%Z (st_untaken_indents st').
Proof.
  destruct (@crawl_emission_update elems_untaken_indent 1
              [seg_indent 1; seg_space " " 2] crawl_init
              (mkCrawl None 1 [1%Z]) (mkIndentPoint 1 1 0 0 None false [])
              eq_refl) as (Hbal & _ & _ & Hreg & _).
  split; [exact Hbal|].
  apply (Hreg eq_refl 1%Z). cbn. lia.
Defined.

Lemma crawl_balance_conservation_witness :
  let ip := mkIndentPoint 3 (-1) (-1) 1 None true [1%Z] in
  initial_indent_balance ip = impulse_sum (firstn 3 elems_untaken_indent)
  /\ closing_indent_balance ip = impulse_sum (firstn 4 elems_untaken_indent).
Proof.
  destruct (@crawl_balance_conservation elems_untaken_indent
              (mkIndentPoint 3 (-1) (-1) 1 None true [1%Z]))
    as (H1 & _ & H2).
  - cbn. right. left. reflexivity.
  - split; [exact H1 | exact H2].
Defined.

Lemma crawl_untaken_pruned_witness :
  (1 <= st_indent_balance (mkCrawl None 1 [1%Z]))%Z.
Proof.
  apply (@crawl_untaken_pruned elems_untaken_indent (mkCrawl None 1 [1%Z]) 1%Z).
  - cbn. right. left. reflexivity.
  - cbn. left. reflexivity.
Defined.

(** ** The mutators on examples *)

(** C1. Chaining on [a b c d e]: [without] of [b] gives a sequence [s1] whose
    fix list is the deletion of [b].  Each of [without], [insert] and [replace]
    applied to [s1] then returns a sequence whose fix list is its own new fix
    alone: the deletion of [b], already accumulated in [s1], is not retained. *)
Theorem mutators_discard_embodied_fixes :
  exists s1,
    without seq_abcde seg_b = Ok s1
    /\ embodied_fixes s1 = [LintFix_delete seg_b]
    /\ (exists s2,
          without s1 seg_d = Ok s2
          /\ embodied_fixes s2 = [LintFix_delete seg_d]
          /\ ~ In (LintFix_delete seg_b) (embodied_fixes s2))
    /\ (exists s2,
          insert s1 seg_x seg_d "before" = Ok s2
          /\ embodied_fixes s2 = [LintFix_create_before seg_d [seg_x]]
          /\ ~ In (LintFix_delete seg_b) (embodied_fixes s2))
    /\ (exists s2,
          replace (fun _ => None) s1 (mkBase [seg_d]) [mkBase [seg_x]] = Ok s2
          /\ embodied_fixes s2 = [LintFix_replace (mkBase [seg_d]) [mkBase [seg_x]]]
          /\ ~ In (LintFix_delete seg_b) (embodied_fixes s2)).
Proof.
  eexists. split; [reflexivity|]. split; [reflexivity|].
  repeat split; eexists; (split; [reflexivity|]); (split; [reflexivity|]);
    cbn; intros [H|[]]; discriminate H.
Qed.

Lemma mutators_alternate_witness :
  without seq_abcde seg_b
  = Ok (mkSequence
          [ ReflowBlock [seg_a];
            ReflowPoint [seg_space " " 1; seg_space " " 3];
            ReflowBlock [seg_c]; ReflowPoint [seg_space " " 5];
            ReflowBlock [seg_d]; ReflowPoint [seg_space " " 7];
            ReflowBlock [seg_e] ]
          example_root example_config [LintFix_delete seg_b])
  /\ is_point (ReflowBlock [seg_a])
     = negb (is_point (ReflowPoint [seg_space " " 1; seg_space " " 3])).
Proof.
  split; [reflexivity|].
  exact (proj2 (@mutators_alternate
                  example_get_indent example_indent_to (fun _ => None)
                  (fun segs _ _ _ fixes _ => (fixes, ReflowPoint segs))
                  example_rebreak_sequence example_lint_line_length
                  (Without seg_b) seq_abcde _ eq_refl)
           0%nat _ _ eq_refl eq_refl).
Defined.

(** ** The indent pass on examples *)

(** The indent pass of reindent.py on [elems_indented], which is indented as
    the pass wants it: the elements come back unchanged, with no fix. *)
Lemma lint_indent_points_indented_unchanged :
  lint_indent_points example_get_indent example_indent_to elems_indented "    "
  = Ok (elems_indented, []).
Proof. vm_compute. reflexivity. Qed.

Lemma way_up_unfound_raises_witness :
  exists e,
    _evaluate_indent_point_buffer example_get_indent example_indent_to
      elems_way_up line_way_up "    " [] = Raise e
    /\ (e = UnboundLocalError "target_point_idx" \/ lookup_error e).
Proof.
  apply (@way_up_unfound_raises example_get_indent example_indent_to
           elems_way_up line_way_up "    " []
           (mkIndentPoint 5 0 (-1) 2 (Some 1%nat) true [1%Z; 2%Z])).
  - reflexivity.
  - vm_compute. reflexivity.
  - vm_compute. left. reflexivity.
  - intros ip Hin. vm_compute in Hin.
    destruct Hin as [<-|[<-|[<-|[]]]]; vm_compute; discriminate.
Defined.

(** The whole indent pass on [elems_way_up]: the crawl groups the second line
    as [line_way_up] and its evaluation ends in the [UnboundLocalError]. *)
Lemma lint_indent_points_way_up_raises :
  _map_line_buffers elems_way_up
  = Ok [mkIndentLine 0 [mkIndentPoint 1 0 0 0 None true []]; line_way_up]
  /\ lint_indent_points example_get_indent example_indent_to elems_way_up "    "
     = Raise (UnboundLocalError "target_point_idx").
Proof. split; vm_compute; reflexivity. Qed.

Lemma revise_group_adjacent_raises_witness :
  py_slice lines_template_pair (0 + 1) 1 = []
  /\ revise_group elems_template_pair lines_template_pair [0; 1]%nat
     = Raise (ValueError "min() arg is an empty sequence").
Proof.
  apply (@revise_group_adjacent_raises elems_template_pair lines_template_pair
           [0; 1]%nat lines_template_pair
           [[-1; -1; 0; 1]%Z; [0; 0; 1; 2]%Z] 0%nat 1%nat).
  - reflexivity.
  - vm_compute. reflexivity.
  - reflexivity.
  - reflexivity.
  - simpl. lia.
  - vm_compute. reflexivity.
Defined.

(** The whole indent pass on [elems_template_pair]: the two tags share block
    uuid 7, sit on adjacent lines with balances 0 and 1, and the pass ends in
    the [ValueError], before any point is evaluated. *)
Lemma lint_indent_points_template_pair_raises :
  _map_line_buffers elems_template_pair = Ok lines_template_pair
  /\ group_templated_lines lines_template_pair elems_template_pair 0 []
     = Ok [(7%nat, [0; 1]%nat)]
  /\ forall get_indent indent_to,
      lint_indent_points get_indent indent_to elems_template_pair "    "
      = Raise (ValueError "min() arg is an empty sequence").
Proof.
  split; [vm_compute; reflexivity|]. split; [vm_compute; reflexivity|].
  intros. vm_compute. reflexivity.
Qed.


(** ** The constructors and mutators on [a b c d e] *)

Lemma without_removes_block_witness :
  exists s',
    without seq_abcde seg_b = Ok s'
    /\ flat_map segments (elements s')
       = flat_map segments (firstn 2 elems_abcde)
         ++ flat_map segments (skipn 3 elems_abcde)
    /\ embodied_fixes s' = [LintFix_delete seg_b].
Proof.
  eexists. split; [reflexivity|].
  destruct (@without_removes_block seq_abcde _ seg_b eq_refl)
    as (i & block & Hfind & _ & _ & _ & _ & _ & Hflat & _ & Hfix).
  injection Hfind as <-. split; [exact Hflat | exact Hfix].
Defined.

Lemma without_returns_iff_witness :
  exists s', without seq_abcde seg_b = Ok s'.
Proof.
  apply (proj2 (@without_returns_iff seq_abcde seg_b eq_refl)).
  exists 2%nat, (ReflowBlock [seg_b]).
  split; [reflexivity|]. split; [lia|]. split; [simpl; lia|].
  split; reflexivity.
Defined.

Lemma insert_beside_block_witness :
  exists s',
    insert seq_abcde seg_x seg_d "before" = Ok s'
    /\ length (elements s') = 11%nat
    /\ embodied_fixes s' = [LintFix_create_before seg_d [seg_x]].
Proof.
  destruct (@insert_beside_block seq_abcde seg_x seg_d "before" 6
              (ReflowBlock [seg_d]) eq_refl eq_refl eq_refl eq_refl eq_refl
              (or_introl eq_refl))
    as (s' & Hins & Hlen & _ & Hfix).
  exists s'. split; [exact Hins|]. split; [exact Hlen | exact Hfix].
Defined.

Lemma insert_rejects_spacing_witness :
  exists e,
    insert seq_abcde (seg_space " " 9) seg_d "before" = Raise e
    /\ (e = AssertionError \/ exists msg, e = ValueError msg).
Proof.
  apply (@insert_rejects_spacing seq_abcde (seg_space " " 9) seg_d "before").
  reflexivity.
Defined.

Lemma replace_splices_witness :
  exists s',
    replace (fun _ => None) seq_abcde (mkBase [seg_d]) [mkBase [seg_x]] = Ok s'
    /\ flat_map segments (elements s')
       = [ seg_a; seg_space " " 1; seg_b; seg_space " " 3; seg_c;
           seg_space " " 5; seg_x; seg_space " " 7; seg_e ]
    /\ embodied_fixes s' = [LintFix_replace (mkBase [seg_d]) [mkBase [seg_x]]].
Proof.
  exact (@replace_splices (fun _ => None) seq_abcde (mkBase [seg_d])
           [mkBase [seg_x]] seg_d seg_d 6 6 eq_refl eq_refl eq_refl eq_refl).
Defined.

Lemma insert_then_without_roundtrip_witness :
  exists s1 s2,
    insert seq_abcde seg_x seg_d "before" = Ok s1
    /\ without s1 seg_x = Ok s2
    /\ flat_map segments (elements s2) = flat_map segments (elements seq_abcde)
    /\ get_raw s2 = get_raw seq_abcde
    /\ length (elements s2) = length (elements seq_abcde).
Proof.
  apply (@insert_then_without_roundtrip seq_abcde seg_x seg_d 6
           (ReflowBlock [seg_d])).
  - reflexivity.
  - reflexivity.
  - lia.
  - reflexivity.
  - reflexivity.
  - reflexivity.
  - intros e s He Hs. simpl in He.
    repeat (destruct He as [<-|He];
            [simpl in Hs; destruct Hs as [<-|[]]; reflexivity|]).
    destruct He.
Defined.

Lemma respace_without_points_witness :
  respace example_respace_point
    (mkSequence [ReflowBlock [seg_a]] example_root example_config []) false "all"
  = Raise AssertionError.
Proof.
  apply (@respace_without_points example_respace_point
           (mkSequence [ReflowBlock [seg_a]] example_root example_config [])
           false "all").
  reflexivity.
Defined.

Lemma respace_keeps_blocks_witness :
  exists s',
    respace example_respace_point seq_abcde false "all" = Ok s'
    /\ nth_error (elements s') 2 = Some (ReflowBlock [seg_b]).
Proof.
  eexists. split; [vm_compute; reflexivity|].
  apply (proj2 (@respace_keeps_blocks example_respace_point seq_abcde _ false
                  "all" eq_refl eq_refl) 2%nat (ReflowBlock [seg_b]));
    reflexivity.
Defined.

Lemma from_around_target_both_witness :
  exists s,
    from_around_target (fun _ => None) example_is_code (mkBase [seg_c])
      root_abcde example_config "both" = Ok s
    /\ embodied_fixes s = [].
Proof.
  destruct (@from_around_target_both (fun _ => None) example_is_code
              (mkBase [seg_c]) root_abcde example_config seg_c seg_c 3 4
              eq_refl eq_refl eq_refl eq_refl ltac:(lia))
    as (s & p & q & Hs & Hfix & _).
  exists s. split; [exact Hs | exact Hfix].
Defined.

Lemma from_around_target_at_start_witness :
  from_around_target (fun _ => None) example_is_code (mkBase [seg_a])
    root_abcde example_config "both" = Raise AssertionError.
Proof.
  apply (@from_around_target_at_start (fun _ => None) example_is_code
           (mkBase [seg_a]) root_abcde example_config "both" seg_a seg_a 0).
  - reflexivity.
  - reflexivity.
  - reflexivity.
  - reflexivity.
  - reflexivity.
  - vm_compute. lia.
Defined.

Lemma deduce_line_indent_leading_whitespace_witness :
  deduce_line_indent example_is_code (seg_code "b" 5) root_indented_line
  = Ok "  "%string.
Proof.
  apply (@deduce_line_indent_leading_whitespace example_is_code
           root_indented_line [seg_code "SELECT" 0]
           [seg_code "a" 3; seg_space " " 4] [] (seg_newline 1)
           (seg_space "  " 2) (seg_code "b" 5)).
  - reflexivity.
  - intros s Hin. simpl in Hin.
    repeat (destruct Hin as [<-|Hin]; [reflexivity|]). destruct Hin.
  - reflexivity.
  - reflexivity.
  - reflexivity.
  - reflexivity.
  - intros s Hin. simpl in Hin.
    destruct Hin as [<-|[<-|[<-|[]]]].
    + left. reflexivity.
    + right. left. reflexivity.
    + left. reflexivity.
Defined.

(** ** The crawl and the line grouping on examples *)

Lemma crawl_untaken_within_balance_witness :
  (1 <= initial_indent_balance (mkIndentPoint 3 (-1) (-1) 1 None true [1%Z]))%Z.
Proof.
  apply (@crawl_untaken_within_balance elems_untaken_indent
           (mkIndentPoint 3 (-1) (-1) 1 None true [1%Z]) 1%Z).
  - simpl. right. left. reflexivity.
  - simpl. left. reflexivity.
Defined.

Lemma crawl_last_line_break_witness :
  exists ip',
    In ip' (fst (_crawl_indent_points elems_way_up))
    /\ idx ip' = 1%nat /\ is_line_break ip' = true.
Proof.
  refine (proj2 (proj2 (@crawl_last_line_break elems_way_up
                          (mkIndentPoint 3 2 0 0 (Some 1%nat) false [])
                          1%nat _ eq_refl))).
  vm_compute. right. left. reflexivity.
Defined.

Lemma map_line_buffers_lines_witness :
  exists p,
    last_error [mkIndentPoint 1 0 0 0 None true []] = Some p
    /\ hd_error (line_indent_points line_way_up) = Some p
    /\ is_line_break p = true.
Proof.
  apply (proj2 (@map_line_buffers_lines elems_way_up lines_way_up
                  ltac:(vm_compute; reflexivity))
           0%nat (mkIndentLine 0 [mkIndentPoint 1 0 0 0 None true []])
           line_way_up);
    reflexivity.
Defined.

Lemma map_line_buffers_failure_witness :
  exists i segs,
    nth_error elems_trailing_point i = Some (ReflowPoint segs)
    /\ (forall next, nth_error elems_trailing_point (S i) = Some next ->
                     segments next = []).
Proof.
  apply (proj2 (@map_line_buffers_failure elems_trailing_point IndexError
                  ltac:(vm_compute; reflexivity))).
Defined.

Lemma map_line_buffers_returns_witness :
  exists lines, _map_line_buffers elems_way_up = Ok lines.
Proof.
  apply (@map_line_buffers_returns elems_way_up).
  intros i segs H.
  do 7 (destruct i as [|i];
        [simpl in H;
         first [discriminate H
               | eexists; split; [reflexivity | discriminate]] |]).
  destruct i; discriminate H.
Defined.

(** ** The reconciliation and evaluation passes on examples *)

Lemma revise_templated_lines_keeps_points_witness :
  exists lines',
    _revise_templated_lines lines_template_block elems_template_block = Ok lines'
    /\ map line_initial_indent_balance lines_template_block = [0; 0; 1; 1]%Z
    /\ map line_initial_indent_balance lines' = [0; 0; 0; 0]%Z
    /\ map line_indent_points lines' = map line_indent_points lines_template_block.
Proof.
  eexists. split; [vm_compute; reflexivity|].
  split; [reflexivity|]. split; [reflexivity|].
  apply (@revise_templated_lines_keeps_points lines_template_block _
           elems_template_block).
  vm_compute. reflexivity.
Defined.

Lemma revise_group_common_balance_witness :
  exists lines' li lj,
    revise_group elems_template_block lines_template_block [1; 3]%nat = Ok lines'
    /\ nth_error lines' 1 = Some li /\ nth_error lines' 3 = Some lj
    /\ line_initial_indent_balance li = line_initial_indent_balance lj.
Proof.
  eexists. eexists. eexists.
  split; [vm_compute; reflexivity|].
  split; [reflexivity|]. split; [reflexivity|].
  eapply (@revise_group_common_balance elems_template_block lines_template_block
            _ [1; 3]%nat 1 3).
  - vm_compute. reflexivity.
  - simpl. left. reflexivity.
  - simpl. right. left. reflexivity.
  - reflexivity.
  - reflexivity.
Defined.

Lemma revise_comment_lines_frame_witness :
  exists lines',
    _revise_comment_lines lines_comment_line elems_comment_line = Ok lines'
    /\ map line_indent_points lines' = map line_indent_points lines_comment_line
    /\ nth_error lines' 2 = nth_error lines_comment_line 2.
Proof.
  eexists. split; [vm_compute; reflexivity|].
  destruct (@revise_comment_lines_frame lines_comment_line _ elems_comment_line
              ltac:(vm_compute; reflexivity)) as [Hpoints Hkeep].
  split; [exact Hpoints|].
  apply (Hkeep 2%nat); vm_compute; reflexivity.
Defined.

Lemma revise_comment_lines_anchor_witness :
  exists lines' l',
    _revise_comment_lines lines_comment_line elems_comment_line = Ok lines'
    /\ map line_initial_indent_balance lines_comment_line = [0; 0; 1]%Z
    /\ nth_error lines' 1 = Some l'
    /\ line_initial_indent_balance l' = 1%Z.
Proof.
  eexists. eexists. split; [vm_compute; reflexivity|].
  split; [reflexivity|]. split; [reflexivity|].
  destruct (@revise_comment_lines_anchor lines_comment_line _ elems_comment_line
              1%nat _ ltac:(vm_compute; reflexivity) eq_refl) as [Hanchor _].
  assert (Hlj : exists lj,
             nth_error lines_comment_line 2 = Some lj
             /\ is_all_comments lj elems_comment_line = Ok false
             /\ line_initial_indent_balance lj = 1%Z).
  { eexists. split; [reflexivity|].
    split; [vm_compute; reflexivity | reflexivity]. }
  destruct Hlj as (lj & Hnth & Hcode & Hbal).
  transitivity (line_initial_indent_balance lj); [|exact Hbal].
  apply (Hanchor 2%nat lj).
  - lia.
  - intros k Hk. assert (k = 1%nat) as -> by lia.
    eexists. split; [reflexivity | vm_compute; reflexivity].
  - exact Hnth.
  - exact Hcode.
Defined.

Lemma evaluate_line_frame_witness :
  exists elems' forced_indents' fixes,
    _evaluate_indent_point_buffer example_get_indent example_indent_to
      elems_unindented
      (mkIndentLine 1 [ mkIndentPoint 1 1 0 0 None true [];
                        mkIndentPoint 3 (-1) (-1) 1 (Some 1%nat) true [] ])
      "    " []
    = Ok (elems', forced_indents', fixes)
    /\ length elems' = length elems_unindented
    /\ nth_error elems' 2 = nth_error elems_unindented 2.
Proof.
  eexists. eexists. eexists. split; [vm_compute; reflexivity|].
  destruct (@evaluate_line_frame example_get_indent example_indent_to
              elems_unindented _
              (mkIndentLine 1 [ mkIndentPoint 1 1 0 0 None true [];
                                mkIndentPoint 3 (-1) (-1) 1 (Some 1%nat) true [] ])
              "    " [] _ _ ltac:(vm_compute; reflexivity))
    as (Hlen & Hframe & _).
  split; [exact Hlen|].
  apply (Hframe 2%nat). intros ip Hin. simpl in Hin.
  destruct Hin as [<-|[<-|[]]]; simpl; lia.
Defined.

Lemma lint_indent_points_keeps_blocks_witness :
  exists elems' fixes,
    lint_indent_points example_get_indent example_indent_to elems_unindented "    "
    = Ok (elems', fixes)
    /\ length elems' = 5%nat
    /\ nth_error elems' 2 = Some (ReflowBlock [seg_code "1" 3]).
Proof.
  eexists. eexists. split; [vm_compute; reflexivity|].
  destruct (@lint_indent_points_keeps_blocks example_get_indent example_indent_to
              elems_unindented _ "    " _ ltac:(vm_compute; reflexivity))
    as (Hlen & Hblocks).
  split; [exact Hlen|].
  apply (Hblocks 2%nat); reflexivity.
Defined.
